(** * action-deployer: the artifact-to-filesystem synchronisation engine

    A shallow embedding of [main.go] (package [main]) and of the parts of
    the Go standard library it calls, followed by the properties of the
    synchroniser: exclusion matching, path-traversal rejection,
    differential extraction, the per-archive fan-out and the update
    ledger. *)

From Stdlib Require Import Ascii ZArith Lia.
From stdpp Require Import gmap strings list fin_maps sorting pretty.

(** ** Strings and byte buffers *)

Abbreviation bytes := (list Byte.byte).

Definition bytes_of (s : string) : bytes := String.list_byte_of_string s.

#[global] Instance byte_eq_dec : EqDecision Byte.byte.
Proof.
  intros a b. destruct (decide (Byte.to_N a = Byte.to_N b)) as [H|H].
  - left. apply (f_equal Byte.of_N) in H. rewrite !Byte.of_to_N in H. congruence.
  - right. congruence.
Defined.

(** [strings.HasPrefix(s, prefix)] *)
Definition strings_HasPrefix (s prefix : string) : bool := String.prefix prefix s.

(** [strings.Split(s, "/")]: the fields between separators; never empty. *)
Fixpoint split_slash (s : string) : list string :=
  match s with
  | EmptyString => [""]
  | String c s' =>
      if Ascii.eqb c "/" then "" :: split_slash s'
      else match split_slash s' with
           | h :: t => String c h :: t
           | [] => [String c ""]
           end
  end.

(** [strings.Join(elems, "/")] *)
Fixpoint strings_Join (elems : list string) : string :=
  match elems with
  | [] => ""
  | [e] => e
  | e :: rest => e +:+ "/" +:+ strings_Join rest
  end.

(** ** [path/filepath] on a Unix host

    [Clean] follows the four rewriting rules of the package documentation:
    empty and [.] elements disappear, an inner [..] removes the element
    before it, a [..] that begins a rooted path is dropped, and leading
    [..] elements of a relative path are kept. [out] is the stack of
    elements written so far, top first. *)
Module filepath.

Definition Separator : string := "/".

Definition rooted (path : string) : bool :=
  match path with
  | String c _ => Ascii.eqb c "/"
  | EmptyString => false
  end.

Fixpoint clean_elems (root : bool) (out : list string) (elems : list string)
  : list string :=
  match elems with
  | [] => rev out
  | e :: rest =>
      if String.eqb e "" then clean_elems root out rest
      else if String.eqb e "." then clean_elems root out rest
      else if String.eqb e ".." then
        match out with
        | top :: out' =>
            if String.eqb top ".."
            then clean_elems root (".." :: out) rest
            else clean_elems root out' rest
        | [] =>
            if root then clean_elems root [] rest
            else clean_elems root [".."] rest
        end
      else clean_elems root (e :: out) rest
  end.

Definition Clean (path : string) : string :=
  if String.eqb path "" then "."
  else
    let root := rooted path in
    let body := strings_Join (clean_elems root [] (split_slash path)) in
    if root then "/" +:+ body
    else if String.eqb body "" then "." else body.

(** [Join] ignores empty leading elements and cleans the result. *)
Fixpoint Join (elem : list string) : string :=
  match elem with
  | [] => ""
  | e :: rest =>
      if String.eqb e "" then Join rest
      else Clean (strings_Join elem)
  end.

(** The part of [path] up to and including its last separator. *)
Fixpoint upto_last_slash (path : string) : string :=
  match path with
  | EmptyString => ""
  | String c s' =>
      let r := upto_last_slash s' in
      if String.eqb r "" then (if Ascii.eqb c "/" then "/" else "")
      else String c r
  end.

Definition Dir (path : string) : string := Clean (upto_last_slash path).

End filepath.

(** ** [regexp]: the RE2 fragment used by exclusion patterns

    Syntax trees and the stack parser of [regexp/syntax] (Perl flags, so
    [^] and [$] are begin/end of text and [.] excludes newline), for the
    fragment made of literals, [.], [^], [$], escaped punctuation, the
    postfix operators [*] [+] [?] (greedy or not), alternation and
    capturing groups. Anything else (classes, counted repetition, flag
    groups, letter escapes, non-ASCII bytes) is reported as
    [ErrUnsupported]: the fragment does not speak for it. *)
Module regexp.

Inductive Regexp : Type :=
| OpEmptyMatch
| OpLiteral (c : ascii)
| OpAnyCharNotNL
| OpBeginText
| OpEndText
| OpCapture (r : Regexp)
| OpStar (r : Regexp)
| OpPlus (r : Regexp)
| OpQuest (r : Regexp)
| OpConcat (a b : Regexp)
| OpAlternate (a b : Regexp).

Inductive ErrorCode : Type :=
| ErrMissingParen
| ErrUnexpectedParen
| ErrMissingRepeatArgument
| ErrInvalidRepeatOp
| ErrTrailingBackslash
| ErrUnsupported.

(** Parse stack entries: a finished node or one of the two pseudo-operators. *)
Inductive item : Type :=
| INode (r : Regexp)
| ILeftParen
| IVerticalBar.

Fixpoint mk_concat (subs : list Regexp) : Regexp :=
  match subs with
  | [] => OpEmptyMatch
  | [r] => r
  | r :: rest => OpConcat r (mk_concat rest)
  end.

Fixpoint mk_alternate (subs : list Regexp) : Regexp :=
  match subs with
  | [] => OpEmptyMatch
  | [r] => r
  | r :: rest => OpAlternate r (mk_alternate rest)
  end.

(** Pops the nodes above the nearest pseudo-operator, oldest first. *)
Fixpoint take_nodes (stk : list item) (acc : list Regexp) : list Regexp * list item :=
  match stk with
  | INode r :: rest => take_nodes rest (r :: acc)
  | _ => (acc, stk)
  end.

(** [parser.concat]: replaces the top run of nodes by their concatenation. *)
Definition concat (stk : list item) : list item :=
  let '(subs, rest) := take_nodes stk [] in INode (mk_concat subs) :: rest.

(** Pops the alternatives separated by vertical bars, oldest first. *)
Fixpoint take_alts (stk : list item) (acc : list Regexp) : list Regexp * list item :=
  match stk with
  | INode r :: IVerticalBar :: rest => take_alts rest (r :: acc)
  | INode r :: rest => (r :: acc, rest)
  | _ => (acc, stk)
  end.

(** [parser.alternate] after [parser.concat]. *)
Definition alternate (stk : list item) : Regexp * list item :=
  let '(alts, rest) := take_alts (concat stk) [] in (mk_alternate alts, rest).

(** [parser.parseRightParen] *)
Definition parseRightParen (stk : list item) : ErrorCode + list item :=
  match alternate stk with
  | (r, ILeftParen :: rest) => inr (INode (OpCapture r) :: rest)
  | _ => inl ErrUnexpectedParen
  end.

Definition isalnum (c : ascii) : bool :=
  let n := nat_of_ascii c in
  ((48 <=? n) && (n <=? 57)) || ((65 <=? n) && (n <=? 90)) || ((97 <=? n) && (n <=? 122)).

Definition is_ascii7 (c : ascii) : bool := nat_of_ascii c <? 128.

(** [parser.repeat] on the operand on top of the stack. *)
Definition repeat (op : Regexp -> Regexp) (stk : list item) (lastRepeat : bool)
  : ErrorCode + list item :=
  if lastRepeat then inl ErrInvalidRepeatOp
  else match stk with
       | INode sub :: rest => inr (INode (op sub) :: rest)
       | _ => inl ErrMissingRepeatArgument
       end.

Definition repeat_op (c : ascii) : option (Regexp -> Regexp) :=
  if Ascii.eqb c "*" then Some OpStar
  else if Ascii.eqb c "+" then Some OpPlus
  else if Ascii.eqb c "?" then Some OpQuest
  else None.

(** The main loop of [syntax.Parse]; [lastRepeat] tells whether the previous
    token was a repetition operator. *)
Fixpoint parse_loop (t : list ascii) (stk : list item) (lastRepeat : bool)
  : ErrorCode + list item :=
  match t with
  | [] => inr stk
  | c :: t' =>
      if Ascii.eqb c "(" then
        match t' with
        | d :: _ => if Ascii.eqb d "?" then inl ErrUnsupported
                    else parse_loop t' (ILeftParen :: stk) false
        | [] => parse_loop t' (ILeftParen :: stk) false
        end
      else if Ascii.eqb c "|" then parse_loop t' (IVerticalBar :: concat stk) false
      else if Ascii.eqb c ")" then
        match parseRightParen stk with
        | inl e => inl e
        | inr stk' => parse_loop t' stk' false
        end
      else if Ascii.eqb c "^" then parse_loop t' (INode OpBeginText :: stk) false
      else if Ascii.eqb c "$" then parse_loop t' (INode OpEndText :: stk) false
      else if Ascii.eqb c "." then parse_loop t' (INode OpAnyCharNotNL :: stk) false
      else if Ascii.eqb c "[" then inl ErrUnsupported
      else if Ascii.eqb c "{" then inl ErrUnsupported
      else if Ascii.eqb c "\" then
        match t' with
        | [] => inl ErrTrailingBackslash
        | d :: t'' =>
            if is_ascii7 d && negb (isalnum d)
            then parse_loop t'' (INode (OpLiteral d) :: stk) false
            else inl ErrUnsupported
        end
      else match repeat_op c with
           | Some op =>
               match repeat op stk lastRepeat with
               | inl e => inl e
               | inr stk' =>
                   match t' with
                   | d :: t'' => if Ascii.eqb d "?" then parse_loop t'' stk' true
                                 else parse_loop t' stk' true
                   | [] => parse_loop t' stk' true
                   end
               end
           | None =>
               if is_ascii7 c then parse_loop t' (INode (OpLiteral c) :: stk) false
               else inl ErrUnsupported
           end
  end.

(** [syntax.Parse(s, syntax.Perl)] *)
Definition Parse (s : string) : ErrorCode + Regexp :=
  match parse_loop (String.list_ascii_of_string s) [] false with
  | inl e => inl e
  | inr stk =>
      match alternate stk with
      | (r, []) => inr r
      | _ => inl ErrMissingParen
      end
  end.

(** *** Matching

    [ends r s i] lists the positions where a match of [r] that starts at
    position [i] of [s] can end. *)
Fixpoint closure (fuel : nat) (f : nat -> list nat) (xs : list nat) : list nat :=
  match fuel with
  | O => xs
  | S n => closure n f (list_union xs (xs ≫= f))
  end.

Fixpoint ends (r : Regexp) (s : list ascii) (i : nat) : list nat :=
  match r with
  | OpEmptyMatch => [i]
  | OpLiteral c =>
      match s !! i with
      | Some d => if Ascii.eqb c d then [S i] else []
      | None => []
      end
  | OpAnyCharNotNL =>
      match s !! i with
      | Some d => if Ascii.eqb d "010" then [] else [S i]
      | None => []
      end
  | OpBeginText => if i =? 0 then [i] else []
  | OpEndText => if i =? length s then [i] else []
  | OpCapture r => ends r s i
  | OpStar r => closure (S (length s)) (ends r s) [i]
  | OpPlus r => closure (S (length s)) (ends r s) (ends r s i)
  | OpQuest r => i :: ends r s i
  | OpConcat a b => ends a s i ≫= ends b s
  | OpAlternate a b => ends a s i ++ ends b s i
  end.

(** The method [MatchString] of a compiled expression: an unanchored search. *)
Definition MatchRe (r : Regexp) (s : string) : bool :=
  let cs := String.list_ascii_of_string s in
  existsb (fun i => negb (bool_decide (ends r cs i = []))) (seq 0 (S (length cs))).

(** Does [r] match the whole of [s]? *)
Definition MatchWhole (r : Regexp) (s : string) : bool :=
  let cs := String.list_ascii_of_string s in
  bool_decide (length cs ∈ ends r cs 0).

End regexp.

(** ** [github.com/twmb/murmur3]: MurmurHash3, x64 128-bit variant, seed 0

    64-bit words are integers reduced modulo [2^64] after every
    multiplication, addition and rotation. *)
Module murmur3.

Local Open Scope Z_scope.

Definition wrap64 (x : Z) : Z := x mod 2^64.

Definition rotl64 (x r : Z) : Z :=
  wrap64 (Z.lor (Z.shiftl x r) (Z.shiftr x (64 - r))).

Definition c1_128 : Z := 0x87c37b91114253d5.
Definition c2_128 : Z := 0x4cf5ad432745937f.

Definition byteZ (b : Byte.byte) : Z := Z.of_N (Byte.to_N b).

(** Little-endian load of at most eight bytes. *)
Fixpoint le64 (bs : bytes) : Z :=
  match bs with
  | [] => 0
  | b :: rest => Z.lor (byteZ b) (Z.shiftl (le64 rest) 8)
  end.

Definition mixk1 (k1 : Z) : Z := wrap64 (rotl64 (wrap64 (k1 * c1_128)) 31 * c2_128).
Definition mixk2 (k2 : Z) : Z := wrap64 (rotl64 (wrap64 (k2 * c2_128)) 33 * c1_128).

(** One 16-byte block. *)
Definition bmix (h : Z * Z) (blk : bytes) : Z * Z :=
  let '(h1, h2) := h in
  let k1 := le64 (take 8 blk) in
  let k2 := le64 (drop 8 blk) in
  let h1 := Z.lxor h1 (mixk1 k1) in
  let h1 := wrap64 (rotl64 h1 27 + h2) in
  let h1 := wrap64 (h1 * 5 + 0x52dce729) in
  let h2 := Z.lxor h2 (mixk2 k2) in
  let h2 := wrap64 (rotl64 h2 31 + h1) in
  let h2 := wrap64 (h2 * 5 + 0x38495ab5) in
  (h1, h2).

Definition fmix64 (k : Z) : Z :=
  let k := Z.lxor k (Z.shiftr k 33) in
  let k := wrap64 (k * 0xff51afd7ed558ccd) in
  let k := Z.lxor k (Z.shiftr k 33) in
  let k := wrap64 (k * 0xc4ceb9fe1a85ec53) in
  Z.lxor k (Z.shiftr k 33).

(** Consumes the full blocks of [p]; returns the state and the tail. *)
Fixpoint blocks (fuel : nat) (h : Z * Z) (p : bytes) : (Z * Z) * bytes :=
  match fuel with
  | O => (h, p)
  | S n =>
      if (16 <=? length p)%nat
      then blocks n (bmix h (take 16 p)) (drop 16 p)
      else (h, p)
  end.

Definition Sum128 (data : bytes) : Z * Z :=
  let '((h1, h2), tail) := blocks (length data) (0, 0) data in
  let h2 := if (8 <? length tail)%nat
            then Z.lxor h2 (mixk2 (le64 (drop 8 tail))) else h2 in
  let h1 := if (0 <? length tail)%nat
            then Z.lxor h1 (mixk1 (le64 (take 8 tail))) else h1 in
  let len := Z.of_nat (length data) in
  let h1 := Z.lxor h1 len in
  let h2 := Z.lxor h2 len in
  let h1 := wrap64 (h1 + h2) in
  let h2 := wrap64 (h2 + h1) in
  let h1 := fmix64 h1 in
  let h2 := fmix64 h2 in
  let h1 := wrap64 (h1 + h2) in
  let h2 := wrap64 (h2 + h1) in
  (h1, h2).

(** Big-endian bytes of a 64-bit word. *)
Definition be64 (h : Z) : bytes :=
  map (fun i => match Byte.of_N (Z.to_N (Z.shiftr h (8 * i) mod 256)) with
                | Some b => b
                | None => Byte.x00
                end)
      [7; 6; 5; 4; 3; 2; 1; 0].

(** [New128()], [Write(data)], [Sum(nil)]: the sixteen digest bytes. *)
Definition Sum (data : bytes) : bytes :=
  let '(h1, h2) := Sum128 data in be64 h1 ++ be64 h2.

End murmur3.

(** [bytes.Equal] *)
Definition bytes_Equal (a b : bytes) : bool := bool_decide (a = b).

(** ** Errors and results *)

Inductive error : Type :=
| ErrNotExist (path : string)                (* os.ErrNotExist *)
| ErrExist (path : string)                   (* os.ErrExist *)
| ErrIsDir (path : string)                   (* EISDIR *)
| ErrCrossDevice (oldpath newpath : string)  (* EXDEV from rename(2) *)
| ErrFault (reason : string)                 (* any other failure the host reports *)
| ErrIllegalPath (path : string)             (* fmt.Errorf("illegal file path: %s", path) *)
| ErrNoArtifact.                             (* fmt.Errorf("no artifact found") *)

Inductive result (A : Type) : Type :=
| Ok (a : A)
| Err (e : error).
Arguments Ok {A} a.
Arguments Err {A} e.

(** [os.IsNotExist] *)
Definition os_IsNotExist (err : error) : bool :=
  match err with
  | ErrNotExist _ => true
  | _ => false
  end.

(** The text of [err.Error()], as the log prints it. *)
Definition Error (err : error) : string :=
  match err with
  | ErrNotExist p => p +:+ ": no such file or directory"
  | ErrExist p => p +:+ ": file exists"
  | ErrIsDir p => p +:+ ": is a directory"
  | ErrCrossDevice o n => "rename " +:+ o +:+ " " +:+ n +:+ ": invalid cross-device link"
  | ErrFault r => r
  | ErrIllegalPath p => "illegal file path: " +:+ p
  | ErrNoArtifact => "no artifact found"
  end.

(** ** Data model ([main.go], [struct.go]) *)

(** [time.Time] as an instant; the zero value is [0]. *)
Abbreviation Time := Z.

Module Secret.
Record t : Type := mk { Owner : string; Token : string }.
End Secret.

Module Job.
Record t : Type := mk {
  Owner : string;
  Repo : string;
  ArtifactName : string;
  Excludes : list string;
  DeployPath : string;
}.
End Job.

Module Artifact.
Record t : Type := mk {
  ID : Z;
  Name : string;
  SizeInBytes : Z;
  ArchiveDownloadURL : string;
  Expired : bool;
  CreatedAt : Time;
}.
End Artifact.

(** An entry of an opened archive ([archive/zip]'s [File]): its header and
    what reading it yields. The three error fields are the failures of
    [f.Open()], of copying the entry out and of closing its reader. *)
Module zip.
Record File : Type := mk {
  Name : string;
  IsDir : bool;
  content : bytes;
  open_err : option error;
  copy_err : option error;
  close_err : option error;
}.
End zip.

Definition tempDir : string := "tmp".
Definition artifactsDir : string := "artifacts".
Definition secretFile : string := "secret.json".
Definition jobFile : string := "job.json".
Definition logFile : string := "log.json".

(** ** The host: operating system, network and library codecs

    Every interaction with the host draws one [choice]: whether the call
    fails, and the values only the host decides. *)
Record choice : Type := mkChoice {
  fault : option string;   (* the call fails for this reason *)
  random : N;              (* the number drawn by [os.CreateTemp] *)
  written : nat;           (* bytes that reach the file before a failing write *)
  response : bytes;        (* body of an HTTP response *)
  turn : nat;              (* which runnable goroutine moves next *)
}.

Record Host : Type := mkHost {
  answer : nat -> choice;                      (* the choice drawn at each tick *)
  volume : string -> nat;                      (* the volume a path lives on *)
  regexp_t : Type;                             (* compiled expressions *)
  regexp_Compile : string -> regexp.ErrorCode + regexp_t;
  regexp_Match : regexp_t -> string -> bool;
  zip_NewReader : bytes -> result (list zip.File);
  decode_artifacts : bytes -> result (list Artifact.t);
  decode_secrets : bytes -> result (list Secret.t);
  decode_jobs : bytes -> result (list Job.t);
  decode_ledger : bytes -> result (gmap string Time);
  encode_ledger : gmap string Time -> bytes;
}.

(** ** Process state: the filesystem, the log and the package variables *)
Record World : Type := mkWorld {
  files : gmap string bytes;       (* regular files by path *)
  dirs : gset string;              (* directories *)
  logs : list string;              (* lines written by package [log] *)
  tick : nat;                      (* interactions with the host so far *)
  secretMap : gmap string string;
  jobs : list Job.t;
  lastUpdate : gmap string Time;   (* Owner.Repo.ArtifactName -> created_at *)
}.

Definition set_files (fs : gmap string bytes) (w : World) : World :=
  mkWorld fs (dirs w) (logs w) (tick w) (secretMap w) (jobs w) (lastUpdate w).
Definition set_dirs (ds : gset string) (w : World) : World :=
  mkWorld (files w) ds (logs w) (tick w) (secretMap w) (jobs w) (lastUpdate w).
Definition set_logs (ls : list string) (w : World) : World :=
  mkWorld (files w) (dirs w) ls (tick w) (secretMap w) (jobs w) (lastUpdate w).
Definition set_tick (t : nat) (w : World) : World :=
  mkWorld (files w) (dirs w) (logs w) t (secretMap w) (jobs w) (lastUpdate w).
Definition set_secretMap (m : gmap string string) (w : World) : World :=
  mkWorld (files w) (dirs w) (logs w) (tick w) m (jobs w) (lastUpdate w).
Definition set_jobs (js : list Job.t) (w : World) : World :=
  mkWorld (files w) (dirs w) (logs w) (tick w) (secretMap w) js (lastUpdate w).
Definition set_lastUpdate (m : gmap string Time) (w : World) : World :=
  mkWorld (files w) (dirs w) (logs w) (tick w) (secretMap w) (jobs w) m.

(** ** The monad of the main goroutine

    A computation transforms the world and either returns or ends the
    process ([log.Fatal] calls [os.Exit(1)]). *)
Inductive reply (A : Type) : Type :=
| Returned (a : A)
| Exited.
Arguments Returned {A} a.
Arguments Exited {A}.

Definition M (A : Type) : Type := World -> reply A * World.

Definition ret {A} (a : A) : M A := fun w => (Returned a, w).

Definition bind {A B} (m : M A) (k : A -> M B) : M B :=
  fun w => match m w with
           | (Returned a, w') => k a w'
           | (Exited, w') => (Exited, w')
           end.

Notation "x <- m ;; k" := (bind m (fun x => k))
  (at level 99, m at next level, right associativity).
Notation "m ;;; k" := (bind m (fun _ => k))
  (at level 99, right associativity).

(** [log.Printf] *)
Definition log_Printf (line : string) : M unit :=
  fun w => (Returned tt, set_logs (logs w ++ [line]) w).

(** [log.Fatal(err)] *)
Definition log_Fatal {A} (err : error) : M A :=
  fun w => (Exited, set_logs (logs w ++ [Error err]) w).

(** The pattern of [os.CreateTemp] up to its last [*] (default: all of it). *)
Fixpoint pattern_prefix (pattern : string) : string * bool :=
  match pattern with
  | EmptyString => ("", false)
  | String c rest =>
      let '(p, star) := pattern_prefix rest in
      if star then (String c p, true)
      else if Ascii.eqb c "*" then ("", true)
      else (String c p, false)
  end.

(** ... and after it. *)
Fixpoint pattern_suffix (pattern : string) : option string :=
  match pattern with
  | EmptyString => None
  | String c rest =>
      match pattern_suffix rest with
      | Some s => Some s
      | None => if Ascii.eqb c "*" then Some rest else None
      end
  end.

Definition temp_name (dir pattern : string) (n : N) : string :=
  dir +:+ "/" +:+ fst (pattern_prefix pattern) +:+ pretty n
      +:+ default "" (pattern_suffix pattern).

(** The directories [os.MkdirAll] makes sure exist: [path] and its parents. *)
Fixpoint parents_from (base : string) (elems : list string) : list string :=
  match elems with
  | [] => []
  | e :: rest => (base +:+ e) :: parents_from (base +:+ e +:+ "/") rest
  end.

Definition ancestors (path : string) : list string :=
  let p := filepath.Clean path in
  let elems := filter (fun e => e ≠ "" ∧ e ≠ ".") (split_slash p) in
  parents_from (if filepath.rooted p then "/" else "") elems.

(** A file opened for reading. *)
Inductive handle : Type :=
| HFile (path : string) (data : bytes)
| HDir (path : string).

Section Program.

Variable H : Host.

Definition gets {A} (f : World -> A) : M A := fun w => (Returned (f w), w).
Definition modify (f : World -> World) : M unit := fun w => (Returned tt, f w).

(** Draws the host's choice for the interaction that starts now. *)
Definition ask : M choice :=
  fun w => (Returned (answer H (tick w)), set_tick (S (tick w)) w).

(** *** System calls *)

(** [os.Open(path)] *)
Definition os_Open (path : string) : M (result handle) :=
  c <- ask ;;
  fs <- gets files ;;
  ds <- gets dirs ;;
  ret match fault c with
      | Some r => Err (ErrFault r)
      | None =>
          match fs !! path with
          | Some data => Ok (HFile path data)
          | None => if bool_decide (path ∈ ds) then Ok (HDir path)
                    else Err (ErrNotExist path)
          end
      end.

(** Reading an opened file to its end: [io.Copy(dst, f)], [Decode]. *)
Definition io_ReadAll (f : handle) : M (result bytes) :=
  c <- ask ;;
  ret match fault c with
      | Some r => Err (ErrFault r)
      | None =>
          match f with
          | HFile _ data => Ok data
          | HDir p => Err (ErrIsDir p)
          end
      end.

(** [os.Stat(path)] *)
Definition os_Stat (path : string) : M (result unit) :=
  c <- ask ;;
  fs <- gets files ;;
  ds <- gets dirs ;;
  ret match fault c with
      | Some r => Err (ErrFault r)
      | None =>
          if bool_decide (is_Some (fs !! path)) || bool_decide (path ∈ ds)
          then Ok tt else Err (ErrNotExist path)
      end.

(** [os.WriteFile(path, data, 0644)] *)
Definition os_WriteFile (path : string) (data : bytes) : M (result unit) :=
  c <- ask ;;
  match fault c with
  | Some r => ret (Err (ErrFault r))
  | None => modify (fun w => set_files (<[path := data]> (files w)) w) ;;; ret (Ok tt)
  end.

(** [os.MkdirAll(path, 0755)] *)
Definition os_MkdirAll (path : string) : M (result unit) :=
  c <- ask ;;
  fs <- gets files ;;
  match fault c with
  | Some r => ret (Err (ErrFault r))
  | None =>
      if existsb (fun a => bool_decide (is_Some (fs !! a))) (ancestors path)
      then ret (Err (ErrFault "not a directory"))
      else modify (fun w => set_dirs (dirs w ∪ list_to_set (ancestors path)) w) ;;;
           ret (Ok tt)
  end.

(** [os.CreateTemp(dir, pattern)]: a new empty file whose name did not
    exist; returns [t.Name()]. The number drawn is that of the last
    attempt: when even that name is taken, the call gives up with
    [ErrExist]. *)
Definition os_CreateTemp (dir pattern : string) : M (result string) :=
  c <- ask ;;
  fs <- gets files ;;
  ds <- gets dirs ;;
  match fault c with
  | Some r => ret (Err (ErrFault r))
  | None =>
      let name := temp_name dir pattern (random c) in
      if bool_decide (is_Some (fs !! name)) || bool_decide (name ∈ ds)
      then ret (Err (ErrExist name))
      else modify (fun w => set_files (<[name := []]> (files w)) w) ;;; ret (Ok name)
  end.

(** Writing [data] to the open file [name]: [io.Copy(t, b)], [Encode]. A
    failing write leaves the bytes that were written before the failure. *)
Definition file_Write (name : string) (data : bytes) : M (result unit) :=
  c <- ask ;;
  match fault c with
  | Some r =>
      modify (fun w => set_files (alter (fun _ => take (written c) data) name (files w)) w) ;;;
      ret (Err (ErrFault r))
  | None =>
      modify (fun w => set_files (alter (fun _ => data) name (files w)) w) ;;;
      ret (Ok tt)
  end.

(** [t.Close()] *)
Definition file_Close (name : string) : M (result unit) :=
  c <- ask ;;
  ret match fault c with
      | Some r => Err (ErrFault r)
      | None => Ok tt
      end.

(** [os.Rename(oldpath, newpath)]: replaces [newpath] in one step. *)
Definition os_Rename (oldpath newpath : string) : M (result unit) :=
  c <- ask ;;
  fs <- gets files ;;
  ds <- gets dirs ;;
  match fault c with
  | Some r => ret (Err (ErrFault r))
  | None =>
      match fs !! oldpath with
      | None => ret (Err (ErrNotExist oldpath))
      | Some data =>
          if bool_decide (newpath ∈ ds) then ret (Err (ErrExist newpath))
          else if bool_decide (volume H oldpath = volume H newpath)
          then modify (fun w => set_files (<[newpath := data]> (delete oldpath (files w))) w) ;;;
               ret (Ok tt)
          else ret (Err (ErrCrossDevice oldpath newpath))
      end
  end.

(** [http.NewRequest("GET", url, nil)] *)
Definition http_NewRequest (url : string) : M (result unit) :=
  c <- ask ;;
  ret match fault c with
      | Some r => Err (ErrFault r)
      | None => Ok tt
      end.

(** [client.Do(req)] with the bearer token; the body of the response. *)
Definition client_Do (url token : string) : M (result bytes) :=
  c <- ask ;;
  ret match fault c with
      | Some r => Err (ErrFault r)
      | None => Ok (response c)
      end.

(** [zip.OpenReader(filename)] *)
Definition zip_OpenReader (filename : string) : M (result (list zip.File)) :=
  c <- ask ;;
  fs <- gets files ;;
  ret match fault c with
      | Some r => Err (ErrFault r)
      | None =>
          match fs !! filename with
          | Some data => zip_NewReader H data
          | None => Err (ErrNotExist filename)
          end
      end.

(** [f.Open()] *)
Definition zip_File_Open (f : zip.File) : M (result unit) :=
  c <- ask ;;
  ret match fault c with
      | Some r => Err (ErrFault r)
      | None =>
          match zip.open_err f with
          | Some e => Err e
          | None => Ok tt
          end
      end.

(** [io.Copy(b, rc)] into a fresh buffer, then [rc.Close()] *)
Definition zip_File_read (f : zip.File) : result bytes :=
  match zip.copy_err f with
  | Some e => Err e
  | None =>
      match zip.close_err f with
      | Some e => Err e
      | None => Ok (zip.content f)
      end
  end.

(** *** Exclusion matcher *)

(** [regexp.MatchString(pattern, s)] *)
Definition regexp_MatchString (pattern s : string) : bool * option regexp.ErrorCode :=
  match regexp_Compile H pattern with
  | inl err => (false, Some err)
  | inr re => (regexp_Match H re s, None)
  end.

Fixpoint pathMatches (p : string) (excludes : list string) : bool :=
  match excludes with
  | [] => false
  | e :: rest =>
      let '(ok, _) := regexp_MatchString ("^" +:+ e +:+ "$") p in
      if ok then true else pathMatches p rest
  end.

(** *** Differential extractor *)

Definition hasDiff (b : bytes) (destFile : string) : M (result bool) :=
  let hashb := murmur3.Sum b in
  r <- os_Open destFile ;;
  match r with
  | Err err =>
      if os_IsNotExist err then ret (Ok true) else ret (Err err)
  | Ok f =>
      r <- io_ReadAll f ;;
      match r with
      | Err err => ret (Err err)
      | Ok data =>
          let hashf := murmur3.Sum data in
          ret (Ok (negb (bytes_Equal hashb hashf)))
      end
  end.

Definition extractDiff (f : zip.File) (dest : string) : M (result unit) :=
  r <- zip_File_Open f ;;
  match r with
  | Err err => ret (Err err)
  | Ok _ =>
  match zip_File_read f with
  | Err err => ret (Err err)
  | Ok b =>
  let path := filepath.Join [dest; zip.Name f] in
  if negb (strings_HasPrefix path (filepath.Clean dest +:+ filepath.Separator))
  then ret (Err (ErrIllegalPath path))
  else
  r <- hasDiff b path ;;
  match r with
  | Err err => ret (Err err)
  | Ok false => ret (Ok tt)
  | Ok true =>
  log_Printf ("[Info] Extracting: " +:+ zip.Name f) ;;;
  os_MkdirAll (filepath.Dir path) ;;;
  r <- os_CreateTemp tempDir "extract-*" ;;
  match r with
  | Err err => ret (Err err)
  | Ok t =>
  r <- file_Write t b ;;
  match r with
  | Err err => ret (Err err)
  | Ok _ =>
  r <- file_Close t ;;
  match r with
  | Err err => ret (Err err)
  | Ok _ =>
  r <- os_Rename t path ;;
  match r with
  | Err err => ret (Err err)
  | Ok _ => ret (Ok tt)
  end end end end end end end.

(** *** Archive synchroniser

    [unzipDiff] starts one goroutine per entry and waits for all of them.
    Each goroutine advances by one atomic action at a time: a system call,
    a log line, or the deferred [wg.Done()]. The closure of an iteration
    holds that iteration's own [f]. *)
Inductive wstate : Type :=
| WStart                               (* about to enter [extractDiff] *)
| WOpenDest (b : bytes)                (* [hasDiff]: about to [os.Open(destFile)] *)
| WReadDest (b : bytes) (h : handle)   (* [hasDiff]: about to hash the open file *)
| WLog (b : bytes)                     (* about to log "[Info] Extracting" *)
| WMkdir (b : bytes)                   (* about to [os.MkdirAll] *)
| WCreateTemp (b : bytes)              (* about to [os.CreateTemp] *)
| WWrite (b : bytes) (t : string)      (* about to [io.Copy(t, b)] *)
| WClose (b : bytes) (t : string)      (* about to [t.Close()] *)
| WRename (b : bytes) (t : string)     (* about to [os.Rename(t.Name(), path)] *)
| WReport (err : error)                (* [extractDiff] returned [err]; about to log it *)
| WDefer (r : result unit)             (* about to run the deferred [wg.Done()] *)
| WGone (r : result unit).             (* finished; [r] is what [extractDiff] returned *)

Definition wstep (f : zip.File) (dest : string) (s : wstate) : M wstate :=
  let path := filepath.Join [dest; zip.Name f] in
  match s with
  | WStart =>
      r <- zip_File_Open f ;;
      ret match r with
          | Err err => WReport err
          | Ok _ =>
              match zip_File_read f with
              | Err err => WReport err
              | Ok b =>
                  if negb (strings_HasPrefix path
                             (filepath.Clean dest +:+ filepath.Separator))
                  then WReport (ErrIllegalPath path)
                  else WOpenDest b
              end
          end
  | WOpenDest b =>
      r <- os_Open path ;;
      ret match r with
          | Err err => if os_IsNotExist err then WLog b else WReport err
          | Ok h => WReadDest b h
          end
  | WReadDest b h =>
      r <- io_ReadAll h ;;
      ret match r with
          | Err err => WReport err
          | Ok data =>
              if negb (bytes_Equal (murmur3.Sum b) (murmur3.Sum data))
              then WLog b else WDefer (Ok tt)
          end
  | WLog b =>
      log_Printf ("[Info] Extracting: " +:+ zip.Name f) ;;; ret (WMkdir b)
  | WMkdir b =>
      os_MkdirAll (filepath.Dir path) ;;; ret (WCreateTemp b)
  | WCreateTemp b =>
      r <- os_CreateTemp tempDir "extract-*" ;;
      ret match r with
          | Err err => WReport err
          | Ok t => WWrite b t
          end
  | WWrite b t =>
      r <- file_Write t b ;;
      ret match r with
          | Err err => WReport err
          | Ok _ => WClose b t
          end
  | WClose b t =>
      r <- file_Close t ;;
      ret match r with
          | Err err => WReport err
          | Ok _ => WRename b t
          end
  | WRename b t =>
      r <- os_Rename t path ;;
      ret match r with
          | Err err => WReport err
          | Ok _ => WDefer (Ok tt)
          end
  | WReport err =>
      log_Printf ("[Error] Extract " +:+ zip.Name f +:+ ": " +:+ Error err) ;;;
      ret (WDefer (Err err))
  | WDefer r => ret (WGone r)
  | WGone r => ret (WGone r)
  end.

(** The calling goroutine: the [range] loop, then [wg.Wait()], then return. *)
Inductive mstate : Type :=
| MLoop (rest : list zip.File)
| MWait
| MRet.

Record config : Type := mkConfig {
  c_main : mstate;
  c_wg : nat;                              (* the WaitGroup counter *)
  c_workers : list (zip.File * wstate);    (* goroutines started so far *)
}.

Definition wgone (s : wstate) : bool :=
  match s with
  | WGone _ => true
  | _ => false
  end.

Definition main_runnable (c : config) : bool :=
  match c_main c with
  | MLoop _ => true
  | MWait => c_wg c =? 0
  | MRet => false
  end.

(** Thread [0] is the caller, thread [S i] the [i]-th goroutine started. *)
Fixpoint runnable_workers (i : nat) (ws : list (zip.File * wstate)) : list nat :=
  match ws with
  | [] => []
  | (_, s) :: rest =>
      if wgone s then runnable_workers (S i) rest
      else S i :: runnable_workers (S i) rest
  end.

Definition runnable (c : config) : list nat :=
  (if main_runnable c then [0] else []) ++ runnable_workers 0 (c_workers c).

Definition main_step (dest : string) (excludes : list string) (c : config) : config :=
  match c_main c with
  | MLoop [] => mkConfig MWait (c_wg c) (c_workers c)
  | MLoop (f :: rest) =>
      if zip.IsDir f then mkConfig (MLoop rest) (c_wg c) (c_workers c)
      else if pathMatches (zip.Name f) excludes
      then mkConfig (MLoop rest) (c_wg c) (c_workers c)
      else mkConfig (MLoop rest) (S (c_wg c)) (c_workers c ++ [(f, WStart)])
  | MWait => if c_wg c =? 0 then mkConfig MRet (c_wg c) (c_workers c) else c
  | MRet => c
  end.

Definition worker_step (dest : string) (i : nat) (c : config) : M config :=
  match c_workers c !! i with
  | None => ret c
  | Some (f, s) =>
      s' <- wstep f dest s ;;
      ret (mkConfig (c_main c)
             (match s with WDefer _ => pred (c_wg c) | _ => c_wg c end)
             (<[i := (f, s')]> (c_workers c)))
  end.

Definition thread_step (dest : string) (excludes : list string) (tid : nat)
  (c : config) : M config :=
  match tid with
  | O => ret (main_step dest excludes c)
  | S i => worker_step dest i c
  end.

(** One scheduling decision: the host picks a runnable thread. *)
Definition sched_step (dest : string) (excludes : list string) (c : config) : M config :=
  ch <- ask ;;
  match runnable c !! (turn ch mod length (runnable c)) with
  | Some tid => thread_step dest excludes tid c
  | None => ret c
  end.

Fixpoint run_sched (fuel : nat) (dest : string) (excludes : list string)
  (c : config) : M config :=
  match fuel with
  | O => ret c
  | S n =>
      match runnable c with
      | [] => ret c
      | _ => c' <- sched_step dest excludes c ;; run_sched n dest excludes c'
      end
  end.

(** Enough scheduling decisions for the loop, the wait and every goroutine. *)
Definition fan_out_fuel (entries : list zip.File) : nat := 2 + 12 * length entries.

(** From the first iteration of the loop to the return of [wg.Wait()]. *)
Definition fan_out (entries : list zip.File) (dest : string) (excludes : list string)
  : M config :=
  run_sched (fan_out_fuel entries) dest excludes (mkConfig (MLoop entries) 0 []).

Definition unzipDiff (filename dest : string) (excludes : list string) : M (result unit) :=
  r <- zip_OpenReader filename ;;
  match r with
  | Err err => ret (Err err)
  | Ok entries =>
      fan_out entries dest excludes ;;;
      ret (Ok tt)
  end.

(** *** Update ledger *)

Definition loadJSON {A} (decode : bytes -> result A) (filename : string) : M (result A) :=
  r <- os_Open filename ;;
  match r with
  | Err err => ret (Err err)
  | Ok file =>
      r <- io_ReadAll file ;;
      match r with
      | Err err => ret (Err err)
      | Ok data => ret (decode data)
      end
  end.

Definition saveJSON (filename : string) (v : gmap string Time) : M (result unit) :=
  r <- os_CreateTemp tempDir "tmp-*" ;;
  match r with
  | Err err => ret (Err err)
  | Ok file =>
      r <- file_Write file (encode_ledger H v) ;;
      match r with
      | Err err => ret (Err err)
      | Ok _ =>
          file_Close file ;;;
          os_Rename file filename
      end
  end.

Definition markUpdate (key : string) (t : Time) : M unit :=
  modify (fun w => set_lastUpdate (<[key := t]> (lastUpdate w)) w) ;;;
  v <- gets lastUpdate ;;
  r <- saveJSON logFile v ;;
  match r with
  | Err err => log_Fatal err
  | Ok _ => ret tt
  end.

(** *** Polling *)

(** Newest first; elements with equal timestamps keep their order. *)
Fixpoint insert_newest (a : Artifact.t) (l : list Artifact.t) : list Artifact.t :=
  match l with
  | [] => [a]
  | x :: rest =>
      if (Artifact.CreatedAt x <? Artifact.CreatedAt a)%Z then a :: l
      else x :: insert_newest a rest
  end.

Definition sort_newest (l : list Artifact.t) : list Artifact.t :=
  foldr insert_newest [] l.

Definition getLatestArtifact (j : Job.t) : M (result Artifact.t) :=
  let url := "https://api.github.com/repos/" +:+ Job.Owner j +:+ "/" +:+ Job.Repo j
             +:+ "/actions/artifacts" in
  r <- http_NewRequest url ;;
  match r with
  | Err err => ret (Err err)
  | Ok _ =>
      sm <- gets secretMap ;;
      r <- client_Do url ("Bearer " +:+ default "" (sm !! Job.Owner j)) ;;
      match r with
      | Err err => ret (Err err)
      | Ok body =>
          match decode_artifacts H body with
          | Err err => ret (Err err)
          | Ok artifacts =>
              match find (fun a => String.eqb (Artifact.Name a) (Job.ArtifactName j))
                         (sort_newest artifacts) with
              | Some a => ret (Ok a)
              | None => ret (Err ErrNoArtifact)
              end
          end
      end
  end.

Definition downloadArtifact (owner : string) (a : Artifact.t) (filename : string)
  : M (result unit) :=
  let url := Artifact.ArchiveDownloadURL a in
  r <- http_NewRequest url ;;
  match r with
  | Err err => ret (Err err)
  | Ok _ =>
      sm <- gets secretMap ;;
      r <- client_Do url ("Bearer " +:+ default "" (sm !! owner)) ;;
      match r with
      | Err err => ret (Err err)
      | Ok body =>
          r <- os_CreateTemp tempDir "artifact-tmp-*" ;;
          match r with
          | Err err => ret (Err err)
          | Ok file =>
              r <- file_Write file body ;;
              match r with
              | Err err => ret (Err err)
              | Ok _ =>
                  file_Close file ;;;
                  os_Rename file (filepath.Join [artifactsDir; filename +:+ ".zip"])
              end
          end
      end
  end.

Definition job_key (j : Job.t) : string :=
  Job.Owner j +:+ "." +:+ Job.Repo j +:+ "." +:+ Job.ArtifactName j.

Definition runJob (j : Job.t) : M unit :=
  let key := job_key j in
  log_Printf ("[Info] Running job: " +:+ key) ;;;
  r <- getLatestArtifact j ;;
  match r with
  | Err err => log_Printf ("[Error] Job " +:+ key +:+ ": " +:+ Error err)
  | Ok artifact =>
      lu <- gets lastUpdate ;;
      if (Artifact.CreatedAt artifact =? default 0%Z (lu !! key))%Z then ret tt
      else
        markUpdate key (Artifact.CreatedAt artifact) ;;;
        r <- downloadArtifact (Job.Owner j) artifact key ;;
        match r with
        | Err err => log_Printf ("[Error] Job " +:+ key +:+ ": " +:+ Error err)
        | Ok _ =>
            r <- unzipDiff (filepath.Join [artifactsDir; key +:+ ".zip"])
                           (Job.DeployPath j) (Job.Excludes j) ;;
            match r with
            | Err err => log_Printf ("[Error] Job " +:+ key +:+ ": " +:+ Error err)
            | Ok _ => ret tt
            end
        end
  end.

Fixpoint runJobs_over (js : list Job.t) : M unit :=
  match js with
  | [] => ret tt
  | j :: rest => runJob j ;;; runJobs_over rest
  end.

Definition runJobs : M unit :=
  js <- gets jobs ;;
  runJobs_over js.

(** [main]: the first [n] rounds of the polling loop ([time.Sleep] changes
    nothing that is modelled). *)
Fixpoint main_rounds (n : nat) : M unit :=
  match n with
  | O => ret tt
  | S k => runJobs ;;; main_rounds k
  end.

(** *** Start-up: the package initialiser *)
Definition init : M unit :=
  r <- loadJSON (decode_secrets H) secretFile ;;
  match r with
  | Err err => log_Fatal err
  | Ok secrets =>
  modify (set_secretMap
            (foldl (fun m s => <[Secret.Owner s := Secret.Token s]> m) ∅ secrets)) ;;;
  r <- loadJSON (decode_jobs H) jobFile ;;
  match r with
  | Err err => log_Fatal err
  | Ok js =>
  modify (set_jobs js) ;;;
  modify (set_lastUpdate ∅) ;;;
  r <- os_Stat logFile ;;
  (match r with
   | Err err =>
       if os_IsNotExist err then
         r <- os_WriteFile logFile (bytes_of "{}") ;;
         match r with
         | Err err => log_Fatal err
         | Ok _ => ret tt
         end
       else ret tt
   | Ok _ => ret tt
   end) ;;;
  r <- loadJSON (decode_ledger H) logFile ;;
  match r with
  | Err err => log_Fatal err
  | Ok ledger =>
  modify (set_lastUpdate ledger) ;;;
  r <- os_MkdirAll tempDir ;;
  match r with
  | Err err => log_Fatal err
  | Ok _ =>
  r <- os_MkdirAll artifactsDir ;;
  match r with
  | Err err => log_Fatal err
  | Ok _ => ret tt
  end end end end end.

End Program.

(** ** Comparing worlds *)

(** Nothing but the count of host interactions differs. *)
Definition unchanged (w w' : World) : Prop :=
  files w' = files w ∧ dirs w' = dirs w ∧ logs w' = logs w ∧
  secretMap w' = secretMap w ∧ jobs w' = jobs w ∧ lastUpdate w' = lastUpdate w.

(** The filesystem is the same. *)
Definition same_fs (w w' : World) : Prop :=
  files w' = files w ∧ dirs w' = dirs w.

(** The package variables are the same. *)
Definition same_vars (w w' : World) : Prop :=
  secretMap w' = secretMap w ∧ jobs w' = jobs w ∧ lastUpdate w' = lastUpdate w.

(** A computation that relates the world before to the world after. *)
Definition keeps {A} (R : World -> World -> Prop) (m : M A) : Prop :=
  ∀ w, R w (snd (m w)).

(** ** Concrete hosts and worlds for the examples *)

(** A host built on the RE2 fragment above; its codecs decode nothing. *)
Definition re2_host (ans : nat -> choice) (vol : string -> nat)
  (unzip : bytes -> result (list zip.File))
  (listing : bytes -> result (list Artifact.t)) : Host :=
  mkHost ans vol regexp.Regexp regexp.Parse regexp.MatchRe unzip listing
    (fun _ => Ok []) (fun _ => Ok []) (fun _ => Ok ∅) (fun _ => bytes_of "{}").

(** The host whose calls all succeed; the [t]-th call draws the number [t]
    and schedules the thread number [t]. *)
Definition calm_answer (t : nat) : choice := mkChoice None (N.of_nat t) 0 [] t.

Definition calm_host : Host :=
  re2_host calm_answer (fun _ => 0) (fun _ => Ok []) (fun _ => Ok []).

Definition empty_world : World := mkWorld ∅ ∅ [] 0 ∅ [] ∅.

(** The entry of an archive that holds [data] under [name]. *)
Definition entry (name : string) (data : string) : zip.File :=
  zip.mk name false (bytes_of data) None None None.

(** The reading of an exclusion pattern that the specification words: the
    pattern, compiled on its own, matches the entire path. [None] when the
    pattern does not compile. *)
Definition matches_whole_path (pattern path : string) : option bool :=
  match regexp.Parse pattern with
  | inr r => Some (regexp.MatchWhole r path)
  | inl _ => None
  end.

(** The entry can be read: neither the host nor the archive fails
    [f.Open()], the copy or the close. *)
Definition readable (H : Host) (f : zip.File) (w : World) : Prop :=
  fault (answer H (tick w)) = None ∧ zip.open_err f = None ∧
  zip.copy_err f = None ∧ zip.close_err f = None.


Definition Written (path : string) (b : bytes) (out : reply (result unit) * World) : Prop :=
  fst out = Returned (Ok tt) ∧ files (snd out) !! path = Some b.


(** A path element that names something: not empty, not [.], not [..]. *)
Definition proper_elem (e : string) : Prop := e ≠ "" ∧ e ≠ "." ∧ e ≠ "..".

(** ** Measures and invariants of the fan-out *)

(** Atomic actions a goroutine still has to take, at most. *)
Definition wweight (s : wstate) : nat :=
  match s with
  | WStart => 11
  | WOpenDest _ => 10
  | WReadDest _ _ => 9
  | WLog _ => 8
  | WMkdir _ => 7
  | WCreateTemp _ => 6
  | WWrite _ _ => 5
  | WClose _ _ => 4
  | WRename _ _ => 3
  | WReport _ => 2
  | WDefer _ => 1
  | WGone _ => 0
  end.

Definition mweight (m : mstate) : nat :=
  match m with
  | MLoop rest => 2 + 12 * length rest
  | MWait => 1
  | MRet => 0
  end.

Definition cweight (c : config) : nat :=
  mweight (c_main c) + sum_list_with (fun p => wweight p.2) (c_workers c).

(** The entries the loop starts a goroutine for. *)
Definition kept (H : Host) (excludes : list string) (f : zip.File) : bool :=
  negb (zip.IsDir f) && negb (pathMatches H (zip.Name f) excludes).

(** The entries the loop has not reached yet. *)
Definition pending (c : config) : list zip.File :=
  match c_main c with
  | MLoop rest => rest
  | _ => []
  end.

(** Goroutines that have not run their [wg.Done()] yet. *)
Definition alive (ws : list (zip.File * wstate)) : nat :=
  length (filter (fun p => wgone p.2 = false) ws).

(** The WaitGroup counts the live goroutines, the goroutines started are
    the kept entries passed so far, and the caller is past [wg.Wait()]
    only when every goroutine is gone. *)
Definition fan_inv (H : Host) (entries : list zip.File) (excludes : list string)
  (c : config) : Prop :=
  c_wg c = alive (c_workers c)
  ∧ map fst (c_workers c) ++ filter (fun f => kept H excludes f = true) (pending c)
    = filter (fun f => kept H excludes f = true) entries
  ∧ (c_main c = MRet -> Forall (fun p => wgone p.2 = true) (c_workers c)).

(** The configuration after [n] scheduling decisions. *)
Definition after (H : Host) (n : nat) (entries : list zip.File) (dest : string)
  (excludes : list string) : M config :=
  run_sched H n dest excludes (mkConfig (MLoop entries) 0 []).

(** The configuration once goroutine [i], in state [s], has reached [s']. *)
Definition moved (c : config) (i : nat) (f : zip.File) (s s' : wstate) : config :=
  mkConfig (c_main c)
    (match s with WDefer _ => pred (c_wg c) | _ => c_wg c end)
    (<[i := (f, s')]> (c_workers c)).


Definition is_report (line : string) : bool := String.prefix "[Error] Extract " line.



(** An archive with a hostile entry between two ordinary ones. *)
Definition mixed_archive : list zip.File :=
  [entry "a.txt" "X"; entry "../../etc/passwd" "root::0:0:"; entry "b/c.txt" "Y"].

(** The error reports among the lines of a log. *)
Definition report_lines (ls : list string) : list string :=
  filter (fun l => is_report l = true) ls.

(** A host that reads every archive as [entries]. *)
Definition archive_host (entries : list zip.File) : Host :=
  re2_host calm_answer (fun _ => 0) (fun _ => Ok entries) (fun _ => Ok []).

(** [file] is missing, or is there and does not decode. *)
Definition cannot_load {A} (decode : bytes -> result A) (file : string) (w : World) : Prop :=
  match files w !! file with
  | None => True
  | Some data => ∃ err, decode data = Err err
  end.

(** The ledger file does not decode; a missing one is created as [{}]. *)
Definition ledger_unreadable (H : Host) (w : World) : Prop :=
  ∃ err, decode_ledger H (default (bytes_of "{}") (files w !! logFile)) = Err err.

(** A job and a listing with one artifact of that job's name. *)
Definition demo_job : Job.t := Job.mk "o" "r" "dist" [] "/srv/www".

Definition demo_artifact : Artifact.t :=
  Artifact.mk 1 "dist" 2 "https://example.invalid/dist.zip" false 5.

(** A host on which the eighth call, the download request of the first
    cycle, fails. *)
Definition flaky_download_host : Host :=
  re2_host
    (fun t => if t =? 7 then mkChoice (Some "connection reset") 0 0 [] 0
              else calm_answer t)
    (fun _ => 0) (fun _ => Ok []) (fun _ => Ok [demo_artifact]).

(** A host on which the scratch directory and the ledger file live on
    different volumes. *)
Definition split_volume_host : Host :=
  re2_host calm_answer
    (fun p => if String.prefix "tmp/" p then 1 else 0)
    (fun _ => Ok []) (fun _ => Ok [demo_artifact]).

(** The part of [runJob] that follows [markUpdate]: download, then
    synchronise. *)
Definition after_mark (H : Host) (j : Job.t) (artifact : Artifact.t) : M unit :=
  r <- downloadArtifact H (Job.Owner j) artifact (job_key j) ;;
  match r with
  | Err err => log_Printf ("[Error] Job " +:+ job_key j +:+ ": " +:+ Error err)
  | Ok _ =>
      r <- unzipDiff H (filepath.Join [artifactsDir; job_key j +:+ ".zip"])
             (Job.DeployPath j) (Job.Excludes j) ;;
      match r with
      | Err err => log_Printf ("[Error] Job " +:+ job_key j +:+ ": " +:+ Error err)
      | Ok _ => ret tt
      end
  end.

(** ** The goroutine of one entry as a transition system on files *)

(** Where [extractDiff] puts the entry [f]. *)
Definition path_of (dest : string) (f : zip.File) : string :=
  filepath.Join [dest; zip.Name f].

(** The check of [extractDiff] against directory traversal. *)
Definition inside (dest : string) (f : zip.File) : bool :=
  strings_HasPrefix (path_of dest f) (filepath.Clean dest +:+ filepath.Separator).

(** The archive lets [f] be read and its path passes the check. *)
Definition extractable (dest : string) (f : zip.File) : Prop :=
  zip.open_err f = None ∧ zip.copy_err f = None ∧ zip.close_err f = None
  ∧ inside dest f = true.

(** The names [os.CreateTemp(tempDir, "extract-*")] can return. *)
Definition is_scratch (t : string) : Prop :=
  ∃ k : N, t = temp_name tempDir "extract-*" k.

(** The file at [path] has the fingerprint of [b]. *)
Definition synced (fs : gmap string bytes) (path : string) (b : bytes) : Prop :=
  ∃ c, fs !! path = Some c ∧ murmur3.Sum c = murmur3.Sum b.

(** The scratch file a goroutine holds open. *)
Definition temp_of (s : wstate) : option string :=
  match s with
  | WWrite _ t => Some t
  | WClose _ t => Some t
  | WRename _ t => Some t
  | _ => None
  end.

Definition temps (ws : list (zip.File * wstate)) : list string :=
  omap (fun p => temp_of p.2) ws.

(** One atomic action of the goroutine of [f], as it acts on the files:
    whatever the host answers, [wstep] takes one of these transitions. *)
Inductive wtrans (dest : string) (f : zip.File) :
  wstate -> gmap string bytes -> wstate -> gmap string bytes -> Prop :=
| T_start_fail fs err :
    wtrans dest f WStart fs (WReport err) fs
| T_start fs :
    extractable dest f ->
    wtrans dest f WStart fs (WOpenDest (zip.content f)) fs
| T_open_fail fs b err :
    wtrans dest f (WOpenDest b) fs (WReport err) fs
| T_open_missing fs b :
    fs !! path_of dest f = None ->
    wtrans dest f (WOpenDest b) fs (WLog b) fs
| T_open_file fs b c :
    fs !! path_of dest f = Some c ->
    wtrans dest f (WOpenDest b) fs (WReadDest b (HFile (path_of dest f) c)) fs
| T_open_dir fs b :
    fs !! path_of dest f = None ->
    wtrans dest f (WOpenDest b) fs (WReadDest b (HDir (path_of dest f))) fs
| T_read_fail fs b h err :
    wtrans dest f (WReadDest b h) fs (WReport err) fs
| T_read_same fs b q c :
    murmur3.Sum b = murmur3.Sum c ->
    wtrans dest f (WReadDest b (HFile q c)) fs (WDefer (Ok tt)) fs
| T_read_differs fs b q c :
    murmur3.Sum b ≠ murmur3.Sum c ->
    wtrans dest f (WReadDest b (HFile q c)) fs (WLog b) fs
| T_log fs b :
    wtrans dest f (WLog b) fs (WMkdir b) fs
| T_mkdir fs b :
    wtrans dest f (WMkdir b) fs (WCreateTemp b) fs
| T_temp_fail fs b err :
    wtrans dest f (WCreateTemp b) fs (WReport err) fs
| T_temp fs b t :
    is_scratch t -> fs !! t = None ->
    wtrans dest f (WCreateTemp b) fs (WWrite b t) (<[t := []]> fs)
| T_write fs b t :
    wtrans dest f (WWrite b t) fs (WClose b t) (alter (fun _ => b) t fs)
| T_write_fail fs b t n err :
    wtrans dest f (WWrite b t) fs (WReport err) (alter (fun _ => take n b) t fs)
| T_close fs b t :
    wtrans dest f (WClose b t) fs (WRename b t) fs
| T_close_fail fs b t err :
    wtrans dest f (WClose b t) fs (WReport err) fs
| T_rename fs b t c :
    fs !! t = Some c ->
    wtrans dest f (WRename b t) fs (WDefer (Ok tt)) (<[path_of dest f := c]> (delete t fs))
| T_rename_fail fs b t err :
    wtrans dest f (WRename b t) fs (WReport err) fs
| T_report fs err :
    wtrans dest f (WReport err) fs (WDefer (Err err)) fs
| T_done fs r :
    wtrans dest f (WDefer r) fs (WGone r) fs.

(** What a goroutine knows about the files, given the files [fs0] the
    fan-out started from: until its rename the destination is as it was;
    an open scratch file exists, and holds the whole entry once written;
    after a nil return the destination carries the entry's fingerprint. *)
Definition winv (dest : string) (fs0 fs : gmap string bytes)
  (p : zip.File * wstate) : Prop :=
  let path := path_of dest p.1 in
  let b := zip.content p.1 in
  let entered b' := b' = b ∧ extractable dest p.1 ∧ fs !! path = fs0 !! path in
  let done := extractable dest p.1 ∧ synced fs path b
              ∧ (fs !! path = fs0 !! path ∨ fs !! path = Some b) in
  match p.2 with
  | WStart => fs !! path = fs0 !! path
  | WOpenDest b' => entered b'
  | WReadDest b' h =>
      entered b'
      ∧ match h with
        | HFile _ c => fs !! path = Some c
        | HDir _ => True
        end
  | WLog b' => entered b'
  | WMkdir b' => entered b'
  | WCreateTemp b' => entered b'
  | WWrite b' t => entered b' ∧ is_scratch t ∧ is_Some (fs !! t)
  | WClose b' t => entered b' ∧ is_scratch t ∧ fs !! t = Some b
  | WRename b' t => entered b' ∧ is_scratch t ∧ fs !! t = Some b
  | WReport _ => fs !! path = fs0 !! path
  | WDefer (Err _) => fs !! path = fs0 !! path
  | WGone (Err _) => fs !! path = fs0 !! path
  | WDefer (Ok _) => done
  | WGone (Ok _) => done
  end.

(** The invariant of the fan-out on the files, when the kept entries go to
    pairwise distinct paths: open scratch files are pairwise distinct,
    every goroutine's knowledge holds, and the destinations of the entries
    not yet reached are untouched. *)
Definition files_inv (H : Host) (dest : string) (excludes : list string)
  (fs0 : gmap string bytes) (c : config) (w : World) : Prop :=
  NoDup (temps (c_workers c))
  ∧ Forall (winv dest fs0 (files w)) (c_workers c)
  ∧ Forall (fun f => files w !! path_of dest f = fs0 !! path_of dest f)
           (filter (fun f => kept H excludes f = true) (pending c)).

(** The kept entries go to pairwise distinct paths, none of which is a
    name of the scratch directory. *)
Definition distinct_targets (H : Host) (dest : string) (excludes : list string)
  (entries : list zip.File) : Prop :=
  NoDup (map (path_of dest) (filter (fun f => kept H excludes f = true) entries))
  ∧ Forall (fun f => ¬ is_scratch (path_of dest f))
           (filter (fun f => kept H excludes f = true) entries).

(** The body of the goroutine that [unzipDiff] starts for [f], without its
    deferred [wg.Done()]. *)
Definition goroutine (H : Host) (f : zip.File) (dest : string) : M (result unit) :=
  r <- extractDiff H f dest ;;
  match r with
  | Err err =>
      log_Printf ("[Error] Extract " +:+ zip.Name f +:+ ": " +:+ Error err) ;;;
      ret (Err err)
  | Ok _ => ret (Ok tt)
  end.

(** [n] atomic actions of one goroutine with no other thread around. *)
Fixpoint solo (H : Host) (f : zip.File) (dest : string) (n : nat) (s : wstate)
  : M wstate :=
  match n with
  | O => ret s
  | S k => s' <- wstep H f dest s ;; solo H f dest k s'
  end.

(** Two entries of an archive and the world they are deployed into. *)
Definition two_entries : list zip.File := [entry "a.txt" "X"; entry "b/c.txt" "Y"].

Definition stale_world : World :=
  set_files {[ "/srv/www/a.txt" := bytes_of "old" ]} empty_world.

(** The entry [f] is in place: it can be read and extracted, and its
    destination carries its fingerprint. *)
Definition settled (dest : string) (fs : gmap string bytes) (f : zip.File) : Prop :=
  extractable dest f ∧ synced fs (path_of dest f) (zip.content f).

(** The states a goroutine can be in when its entry is in place: it never
    gets past the comparison of the fingerprints. *)
Definition qstate (dest : string) (fs : gmap string bytes)
  (p : zip.File * wstate) : Prop :=
  match p.2 with
  | WStart => True
  | WOpenDest b => b = zip.content p.1
  | WReadDest b h =>
      b = zip.content p.1
      ∧ ∃ c, h = HFile (path_of dest p.1) c ∧ fs !! path_of dest p.1 = Some c
  | WReport _ => True
  | WDefer _ => True
  | WGone _ => True
  | _ => False
  end.

(** ... and when, moreover, no call fails. *)
Definition cstate (p : zip.File * wstate) : Prop :=
  match p.2 with
  | WStart => True
  | WOpenDest _ => True
  | WReadDest _ _ => True
  | WDefer (Ok _) => True
  | WGone (Ok _) => True
  | _ => False
  end.

(** The configuration a fan-out ends in. *)
Definition final_config (out : reply config * World) : config :=
  match fst out with
  | Returned c => c
  | Exited => mkConfig MRet 0 []
  end.

(** An archive that holds the same name twice. *)
Definition twice_archive : list zip.File := [entry "a.txt" "X"; entry "a.txt" "Y"].
(** ** Further notions: listings, whole-file replacement, start-up,
    containment of the fan-out, keys, patterns and polling rounds *)

(** [a] carries the name the job asks for. *)
Definition named (j : Job.t) (a : Artifact.t) : Prop :=
  Artifact.Name a = Job.ArtifactName j.

(** The body of the response to a request sent from [w]: [http.NewRequest]
    is the first interaction from there, [client.Do] the second. *)
Definition response_body (H : Host) (w : World) : bytes :=
  response (answer H (S (tick w))).

(** Both calls of a request, [http.NewRequest] and [client.Do], succeed. *)
Definition request_succeeds (H : Host) (w : World) : Prop :=
  fault (answer H (tick w)) = None ∧ fault (answer H (S (tick w))) = None.

(** The names [os.CreateTemp(tempDir, pattern)] can return. *)
Definition is_temp (pattern t : string) : Prop :=
  ∃ k : N, t = temp_name tempDir pattern k.

(** Every file other than the scratch files of [pattern] is as it was. *)
Definition same_but_temp (pattern : string) (w w' : World) : Prop :=
  ∀ p, ¬ is_temp pattern p -> files w' !! p = files w !! p.

(** The way [saveJSON] and [downloadArtifact] write a file: into a fresh
    scratch file of [tempDir], which is closed (the error of [Close] is
    dropped) and renamed onto [target]. *)
Definition through_temp (H : Host) (pattern : string) (data : bytes) (target : string)
  : M (result unit) :=
  r <- os_CreateTemp H tempDir pattern ;;
  match r with
  | Err err => ret (Err err)
  | Ok file =>
      r <- file_Write H file data ;;
      match r with
      | Err err => ret (Err err)
      | Ok _ =>
          file_Close H file ;;;
          os_Rename H file target
      end
  end.

(** The target is replaced as a whole, or every file but the scratch files
    is as it was; no directory is made and nothing is logged. *)
Definition all_or_nothing (pattern target : string) (data : bytes) (w : World)
  (out : reply (result unit) * World) : Prop :=
  match fst out with
  | Returned (Ok _) => files (snd out) = <[target := data]> (files w)
  | Returned (Err _) => same_but_temp pattern w (snd out)
  | Exited => False
  end
  ∧ dirs (snd out) = dirs w ∧ logs (snd out) = logs w.

(** The token of the last secret that names [owner]. *)
Definition token_of (secrets : list Secret.t) (owner : string) : option string :=
  Secret.Token <$> last (filter (fun s => Secret.Owner s = owner) secrets).

(** [file] holds data that decodes to [a]. *)
Definition holds {A} (decode : bytes -> result A) (fs : gmap string bytes)
  (file : string) (a : A) : Prop :=
  ∃ data, fs !! file = Some data ∧ decode data = Ok a.

(** The process starts again on the same files: the package variables are
    back to their zero values. *)
Definition restarted (w : World) : World :=
  set_secretMap ∅ (set_jobs [] (set_lastUpdate ∅ w)).

(** [p] is neither under the destination root nor a scratch name. *)
Definition outside (dest p : string) : Prop :=
  strings_HasPrefix p (filepath.Clean dest +:+ filepath.Separator) = false
  ∧ ¬ is_scratch p.

(** From [w] to [w'] no file and no directory has disappeared, and the
    files outside the destination and the scratch names are as they were. *)
Definition contained (dest : string) (w w' : World) : Prop :=
  (∀ p, is_Some (files w !! p) -> is_Some (files w' !! p))
  ∧ dirs w ⊆ dirs w'
  ∧ (∀ p, outside dest p -> files w' !! p = files w !! p).

(** A goroutine past the traversal check has an entry that passed it, and
    the scratch file it holds is a scratch name that was not a file when
    the fan-out started from [fs0]. *)
Definition wsafe (dest : string) (fs0 : gmap string bytes) (p : zip.File * wstate) : Prop :=
  match p.2 with
  | WStart | WReport _ | WDefer _ | WGone _ => True
  | _ => inside dest p.1 = true
  end
  ∧ ∀ t, temp_of p.2 = Some t -> is_scratch t ∧ fs0 !! t = None.

(** Does [c] occur in [s]? *)
Fixpoint has_char (c : ascii) (s : string) : bool :=
  match s with
  | EmptyString => false
  | String d rest => Ascii.eqb d c || has_char c rest
  end.

(** Two jobs that differ in repository and artifact name, with one key. *)
Definition dotted_job_1 : Job.t := Job.mk "o" "site.web" "dist" [] "/srv/a".
Definition dotted_job_2 : Job.t := Job.mk "o" "site" "web.dist" [] "/srv/b".

(** A path element as [Clean] keeps them: not empty, not [.], without a
    separator inside. *)
Definition kept_elem (e : string) : Prop :=
  e ≠ "" ∧ e ≠ "." ∧ has_char "/" e = false.

(** A character that stands for itself in an expression: seven-bit, and
    none of the characters the parser reads as an operator. *)
Definition is_plain (c : ascii) : bool :=
  regexp.is_ascii7 c
  && negb (existsb (Ascii.eqb c) (String.list_ascii_of_string "()|^$.[{\*+?")).

(** A pattern made of plain characters only. *)
Definition plain_pattern (e : string) : Prop :=
  forallb is_plain (String.list_ascii_of_string e) = true.

(** The line [runJob] logs first. *)
Definition running_line (j : Job.t) : string := "[Info] Running job: " +:+ job_key j.

Definition is_running (line : string) : bool := String.prefix "[Info] Running job: " line.

(** The lines of a log that announce a job. *)
Definition running_lines (ls : list string) : list string :=
  filter (fun l => is_running l = true) ls.

(** No job has been announced between [w] and [w']. *)
Definition same_running (w w' : World) : Prop :=
  running_lines (logs w') = running_lines (logs w).

(** From [w] to [w'] no file, no directory and no ledger entry has
    disappeared, and the secrets and the jobs are the same. *)
Definition persists (w w' : World) : Prop :=
  (∀ p, is_Some (files w !! p) -> is_Some (files w' !! p))
  ∧ dirs w ⊆ dirs w'
  ∧ secretMap w' = secretMap w ∧ jobs w' = jobs w
  ∧ (∀ key, is_Some (lastUpdate w !! key) -> is_Some (lastUpdate w' !! key)).

(** The places [runJob] may write for the job [j]: the ledger file, the
    archive of the job, what lies under the deploy path, and the scratch
    files of [tempDir]. *)
Definition job_may_write (j : Job.t) (p : string) : Prop :=
  p = logFile
  ∨ p = filepath.Join [artifactsDir; job_key j +:+ ".zip"]
  ∨ strings_HasPrefix p (filepath.Clean (Job.DeployPath j) +:+ filepath.Separator) = true
  ∨ is_scratch p ∨ is_temp "tmp-*" p ∨ is_temp "artifact-tmp-*" p.










(** Whenever it is asked, the listing for [j] fails or names a version with
    the timestamp that the ledger [lu] records for [j]. *)
Definition up_to_date (H : Host) (lu : gmap string Time) (j : Job.t) : Prop :=
  ∀ w0, match fst (getLatestArtifact H j w0) with
        | Returned (Ok a) => Artifact.CreatedAt a = default 0%Z (lu !! job_key j)
        | _ => True
        end.

(** The filesystem and the package variables are the same. *)
Definition same_state (w w' : World) : Prop := same_fs w w' ∧ same_vars w w'.

(** ** Further hosts and worlds for the examples *)

(** A listing with two versions of [dist], the newer one expired, and a
    newer artifact of another name. *)
Definition demo_listing : list Artifact.t :=
  [ Artifact.mk 1 "dist" 2 "https://example.invalid/1.zip" false 5;
    Artifact.mk 2 "docs" 2 "https://example.invalid/2.zip" false 12;
    Artifact.mk 3 "dist" 2 "https://example.invalid/3.zip" true 9 ].

Definition listing_host (artifacts : list Artifact.t) : Host :=
  re2_host calm_answer (fun _ => 0) (fun _ => Ok []) (fun _ => Ok artifacts).

(** Secrets with two entries for the owner [o]. *)
Definition demo_secrets : list Secret.t :=
  [Secret.mk "o" "first"; Secret.mk "p" "other"; Secret.mk "o" "second"].

Definition demo_ledger : gmap string Time := {[ "o.r.dist" := 5%Z ]}.

(** A host whose codecs read the start-up files as [demo_secrets] and
    [demo_job], and write and read back the ledger [demo_ledger]. *)
Definition startup_host : Host :=
  mkHost calm_answer (fun _ => 0) regexp.Regexp regexp.Parse regexp.MatchRe
    (fun _ => Ok []) (fun _ => Ok demo_listing)
    (fun _ => Ok demo_secrets) (fun _ => Ok [demo_job])
    (fun data => if decide (data = bytes_of "o.r.dist=5") then Ok demo_ledger else Ok ∅)
    (fun m => if decide (m = demo_ledger) then bytes_of "o.r.dist=5" else bytes_of "{}").

Definition startup_world : World :=
  set_files {[ "secret.json" := bytes_of "s"; "job.json" := bytes_of "j" ]} empty_world.

(** A world with a file outside every deploy path and a deployed file that
    an exclusion protects. *)
Definition guarded_world : World :=
  set_files {[ "pkg.zip" := [];
               "/etc/passwd" := bytes_of "root";
               "/srv/www/b/c.txt" := bytes_of "keep" ]} empty_world.

(** A second job, whose artifact the listing does not hold. *)
Definition docs_job : Job.t := Job.mk "o" "r" "manual" [] "/srv/docs".



(** ** Reasoning about computations *)

Ltac unfold_prims :=
  unfold os_Open, io_ReadAll, os_Stat, os_WriteFile, os_MkdirAll, os_CreateTemp,
    file_Write, file_Close, os_Rename, http_NewRequest, client_Do, zip_OpenReader,
    zip_File_Open, log_Printf, log_Fatal, modify, gets, ask, bind, ret in *.

Ltac unfold_setters :=
  unfold set_files, set_dirs, set_logs, set_tick, set_secretMap, set_jobs,
    set_lastUpdate in *.

Ltac wsimpl :=
  cbn [fst snd tick files dirs logs secretMap jobs lastUpdate negb os_IsNotExist] in *.

(** Destructs the innermost scrutinee of a [match] in the goal. *)
Ltac case_head :=
  match goal with
  | |- context [match ?x with _ => _ end] =>
      lazymatch x with
      | context [match _ with _ => _ end] => fail
      | _ => destruct x eqn:?
      end
  end.

Ltac run_all := repeat (case_head; wsimpl).

(** Unfolds one action of a goroutine down to the system calls. *)
Ltac run_wstep :=
  unfold wstep, zip_File_read; unfold_prims; unfold_setters; wsimpl.

(** * Properties *)

(** ** Sanity checks of the library models *)

Example Clean_dotdot : filepath.Clean "/srv/www/../../etc/passwd" = "/etc/passwd".
Proof. reflexivity. Qed.
Example Clean_rel : filepath.Clean "a//b/./c/../d/" = "a/b/d".
Proof. reflexivity. Qed.
Example Clean_rel_up : filepath.Clean "a/../../b" = "../b".
Proof. reflexivity. Qed.
Example Clean_root_up : filepath.Clean "/../a" = "/a".
Proof. reflexivity. Qed.
Example Clean_root : filepath.Clean "/" = "/".
Proof. reflexivity. Qed.
Example Join_abs : filepath.Join ["/srv/www"; "/etc/passwd"] = "/srv/www/etc/passwd".
Proof. reflexivity. Qed.
Example Join_empty : filepath.Join [""; "a/b"] = "a/b".
Proof. reflexivity. Qed.
Example Dir_file : filepath.Dir "/srv/www/b/c.txt" = "/srv/www/b".
Proof. reflexivity. Qed.
Example Dir_plain : filepath.Dir "c.txt" = ".".
Proof. reflexivity. Qed.

Example Parse_anchored :
  regexp.Parse "^a.b$" =
  inr (regexp.OpConcat regexp.OpBeginText
        (regexp.OpConcat (regexp.OpLiteral "a")
          (regexp.OpConcat regexp.OpAnyCharNotNL
            (regexp.OpConcat (regexp.OpLiteral "b") regexp.OpEndText)))).
Proof. reflexivity. Qed.
Example Parse_alt_binds_loosest :
  regexp.Parse "^a|b$" =
  inr (regexp.OpAlternate
        (regexp.OpConcat regexp.OpBeginText (regexp.OpLiteral "a"))
        (regexp.OpConcat (regexp.OpLiteral "b") regexp.OpEndText)).
Proof. reflexivity. Qed.
Example Parse_group :
  regexp.Parse "(a|b)*c" =
  inr (regexp.OpConcat
        (regexp.OpStar (regexp.OpCapture
           (regexp.OpAlternate (regexp.OpLiteral "a") (regexp.OpLiteral "b"))))
        (regexp.OpLiteral "c")).
Proof. reflexivity. Qed.
Example Parse_unbalanced : regexp.Parse "(a" = inl regexp.ErrMissingParen.
Proof. reflexivity. Qed.
Example Parse_unexpected : regexp.Parse "a)" = inl regexp.ErrUnexpectedParen.
Proof. reflexivity. Qed.
Example Parse_star_first : regexp.Parse "*a" = inl regexp.ErrMissingRepeatArgument.
Proof. reflexivity. Qed.
Example Parse_star_star : regexp.Parse "a**" = inl regexp.ErrInvalidRepeatOp.
Proof. reflexivity. Qed.
Example Match_unanchored :
  regexp.MatchRe (regexp.OpConcat (regexp.OpPlus (regexp.OpLiteral "b"))
                                  (regexp.OpLiteral "c")) "abbcd" = true.
Proof. reflexivity. Qed.

(** The published digests of the empty input, of [hello] and of the
    pangram. *)
Example murmur3_empty : murmur3.Sum128 [] = (0, 0)%Z.
Proof. reflexivity. Qed.
Example murmur3_hello :
  murmur3.Sum128 (bytes_of "hello") = (0xcbd8a7b341bd9b02, 0x5b1e906a48ae1d19)%Z.
Proof. vm_compute. reflexivity. Qed.
Example murmur3_fox :
  murmur3.Sum128 (bytes_of "The quick brown fox jumps over the lazy dog")
  = (0xe34bbc7bbc071b6c, 0x7a433ca9c49a9347)%Z.
Proof. vm_compute. reflexivity. Qed.
Example murmur3_sum_len : length (murmur3.Sum (bytes_of "hello")) = 16.
Proof. vm_compute. reflexivity. Qed.

(** ** Exclusion matcher *)

Section Matcher.

Variable H : Host.

Lemma pathMatches_nil p : pathMatches H p [] = false.
Proof. reflexivity. Qed.

Lemma pathMatches_cons p e rest :
  pathMatches H p (e :: rest) =
  fst (regexp_MatchString H ("^" +:+ e +:+ "$") p) || pathMatches H p rest.
Proof.
  simpl. destruct (regexp_MatchString H _ p) as [ok err]. simpl.
  destruct ok; reflexivity.
Qed.

Lemma pathMatches_app p l1 l2 :
  pathMatches H p (l1 ++ l2) = pathMatches H p l1 || pathMatches H p l2.
Proof.
  induction l1 as [|e l1 IH]; [reflexivity|].
  rewrite <- app_comm_cons, !pathMatches_cons, IH. apply orb_assoc.
Qed.

(** [pathMatches] is the disjunction of the anchored searches. *)
Lemma pathMatches_existsb p excludes :
  pathMatches H p excludes =
  existsb (fun e => fst (regexp_MatchString H ("^" +:+ e +:+ "$") p)) excludes.
Proof.
  induction excludes as [|e rest IH]; [reflexivity|].
  rewrite pathMatches_cons, IH. reflexivity.
Qed.

(** A pattern whose anchored form does not compile behaves as if it were
    absent: the patterns before and after it still decide. *)
Lemma pathMatches_skips_uncompilable p l1 e l2 err :
  regexp_Compile H ("^" +:+ e +:+ "$") = inl err ->
  pathMatches H p (l1 ++ e :: l2) = pathMatches H p (l1 ++ l2).
Proof.
  intros Herr. rewrite !pathMatches_app, pathMatches_cons.
  unfold regexp_MatchString. rewrite Herr. reflexivity.
Qed.

End Matcher.

(** The examples of the specification: no implicit substring match. *)
Example exclusion_full_path_only :
  pathMatches calm_host "sub/data.json" ["data\.json"] = false
  ∧ pathMatches calm_host "sub/data.json" [".*data\.json"] = true
  ∧ pathMatches calm_host "data.json" ["data\.json"] = true
  ∧ pathMatches calm_host "b/c.txt" ["b/.*"] = true.
Proof. repeat split; vm_compute; reflexivity. Qed.

(** C4 (code defect): the anchors are glued to the pattern text, so an
    alternation at the top level of a pattern takes [^] into its first
    branch and [$] into its last one. The pattern [README|docs/.*] does not
    match the whole of [README.md], yet [pathMatches] excludes that path. *)
Theorem C4_alternation_escapes_anchors :
  matches_whole_path "README|docs/.*" "README.md" = Some false
  ∧ pathMatches calm_host "README.md" ["README|docs/.*"] = true.
Proof. split; vm_compute; reflexivity. Qed.

(** C8 (code defect): [a\] is not a regular expression (trailing
    backslash), but once the anchors are glued on, its backslash escapes
    the closing [$]: the text [^a\$] compiles and matches the path [a$], so
    the malformed pattern excludes a path. *)
Theorem C8_malformed_pattern_matches :
  regexp.Parse "a\" = inl regexp.ErrTrailingBackslash
  ∧ pathMatches calm_host "a$" ["a\"] = true.
Proof. split; vm_compute; reflexivity. Qed.

(** ** Differential extractor *)

(** C2: an entry whose joined and cleaned path is not textually under the
    destination root makes [extractDiff] fail without touching the
    filesystem (nor the log, nor any variable); when the entry itself can
    be read, the failure is the illegal-file-path error. *)
Theorem C2_traversal_rejected (H : Host) (f : zip.File) (dest : string) (w : World) :
  let path := filepath.Join [dest; zip.Name f] in
  strings_HasPrefix path (filepath.Clean dest +:+ "/") = false ->
  ∃ err, fst (extractDiff H f dest w) = Returned (Err err)
       ∧ unchanged w (snd (extractDiff H f dest w))
       ∧ (readable H f w -> err = ErrIllegalPath path).
Proof.
  intros path Hesc. unfold extractDiff, zip_File_read, readable. unfold_prims.
  wsimpl. fold path. unfold filepath.Separator. rewrite Hesc. wsimpl.
  run_all; eexists; (split; [reflexivity|]); (split; [repeat split|]);
    intros (? & ? & ? & ?); congruence.
Qed.

Lemma C2_traversal_rejected_witness :
  let f := entry "../../etc/passwd" "root::0:0:" in
  let out := extractDiff calm_host f "/srv/www" empty_world in
  filepath.Join ["/srv/www"; zip.Name f] = "/etc/passwd"
  ∧ ∃ err, fst out = Returned (Err err)
         ∧ unchanged empty_world (snd out)
         ∧ (readable calm_host f empty_world -> err = ErrIllegalPath "/etc/passwd").
Proof.
  intros f out. split; [reflexivity|].
  apply (C2_traversal_rejected calm_host f "/srv/www" empty_world). reflexivity.
Defined.

(** What the check means: a rooted path comes out of [Clean] without any
    [..] left in it, and a path that passes the check is the cleaned root,
    a separator and a remainder. *)
Lemma clean_elems_rooted (out elems : list string) :
  Forall proper_elem out -> Forall proper_elem (filepath.clean_elems true out elems).
Proof.
  revert out. induction elems as [|e rest IH]; intros out Hout; simpl.
  - apply Forall_rev. exact Hout.
  - destruct (String.eqb_spec e ""); [apply IH; exact Hout|].
    destruct (String.eqb_spec e "."); [apply IH; exact Hout|].
    destruct (String.eqb_spec e "..").
    + destruct out as [|top out']; [apply IH; constructor|].
      destruct (String.eqb_spec top "..").
      * apply Forall_cons in Hout as [(_ & _ & Htop) _]. contradiction.
      * apply IH. apply Forall_cons in Hout as [_ Hout]. exact Hout.
    + apply IH. constructor; [|exact Hout]. repeat split; assumption.
Qed.

Lemma HasPrefix_app (s p : string) :
  strings_HasPrefix s p = true <-> ∃ rest, s = p +:+ rest.
Proof.
  unfold strings_HasPrefix. revert s. induction p as [|c p IH]; intros s.
  - split; [intros _; exists s; reflexivity|intros _; destruct s; reflexivity].
  - destruct s as [|d s]; simpl.
    + split; [discriminate|intros [rest Hr]; discriminate Hr].
    + destruct (ascii_dec c d) as [->|Hne].
      * rewrite IH. split; intros [rest Hr]; exists rest.
        -- rewrite Hr. reflexivity.
        -- change (String d s = String d (p +:+ rest)) in Hr. congruence.
      * split; [discriminate|intros [rest Hr]].
        change (String d s = String c (p +:+ rest)) in Hr. congruence.
Qed.

(** Paths that the check lets through or stops. *)
Example traversal_check_examples :
  let check dest name :=
    strings_HasPrefix (filepath.Join [dest; name]) (filepath.Clean dest +:+ "/") in
  check "/srv/www" "a.txt" = true
  ∧ check "/srv/www" "b/../c.txt" = true
  ∧ check "/srv/www" "/etc/passwd" = true
  ∧ check "/srv/www" "../../etc/passwd" = false
  ∧ check "/srv/www" "../www2/x" = false
  ∧ check "/srv/www" ".." = false
  ∧ check "/srv/www/" "b/../../x" = false
  ∧ check "deploy" "../deploy2/x" = false.
Proof. repeat split; reflexivity. Qed.



(** The three cases on the calm host: a missing file and a stale file are
    written, an up-to-date file is left alone. *)
Example extractDiff_cases :
  let f := entry "a.txt" "X" in
  let fresh := empty_world in
  let stale := set_files {[ "/srv/www/a.txt" := bytes_of "old" ]} empty_world in
  let same := set_files {[ "/srv/www/a.txt" := bytes_of "X" ]} empty_world in
  Written "/srv/www/a.txt" (bytes_of "X") (extractDiff calm_host f "/srv/www" fresh)
  ∧ Written "/srv/www/a.txt" (bytes_of "X") (extractDiff calm_host f "/srv/www" stale)
  ∧ files (snd (extractDiff calm_host f "/srv/www" same)) = files same.
Proof. repeat split; vm_compute; reflexivity. Qed.

(** ** Archive synchroniser: structure of the fan-out *)

Section FanOut.

Variable H : Host.

Lemma wstep_total f dest s w :
  ∃ s' w', wstep H f dest s w = (Returned s', w').
Proof.
  destruct w as [fs ds ls t sm js lu].
  destruct s; run_wstep; run_all; eauto.
Qed.

Lemma wstep_weight f dest s w s' w' :
  wstep H f dest s w = (Returned s', w') -> wgone s = false ->
  wweight s' < wweight s.
Proof.
  destruct w as [fs ds ls t sm js lu].
  destruct s; run_wstep; intros Hs Hg; try discriminate Hg; revert Hs;
    run_all; intros [= <- <-]; simpl; lia.
Qed.

Lemma wstep_vars f dest s w s' w' :
  wstep H f dest s w = (Returned s', w') -> same_vars w w'.
Proof.
  destruct w as [fs ds ls t sm js lu].
  destruct s; run_wstep; run_all; intros [= <- <-]; repeat split.
Qed.

(** A goroutine is gone only after its [wg.Done()]. *)
Lemma wstep_gone f dest s w s' w' :
  wstep H f dest s w = (Returned s', w') -> wgone s = false ->
  wgone s' = true <-> ∃ r, s = WDefer r.
Proof.
  destruct w as [fs ds ls t sm js lu].
  destruct s; run_wstep; intros Hs Hg; try discriminate Hg; revert Hs;
    run_all; intros [= <- <-]; simpl;
    (split; [intros; try discriminate; eauto|intros [? ?]; try discriminate; reflexivity]).
Qed.

(** *** Runnable threads *)

Lemma runnable_workers_spec ws k tid :
  tid ∈ runnable_workers k ws <->
  ∃ i f s, tid = S (k + i) ∧ ws !! i = Some (f, s) ∧ wgone s = false.
Proof.
  revert k. induction ws as [|[f s] ws IH]; intros k; simpl.
  - split; [intros Hin; inversion Hin|intros (i & ? & ? & _ & Hl & _); destruct i; discriminate].
  - destruct (wgone s) eqn:Hg.
    + rewrite IH. split.
      * intros (i & f' & s' & -> & Hl & Hg'). exists (S i), f', s'.
        split; [f_equal; lia|]. split; assumption.
      * intros (i & f' & s' & -> & Hl & Hg'). destruct i as [|i]; simpl in Hl.
        { injection Hl as <- <-. congruence. }
        exists i, f', s'. split; [f_equal; lia|]. split; assumption.
    + rewrite elem_of_cons, IH. split.
      * intros [->|(i & f' & s' & -> & Hl & Hg')].
        { exists 0, f, s. split; [f_equal; lia|]. split; [reflexivity|assumption]. }
        exists (S i), f', s'. split; [f_equal; lia|]. split; assumption.
      * intros (i & f' & s' & -> & Hl & Hg'). destruct i as [|i]; simpl in Hl.
        { left. f_equal. lia. }
        right. exists i, f', s'. split; [f_equal; lia|]. split; assumption.
Qed.

Lemma runnable_spec c tid :
  tid ∈ runnable c <->
  (tid = 0 ∧ main_runnable c = true)
  ∨ ∃ i f s, tid = S i ∧ c_workers c !! i = Some (f, s) ∧ wgone s = false.
Proof.
  unfold runnable. rewrite elem_of_app, runnable_workers_spec. split.
  - intros [Hm|(i & f & s & -> & Hl & Hg)].
    + destruct (main_runnable c); [|inversion Hm].
      apply list_elem_of_singleton in Hm. left. auto.
    + right. exists i, f, s. auto.
  - intros [[-> Hm]|(i & f & s & -> & Hl & Hg)].
    + left. rewrite Hm. apply list_elem_of_singleton. reflexivity.
    + right. exists i, f, s. auto.
Qed.

Lemma runnable_pick c k :
  runnable c ≠ [] ->
  ∃ tid, runnable c !! (k mod length (runnable c)) = Some tid ∧ tid ∈ runnable c.
Proof.
  intros Hne.
  assert (Hlen : length (runnable c) ≠ 0) by (destruct (runnable c); [done|simpl; lia]).
  destruct (lookup_lt_is_Some_2 (runnable c) (k mod length (runnable c))) as [tid Htid].
  { apply Nat.mod_upper_bound. exact Hlen. }
  exists tid. split; [exact Htid|]. eapply list_elem_of_lookup_2. exact Htid.
Qed.

Lemma alive_zero ws : alive ws = 0 <-> Forall (fun p => wgone p.2 = true) ws.
Proof.
  unfold alive. induction ws as [|[f s] ws IH]; simpl.
  - split; [constructor|reflexivity].
  - rewrite filter_cons. simpl. destruct (wgone s) eqn:Hg.
    + rewrite decide_False by congruence. rewrite IH. split.
      * intros Hall. constructor; [exact Hg|exact Hall].
      * intros Hall. inversion Hall; assumption.
    + rewrite decide_True by reflexivity. simpl. split; [lia|].
      intros Hall. inversion Hall as [|? ? Hx]. simpl in Hx. congruence.
Qed.

Lemma runnable_nil c :
  runnable c = [] <->
  main_runnable c = false ∧ Forall (fun p => wgone p.2 = true) (c_workers c).
Proof.
  split.
  - intros Hnil. split.
    + destruct (main_runnable c) eqn:Hm; [|reflexivity].
      assert (Hin : 0 ∈ runnable c) by (apply runnable_spec; auto).
      rewrite Hnil in Hin. inversion Hin.
    + apply Forall_lookup. intros i [f s] Hl. simpl.
      destruct (wgone s) eqn:Hg; [reflexivity|].
      assert (Hin : S i ∈ runnable c) by (apply runnable_spec; right; exists i, f, s; auto).
      rewrite Hnil in Hin. inversion Hin.
  - intros [Hm Hall]. destruct (runnable c) as [|tid l] eqn:Hr; [reflexivity|].
    assert (Hin : tid ∈ runnable c) by (rewrite Hr; left).
    apply runnable_spec in Hin as [[_ Hm']|(i & f & s & _ & Hl & Hg)]; [congruence|].
    rewrite Forall_lookup in Hall. specialize (Hall i (f, s) Hl). simpl in Hall. congruence.
Qed.

(** *** One scheduling decision *)

Lemma sched_step_cases dest excludes c w :
  runnable c ≠ [] ->
  let w1 := set_tick (S (tick w)) w in
  (main_runnable c = true
   ∧ sched_step H dest excludes c w = (Returned (main_step H dest excludes c), w1))
  ∨ ∃ i f s s' w',
      c_workers c !! i = Some (f, s) ∧ wgone s = false
      ∧ wstep H f dest s w1 = (Returned s', w')
      ∧ sched_step H dest excludes c w = (Returned (moved c i f s s'), w').
Proof.
  intros Hne w1.
  destruct (runnable_pick c (turn (answer H (tick w))) Hne) as (tid & Hpick & Hin).
  unfold sched_step, bind, ask. cbn [fst snd]. fold w1. rewrite Hpick.
  apply runnable_spec in Hin as [[-> Hm]|(i & f & s & -> & Hl & Hg)].
  - left. split; [exact Hm|reflexivity].
  - right. destruct (wstep_total f dest s w1) as (s' & w' & Hs).
    exists i, f, s, s', w'. repeat split; try assumption.
    unfold thread_step, worker_step, bind, ret. rewrite Hl, Hs. reflexivity.
Qed.

(** An invariant of the caller's steps and of the goroutines' steps is an
    invariant of every schedule. *)
Lemma run_sched_ind (P : config -> World -> Prop) dest excludes :
  (∀ c w, P c w -> P c (set_tick (S (tick w)) w)) ->
  (∀ c w, P c w -> main_runnable c = true -> P (main_step H dest excludes c) w) ->
  (∀ c w i f s s' w',
      P c w -> c_workers c !! i = Some (f, s) -> wgone s = false ->
      wstep H f dest s w = (Returned s', w') -> P (moved c i f s s') w') ->
  ∀ n c w, P c w ->
  ∃ c' w', run_sched H n dest excludes c w = (Returned c', w') ∧ P c' w'.
Proof.
  intros Htick Hmain Hwork. induction n as [|n IH]; intros c w HP.
  - exists c, w. split; [reflexivity|exact HP].
  - simpl. destruct (runnable c) as [|tid l] eqn:Hr.
    + exists c, w. split; [reflexivity|exact HP].
    + assert (Hne : runnable c ≠ []) by (rewrite Hr; discriminate).
      unfold bind.
      destruct (sched_step_cases dest excludes c w Hne)
        as [[Hm ->]|(i & f & s & s' & w' & Hl & Hg & Hs & ->)].
      * apply IH. apply Htick. apply Hmain; assumption.
      * apply IH. apply (Hwork c (set_tick (S (tick w)) w) i f s s' w'); auto.
Qed.

(** *** Termination *)

Lemma sum_weight_insert (ws : list (zip.File * wstate)) i f s s' :
  ws !! i = Some (f, s) -> wweight s' < wweight s ->
  sum_list_with (fun p => wweight p.2) (<[i := (f, s')]> ws)
  < sum_list_with (fun p => wweight p.2) ws.
Proof.
  revert i. induction ws as [|[g t] ws IH]; intros i Hl Hlt; [discriminate|].
  destruct i as [|i]; simpl in *.
  - injection Hl as -> ->. lia.
  - specialize (IH i Hl Hlt). lia.
Qed.

Lemma main_step_weight dest excludes c :
  main_runnable c = true -> cweight (main_step H dest excludes c) < cweight c.
Proof.
  unfold main_runnable, main_step, cweight. destruct c as [m wg ws]. simpl.
  destruct m as [[|f rest]| |]; simpl; intros Hm; try discriminate; try lia.
  - destruct (zip.IsDir f); simpl; [lia|].
    destruct (pathMatches H (zip.Name f) excludes); simpl; [lia|].
    rewrite sum_list_with_app. simpl. lia.
  - rewrite Hm. simpl. lia.
Qed.

Lemma sched_step_weight dest excludes c w c' w' :
  runnable c ≠ [] ->
  sched_step H dest excludes c w = (Returned c', w') -> cweight c' < cweight c.
Proof.
  intros Hne Hstep.
  destruct (sched_step_cases dest excludes c w Hne)
    as [[Hm Heq]|(i & f & s & s' & w1 & Hl & Hg & Hs & Heq)];
    rewrite Heq in Hstep; injection Hstep as <- <-.
  - apply main_step_weight. exact Hm.
  - unfold cweight, moved. simpl.
    pose proof (sum_weight_insert _ i f s s' Hl (wstep_weight _ _ _ _ _ _ Hs Hg)). lia.
Qed.

Lemma sched_step_total dest excludes c w :
  ∃ c' w', sched_step H dest excludes c w = (Returned c', w').
Proof.
  destruct (runnable c) as [|tid l] eqn:Hr.
  - unfold sched_step, bind, ask, ret. cbn [fst snd]. rewrite Hr. simpl. eauto.
  - assert (Hne : runnable c ≠ []) by (rewrite Hr; discriminate).
    destruct (sched_step_cases dest excludes c w Hne)
      as [[Hm ->]|(i & f & s & s' & w1 & Hl & Hg & Hs & ->)]; eauto.
Qed.

(** With at least [cweight c] decisions, no thread is left runnable. *)
Lemma run_sched_done dest excludes n c w c' w' :
  cweight c <= n ->
  run_sched H n dest excludes c w = (Returned c', w') -> runnable c' = [].
Proof.
  revert c w. induction n as [|n IH]; intros c w Hle Hrun.
  - simpl in Hrun. injection Hrun as <- <-.
    destruct (runnable c) as [|tid l] eqn:Hr; [reflexivity|].
    assert (Hin : tid ∈ runnable c) by (rewrite Hr; left).
    apply runnable_spec in Hin as [[_ Hm]|(i & f & s & _ & Hl & Hg)].
    + pose proof (main_step_weight "" [] c Hm). lia.
    + assert (Hlt : wweight s <= sum_list_with (fun p => wweight p.2) (c_workers c)).
      { apply (sum_list_with_in (f, s) (fun p => wweight p.2)).
        eapply list_elem_of_lookup_2. exact Hl. }
      unfold cweight in Hle. destruct s; simpl in *; try discriminate; lia.
  - simpl in Hrun. destruct (runnable c) as [|tid l] eqn:Hr.
    + injection Hrun as <- <-. exact Hr.
    + assert (Hne : runnable c ≠ []) by (rewrite Hr; discriminate).
      unfold bind in Hrun.
      destruct (sched_step_total dest excludes c w) as (c1 & w1 & Hstep).
      rewrite Hstep in Hrun.
      pose proof (sched_step_weight _ _ _ _ _ _ Hne Hstep).
      eapply IH; [|exact Hrun]. lia.
Qed.

End FanOut.

Section FanOutInvariant.

Variable H : Host.

Lemma alive_app ws1 ws2 : alive (ws1 ++ ws2) = alive ws1 + alive ws2.
Proof. unfold alive. rewrite filter_app, length_app. reflexivity. Qed.

Lemma alive_insert (ws : list (zip.File * wstate)) i f s s' :
  ws !! i = Some (f, s) ->
  alive (<[i := (f, s')]> ws) + (if wgone s then 0 else 1)
  = alive ws + (if wgone s' then 0 else 1).
Proof.
  revert i. induction ws as [|[g t] ws IH]; intros i Hl; [discriminate|].
  destruct i as [|i]; simpl in *.
  - injection Hl as -> ->. unfold alive. rewrite !filter_cons. simpl.
    destruct (wgone s), (wgone s'); repeat case_decide; simpl; congruence || lia.
  - specialize (IH i Hl). unfold alive in *. rewrite !filter_cons. simpl.
    case_decide; simpl; lia.
Qed.

Lemma fst_insert_same (ws : list (zip.File * wstate)) i f s s' :
  ws !! i = Some (f, s) -> map fst (<[i := (f, s')]> ws) = map fst ws.
Proof.
  intros Hl. change (map fst) with (fmap (M := list) (@fst zip.File wstate)).
  rewrite list_fmap_insert. simpl. apply list_insert_id.
  rewrite list_lookup_fmap, Hl. reflexivity.
Qed.

Lemma fan_inv_init entries excludes :
  fan_inv H entries excludes (mkConfig (MLoop entries) 0 []).
Proof. repeat split. intros Hm. discriminate Hm. Qed.

Lemma fan_inv_main entries dest excludes c :
  fan_inv H entries excludes c -> main_runnable c = true ->
  fan_inv H entries excludes (main_step H dest excludes c).
Proof.
  destruct c as [m wg ws]. unfold fan_inv, main_runnable, main_step, pending. simpl.
  intros (Hwg & Hsp & Hret) Hm.
  destruct m as [[|f rest]| |]; simpl in *; try discriminate.
  - repeat split; try assumption. intros Hx. discriminate Hx.
  - rewrite filter_cons in Hsp.
    destruct (zip.IsDir f) eqn:Hd; [|destruct (pathMatches H (zip.Name f) excludes) eqn:Hp];
      simpl.
    + rewrite decide_False in Hsp by (unfold kept; rewrite Hd; discriminate).
      repeat split; try assumption. intros Hx. discriminate Hx.
    + rewrite decide_False in Hsp by (unfold kept; rewrite Hd, Hp; discriminate).
      repeat split; try assumption. intros Hx. discriminate Hx.
    + rewrite decide_True in Hsp by (unfold kept; rewrite Hd, Hp; reflexivity).
      split; [rewrite alive_app, Hwg;
              replace (alive [(f, WStart)]) with 1 by reflexivity; lia|].
      split; [rewrite map_app, <- app_assoc; exact Hsp|].
      intros Hx. discriminate Hx.
  - rewrite Hm. simpl. repeat split; try assumption.
    intros _. apply alive_zero. apply Nat.eqb_eq in Hm. congruence.
Qed.

Lemma fan_inv_worker entries dest excludes c w i f s s' w' :
  fan_inv H entries excludes c ->
  c_workers c !! i = Some (f, s) -> wgone s = false ->
  wstep H f dest s w = (Returned s', w') ->
  fan_inv H entries excludes (moved c i f s s').
Proof.
  destruct c as [m wg ws]. unfold fan_inv, moved, pending. simpl.
  intros (Hwg & Hsp & Hret) Hl Hg Hs.
  pose proof (alive_insert ws i f s s' Hl) as Ha. rewrite Hg in Ha.
  pose proof (wstep_gone H f dest s w s' w' Hs Hg) as Hgone.
  split; [|split].
  - destruct (wgone s') eqn:Hg'.
    + destruct (proj1 Hgone eq_refl) as [r ->]. lia.
    + destruct s; try lia.
      assert (Hx : false = true) by (apply Hgone; eauto). discriminate Hx.
  - rewrite (fst_insert_same ws i f s s' Hl). exact Hsp.
  - intros Hm. specialize (Hret Hm). rewrite Forall_lookup in Hret.
    specialize (Hret i (f, s) Hl). simpl in Hret. congruence.
Qed.

(** Every schedule keeps the invariant, and this many decisions leave no
    thread runnable. *)
Lemma after_inv n entries dest excludes w :
  ∃ c w', after H n entries dest excludes w = (Returned c, w')
          ∧ fan_inv H entries excludes c.
Proof.
  unfold after.
  apply (run_sched_ind H (fun c _ => fan_inv H entries excludes c)).
  - auto.
  - intros c _ Hi Hm. apply fan_inv_main; assumption.
  - intros c w0 i f s s' w' Hi Hl Hg Hs. eapply fan_inv_worker; eauto.
  - apply fan_inv_init.
Qed.

Lemma fan_inv_final entries excludes c :
  fan_inv H entries excludes c -> runnable c = [] ->
  c_main c = MRet
  ∧ map fst (c_workers c) = filter (fun f => kept H excludes f = true) entries
  ∧ Forall (fun p => wgone p.2 = true) (c_workers c).
Proof.
  intros (Hwg & Hsp & Hret) Hnil. apply runnable_nil in Hnil as [Hm Hall].
  assert (Hwg0 : c_wg c = 0) by (rewrite Hwg; apply alive_zero; exact Hall).
  unfold main_runnable in Hm. unfold pending in Hsp.
  destruct (c_main c) eqn:Hmain; try discriminate.
  - rewrite Hwg0 in Hm. discriminate.
  - rewrite app_nil_r in Hsp. auto.
Qed.

Lemma fan_out_final entries dest excludes w :
  ∃ c w', fan_out H entries dest excludes w = (Returned c, w')
          ∧ c_main c = MRet
          ∧ map fst (c_workers c) = filter (fun f => kept H excludes f = true) entries
          ∧ Forall (fun p => wgone p.2 = true) (c_workers c).
Proof.
  destruct (after_inv (fan_out_fuel entries) entries dest excludes w)
    as (c & w' & Hrun & Hinv).
  exists c, w'. split; [exact Hrun|].
  apply (fan_inv_final entries excludes c Hinv).
  unfold after in Hrun. eapply run_sched_done; [|exact Hrun].
  unfold cweight, fan_out_fuel. simpl. lia.
Qed.

Lemma unzipDiff_opened filename dest excludes w entries w1 :
  zip_OpenReader H filename w = (Returned (Ok entries), w1) ->
  unzipDiff H filename dest excludes w
  = (Returned (Ok tt), snd (fan_out H entries dest excludes w1)).
Proof.
  intros Hopen. unfold unzipDiff, bind at 1. rewrite Hopen.
  destruct (fan_out_final entries dest excludes w1) as (c & w' & Hf & _).
  unfold bind, ret. rewrite Hf. reflexivity.
Qed.


End FanOutInvariant.

Section Reports.

Variable H : Host.









End Reports.


(** The hostile entry is reported and its neighbours are extracted. *)
Example mixed_archive_run :
  let H := archive_host mixed_archive in
  let w := set_files {[ "pkg.zip" := [] ]} empty_world in
  let w' := snd (unzipDiff H "pkg.zip" "/srv/www" [] w) in
  files w' = {[ "pkg.zip" := []; "/srv/www/a.txt" := bytes_of "X";
                "/srv/www/b/c.txt" := bytes_of "Y" ]}
  ∧ report_lines (logs w') =
      ["[Error] Extract ../../etc/passwd: illegal file path: /etc/passwd"].
Proof. split; vm_compute; reflexivity. Qed.

(** ** Update ledger and start-up *)

Section Ledger.

Variable H : Host.

Lemma bind_exited {A B} (m : M A) (k : A -> M B) w :
  fst (m w) = Exited -> fst (bind m k w) = Exited.
Proof. unfold bind. destruct (m w) as [[a|] w']; simpl; [discriminate|reflexivity]. Qed.

Lemma markUpdate_cases key t w :
  let w1 := set_lastUpdate (<[key := t]> (lastUpdate w)) w in
  let saved := saveJSON H logFile (<[key := t]> (lastUpdate w)) w1 in
  match fst saved with
  | Returned (Err err) =>
      markUpdate H key t w
      = (Exited, set_logs (logs (snd saved) ++ [Error err]) (snd saved))
  | Returned (Ok _) => markUpdate H key t w = (Returned tt, snd saved)
  | Exited => True
  end.
Proof.
  intros w1 saved. subst saved w1. unfold markUpdate, bind, modify, gets, ret, log_Fatal.
  cbn [fst snd lastUpdate set_lastUpdate].
  destruct (saveJSON H logFile _ _) as [[[u|err]|] w2]; simpl; reflexivity.
Qed.

Lemma init_exits_first_load w err :
  fst (loadJSON H (decode_secrets H) secretFile w) = Returned (Err err) ->
  fst (init H w) = Exited.
Proof.
  intros Hload. unfold init, bind at 1.
  destruct (loadJSON H (decode_secrets H) secretFile w) as [[[ss|e]|] w1];
    simpl in Hload; try discriminate. reflexivity.
Qed.

Lemma init_exits_secrets w :
  cannot_load (decode_secrets H) secretFile w -> fst (init H w) = Exited.
Proof.
  destruct w as [fs ds ls t sm js lu]. unfold cannot_load, init, loadJSON.
  unfold_prims. unfold_setters. wsimpl. intros Hc.
  destruct (fs !! secretFile) as [d|] eqn:Hd.
  - destruct Hc as [err Herr]. wsimpl.
    destruct (fault (answer H t)); wsimpl; [reflexivity|].
    destruct (fault (answer H (S t))); wsimpl; [reflexivity|].
    rewrite Herr. reflexivity.
  - destruct (fault (answer H t)); wsimpl; [reflexivity|].
    destruct (bool_decide (secretFile ∈ ds)); wsimpl; [|reflexivity].
    destruct (fault (answer H (S t))); reflexivity.
Qed.

Lemma init_exits_jobs w :
  cannot_load (decode_jobs H) jobFile w -> fst (init H w) = Exited.
Proof.
  destruct w as [fs ds ls t sm js lu]. unfold cannot_load, init, loadJSON.
  unfold_prims. unfold_setters. wsimpl. intros Hc.
  destruct (fs !! jobFile) as [d|] eqn:Hd.
  - destruct Hc as [err Herr].
    repeat (case_head; wsimpl; simplify_eq; try reflexivity; try congruence).
  - repeat (case_head; wsimpl; simplify_eq; try reflexivity; try congruence).
Qed.

Lemma init_exits_ledger w :
  ledger_unreadable H w -> fst (init H w) = Exited.
Proof.
  destruct w as [fs ds ls t sm js lu]. unfold ledger_unreadable, init, loadJSON.
  unfold_prims. unfold_setters. wsimpl. intros [err Herr].
  destruct (fs !! logFile) as [d|] eqn:Hd; simpl in Herr.
  - assert (Hs : bool_decide (is_Some (fs !! logFile)) = true)
      by (apply bool_decide_eq_true_2; eauto).
    repeat (case_head; wsimpl; simplify_eq; rewrite ?Hs in *; simpl orb in *;
            try reflexivity; try congruence).
  - repeat (case_head; wsimpl; simplify_map_eq; try reflexivity; try congruence).
Qed.

End Ledger.

(** C10: a ledger that cannot be persisted, or start-up files that cannot
    be loaded, end the whole process. When [saveJSON] fails inside
    [markUpdate], [markUpdate] logs the error and exits, and so does the
    polling cycle around it, before any later job; [init] exits when the
    secret file or the job file is missing or does not decode, when the
    ledger file does not decode, and whenever its first load fails for
    any reason. *)
Theorem C10_ledger_failure_is_fatal (H : Host) :
  (∀ key t w,
      let w1 := set_lastUpdate (<[key := t]> (lastUpdate w)) w in
      let saved := saveJSON H logFile (<[key := t]> (lastUpdate w)) w1 in
      ∀ err, fst saved = Returned (Err err) ->
             markUpdate H key t w
             = (Exited, set_logs (logs (snd saved) ++ [Error err]) (snd saved)))
  ∧ (∀ j rest w, fst (runJob H j w) = Exited ->
                 fst (runJobs_over H (j :: rest) w) = Exited)
  ∧ (∀ w, cannot_load (decode_secrets H) secretFile w -> fst (init H w) = Exited)
  ∧ (∀ w, cannot_load (decode_jobs H) jobFile w -> fst (init H w) = Exited)
  ∧ (∀ w, ledger_unreadable H w -> fst (init H w) = Exited)
  ∧ (∀ w err, fst (loadJSON H (decode_secrets H) secretFile w) = Returned (Err err) ->
              fst (init H w) = Exited).
Proof.
  split; [|split; [|split; [|split; [|split]]]].
  - intros key t w w1 saved err Hsaved.
    pose proof (markUpdate_cases H key t w) as Hc. cbv zeta in Hc.
    subst saved w1. rewrite Hsaved in Hc. exact Hc.
  - intros j rest w Hexit. simpl. apply bind_exited. exact Hexit.
  - apply init_exits_secrets.
  - apply init_exits_jobs.
  - apply init_exits_ledger.
  - apply init_exits_first_load.
Qed.

(** The ledger cannot be renamed into place across volumes: the first
    update exits the process; and an empty directory has no secret file. *)
Lemma C10_ledger_failure_is_fatal_witness :
  let H := split_volume_host in
  let w1 := set_lastUpdate {[ "o.r.dist" := 5%Z ]} empty_world in
  (fst (saveJSON H logFile {[ "o.r.dist" := 5%Z ]} w1)
     = Returned (Err (ErrCrossDevice "tmp/tmp-0" "log.json"))
   ∧ fst (markUpdate H "o.r.dist" 5%Z empty_world) = Exited)
  ∧ (cannot_load (decode_secrets H) secretFile empty_world
     ∧ fst (init H empty_world) = Exited).
Proof.
  intros H w1.
  destruct (C10_ledger_failure_is_fatal H) as (Hmark & _ & Hsecret & _).
  split.
  - assert (Hs : fst (saveJSON H logFile (<["o.r.dist" := 5%Z]> (lastUpdate empty_world))
                    (set_lastUpdate (<["o.r.dist" := 5%Z]> (lastUpdate empty_world))
                       empty_world))
                 = Returned (Err (ErrCrossDevice "tmp/tmp-0" "log.json")))
      by (vm_compute; reflexivity).
    split; [vm_compute; reflexivity|].
    rewrite (Hmark "o.r.dist" 5%Z empty_world _ Hs). reflexivity.
  - assert (Hc : cannot_load (decode_secrets H) secretFile empty_world)
      by (unfold cannot_load; simpl; exact I).
    split; [exact Hc|]. apply Hsecret. exact Hc.
Defined.

(** ** Polling: when the ledger entry is written *)

Section Polling.

Variable H : Host.

Lemma same_vars_refl w : same_vars w w.
Proof. repeat split. Qed.

Lemma same_vars_trans w1 w2 w3 : same_vars w1 w2 -> same_vars w2 w3 -> same_vars w1 w3.
Proof. unfold same_vars. intros (? & ? & ?) (? & ? & ?). repeat split; congruence. Qed.

Lemma keeps_bind {A B} (R : World -> World -> Prop) (m : M A) (k : A -> M B) :
  (∀ w1 w2 w3, R w1 w2 -> R w2 w3 -> R w1 w3) ->
  keeps R m -> (∀ a, keeps R (k a)) -> keeps R (bind m k).
Proof.
  intros Htrans Hm Hk w. unfold bind. specialize (Hm w).
  destruct (m w) as [[a|] w']; simpl in *; [|exact Hm].
  eapply Htrans; [exact Hm|apply Hk].
Qed.

Lemma getLatestArtifact_unchanged j w :
  unchanged w (snd (getLatestArtifact H j w))
  ∧ ∃ r, fst (getLatestArtifact H j w) = Returned r.
Proof.
  destruct w as [fs ds ls t sm js lu]. unfold getLatestArtifact, unchanged.
  unfold_prims. unfold_setters. wsimpl.
  run_all; (split; [repeat split|eexists; reflexivity]).
Qed.

Lemma saveJSON_vars filename v : keeps same_vars (saveJSON H filename v).
Proof.
  intros w. destruct w as [fs ds ls t sm js lu]. unfold saveJSON, same_vars.
  unfold_prims. unfold_setters. wsimpl. run_all; repeat split.
Qed.



Lemma fan_out_vars entries dest excludes : keeps same_vars (fan_out H entries dest excludes).
Proof.
  intros w. unfold fan_out.
  destruct (run_sched_ind H (fun _ w' => same_vars w w') dest excludes) with
    (n := fan_out_fuel entries) (c := mkConfig (MLoop entries) 0 []) (w := w)
    as (c' & w' & Hrun & Hv).
  - intros c w0 Hv. exact Hv.
  - intros c w0 Hv _. exact Hv.
  - intros c w0 i f s s' w' Hv _ _ Hs.
    eapply same_vars_trans; [exact Hv|]. eapply wstep_vars. exact Hs.
  - apply same_vars_refl.
  - rewrite Hrun. exact Hv.
Qed.

Lemma unzipDiff_vars filename dest excludes :
  keeps same_vars (unzipDiff H filename dest excludes).
Proof.
  unfold unzipDiff. apply keeps_bind; [apply same_vars_trans| |].
  - intros w. destruct w as [fs ds ls t sm js lu]. unfold same_vars.
    unfold_prims. unfold_setters. wsimpl. repeat split.
  - intros [entries|err]; [|intros w; apply same_vars_refl].
    apply keeps_bind; [apply same_vars_trans|apply fan_out_vars|].
    intros _ w. apply same_vars_refl.
Qed.


Lemma runJob_unfold j w :
  runJob H j w =
  let key := job_key j in
  match getLatestArtifact H j (set_logs (logs w ++ ["[Info] Running job: " +:+ key]) w) with
  | (Returned (Err err), w1) =>
      (Returned tt, set_logs (logs w1 ++ ["[Error] Job " +:+ key +:+ ": " +:+ Error err]) w1)
  | (Returned (Ok artifact), w1) =>
      if (Artifact.CreatedAt artifact =? default 0 (lastUpdate w1 !! key))%Z
      then (Returned tt, w1)
      else bind (markUpdate H key (Artifact.CreatedAt artifact))
                (fun _ => after_mark H j artifact) w1
  | (Exited, w1) => (Exited, w1)
  end.
Proof.
  unfold runJob, bind at 1, log_Printf at 1. cbn [fst snd]. unfold bind at 1.
  destruct (getLatestArtifact H j _) as [[[artifact|err]|] w1]; try reflexivity.
  unfold bind at 1, gets. cbv zeta.
  destruct (Artifact.CreatedAt artifact =? _)%Z; reflexivity.
Qed.

Lemma saveJSON_returns filename v w : ∃ r, fst (saveJSON H filename v w) = Returned r.
Proof.
  destruct w as [fs ds ls t sm js lu]. unfold saveJSON.
  unfold_prims. unfold_setters. wsimpl. run_all; eexists; reflexivity.
Qed.


End Polling.


(** Two rounds of the polling loop: the second does not fetch the version
    whose download failed in the first. *)
Example two_rounds_no_retry :
  let w := set_jobs [demo_job] empty_world in
  let w2 := snd (main_rounds flaky_download_host 2 w) in
  lastUpdate w2 !! "o.r.dist" = Some 5%Z
  ∧ files w2 !! "artifacts/o.r.dist.zip" = None
  ∧ logs w2 = ["[Info] Running job: o.r.dist"; "[Error] Job o.r.dist: connection reset";
               "[Info] Running job: o.r.dist"].
Proof. repeat split; vm_compute; reflexivity. Qed.

(** ** Archive synchroniser: what the goroutines do to the files *)

Section Files.

Variable H : Host.

Lemma wstep_wtrans f dest s w s' w' :
  wstep H f dest s w = (Returned s', w') -> wgone s = false ->
  wtrans dest f s (files w) s' (files w').
Proof.
  destruct w as [fs ds ls t sm js lu].
  destruct s; unfold wstep, zip_File_read; unfold_prims; unfold_setters; wsimpl;
    fold (path_of dest f); fold (inside dest f);
    intros Hs Hg; try discriminate Hg; revert Hs;
    run_all; intros [= <- <-]; wsimpl; simplify_eq; try (constructor; fail).
  all: econstructor;
      repeat match goal with
      | Hb : negb _ = false |- _ => apply negb_false_iff in Hb
      | Hb : negb _ = true |- _ => apply negb_true_iff in Hb
      | Hb : _ || _ = false |- _ => apply orb_false_iff in Hb as [? ?]
      | Hb : bytes_Equal _ _ = _ |- _ => unfold bytes_Equal in Hb
      | Hb : bool_decide _ = true |- _ => apply bool_decide_eq_true in Hb
      | Hb : bool_decide _ = false |- _ => apply bool_decide_eq_false in Hb
      end;
      try match goal with |- extractable _ _ => unfold extractable; repeat split end;
      eauto; try (eexists; reflexivity); try (apply eq_None_not_Some; assumption).
Qed.

(** A transition touches the destination of its entry, the scratch file
    it holds, or the scratch file it creates, and nothing else. *)
Lemma wtrans_footprint dest f s fs s' fs' p :
  wtrans dest f s fs s' fs' ->
  p ≠ path_of dest f -> temp_of s ≠ Some p -> temp_of s' ≠ Some p ->
  fs' !! p = fs !! p.
Proof.
  intros Ht Hp Hs Hs'. inversion Ht; subst; simpl in *; try reflexivity.
  - apply lookup_insert_ne. congruence.
  - apply lookup_alter_ne. congruence.
  - apply lookup_alter_ne. congruence.
  - rewrite lookup_insert_ne by congruence. apply lookup_delete_ne. congruence.
Qed.

(** A scratch file that appears is new. *)
Lemma wtrans_fresh dest f s fs s' fs' t :
  wtrans dest f s fs s' fs' -> temp_of s' = Some t ->
  temp_of s = Some t ∨ (fs !! t = None ∧ is_scratch t).
Proof.
  intros Ht Hs'. inversion Ht; subst; simpl in *; try discriminate; auto.
  injection Hs' as <-. auto.
Qed.

Lemma winv_temp dest fs0 fs g s t :
  winv dest fs0 fs (g, s) -> temp_of s = Some t -> is_Some (fs !! t) ∧ is_scratch t.
Proof.
  unfold winv. destruct s; simpl; try discriminate; intros Hw [= <-].
  - destruct Hw as (_ & Hsc & Hsome). auto.
  - destruct Hw as (_ & Hsc & Hsome). eauto.
  - destruct Hw as (_ & Hsc & Hsome). eauto.
Qed.

Lemma winv_frame dest fs0 fs fs' g s :
  fs' !! path_of dest g = fs !! path_of dest g ->
  (∀ t, temp_of s = Some t -> fs' !! t = fs !! t) ->
  winv dest fs0 fs (g, s) -> winv dest fs0 fs' (g, s).
Proof.
  unfold winv, synced. simpl. intros Hp Ht.
  destruct s as [|b|b h|b|b|b|b t|b t|b t|err|[u|err]|[u|err]]; simpl in *;
    rewrite ?Hp, ?(Ht _ eq_refl); intros Hw; exact Hw.
Qed.

(** The goroutine that moves keeps its own knowledge. *)
Lemma wtrans_own dest fs0 f s fs s' fs' :
  wtrans dest f s fs s' fs' -> ¬ is_scratch (path_of dest f) ->
  winv dest fs0 fs (f, s) -> winv dest fs0 fs' (f, s').
Proof.
  intros Ht Hns. unfold winv, synced. simpl.
  inversion Ht; subst; simpl; intros Hw; destruct_and?; subst;
    try assumption; repeat (split; try assumption); try reflexivity; try congruence.
  - (* same fingerprint *)
    eexists. split; [eassumption|congruence].
  - left. assumption.
  - (* scratch file created *)
    rewrite lookup_insert_ne by (intros ->; contradiction). assumption.
  - rewrite lookup_insert_eq. eauto.
  - (* entry written *)
    rewrite lookup_alter_ne by (intros ->; contradiction). assumption.
  - rewrite lookup_alter_eq.
    match goal with Hs : is_Some (fs !! t) |- _ => destruct Hs as [x ->] end.
    reflexivity.
  - (* write failed *)
    rewrite lookup_alter_ne by (intros ->; contradiction). assumption.
  - (* renamed into place *)
    exists (zip.content f). split; [|reflexivity].
    rewrite lookup_insert_eq. congruence.
  - right. rewrite lookup_insert_eq. congruence.
Qed.

End Files.

(** ** Archive synchroniser: the files at every moment of every schedule *)

Section Sync.
Variable H : Host.

Lemma temps_cons p ws : temps (p :: ws) = option_list (temp_of p.2) ++ temps ws.
Proof. unfold temps. simpl. destruct (temp_of p.2); reflexivity. Qed.

Lemma temps_app ws1 ws2 : temps (ws1 ++ ws2) = temps ws1 ++ temps ws2.
Proof. apply omap_app. Qed.

Lemma temps_elem t ws :
  t ∈ temps ws -> ∃ g s, (g, s) ∈ ws ∧ temp_of s = Some t.
Proof.
  unfold temps. rewrite list_elem_of_omap. intros ([g s] & Hin & Ht). eauto.
Qed.

Lemma NoDup_app_mid {A} (l1 m l2 : list A) :
  NoDup (l1 ++ m ++ l2) ->
  NoDup (l1 ++ l2) ∧ (∀ x, x ∈ m -> ¬ (x ∈ l1) ∧ ¬ (x ∈ l2)).
Proof.
  rewrite !NoDup_app. intros (H1 & H12 & Hm & Hm2 & H2). split.
  - split; [exact H1|]. split; [|exact H2].
    intros x Hx Hx2. apply (H12 x Hx). apply elem_of_app. auto.
  - intros x Hx. split.
    + intros Hx1. apply (H12 x Hx1). apply elem_of_app. auto.
    + apply Hm2. exact Hx.
Qed.

Lemma temps_elem_2 t g s ws :
  (g, s) ∈ ws -> temp_of s = Some t -> t ∈ temps ws.
Proof.
  intros Hin Ht. unfold temps. apply list_elem_of_omap. exists (g, s). auto.
Qed.

(** A path that is neither the entry's destination nor a scratch name is
    left alone. *)
Lemma wtrans_elsewhere dest fs0 f s fs s' fs' p :
  wtrans dest f s fs s' fs' -> winv dest fs0 fs (f, s) ->
  p ≠ path_of dest f -> ¬ is_scratch p -> fs' !! p = fs !! p.
Proof.
  intros Ht Hf Hne Hnp. apply (wtrans_footprint dest f s fs s' fs' _ Ht Hne).
  - intros Hs. apply Hnp. exact (proj2 (winv_temp dest fs0 fs f s _ Hf Hs)).
  - intros Hs'. destruct (wtrans_fresh dest f s fs s' fs' _ Ht Hs') as [Hs|[_ Hsc]].
    + apply Hnp. exact (proj2 (winv_temp dest fs0 fs f s _ Hf Hs)).
    + contradiction.
Qed.

(** The other goroutines keep their knowledge when one moves. *)
Lemma winv_other dest fs0 fs fs' f s s' g si :
  wtrans dest f s fs s' fs' ->
  winv dest fs0 fs (f, s) -> winv dest fs0 fs (g, si) ->
  path_of dest g ≠ path_of dest f ->
  ¬ is_scratch (path_of dest g) -> ¬ is_scratch (path_of dest f) ->
  (∀ t, temp_of si = Some t -> temp_of s ≠ Some t) ->
  winv dest fs0 fs' (g, si).
Proof.
  intros Ht Hf Hg Hne Hng Hnf Hdis. apply (winv_frame dest fs0 fs); [| |exact Hg].
  - exact (wtrans_elsewhere dest fs0 f s fs s' fs' _ Ht Hf Hne Hng).
  - intros t Hti. destruct (winv_temp dest fs0 fs g si t Hg Hti) as [Hsome Hsc].
    apply (wtrans_footprint dest f s fs s' fs' _ Ht).
    + intros ->. contradiction.
    + apply Hdis. exact Hti.
    + intros Hs'. destruct (wtrans_fresh dest f s fs s' fs' _ Ht Hs') as [Hs|[Hnone _]].
      * exact (Hdis t Hti Hs).
      * rewrite Hnone in Hsome. destruct Hsome as [? ?]. discriminate.
Qed.

Lemma files_inv_worker entries dest excludes fs0 c w j f s s' w' :
  distinct_targets H dest excludes entries ->
  fan_inv H entries excludes c ->
  files_inv H dest excludes fs0 c w ->
  c_workers c !! j = Some (f, s) -> wgone s = false ->
  wstep H f dest s w = (Returned s', w') ->
  files_inv H dest excludes fs0 (moved c j f s s') w'.
Proof.
  intros [Hdup Hnsc] (_ & Hsp & _) (Htmp & Hall & Hpend) Hl Hg Hs.
  pose proof (wstep_wtrans H f dest s w s' w' Hs Hg) as Ht.
  destruct c as [m wg ws]. unfold files_inv, moved in *. simpl in *.
  set (pend := filter (fun f => kept H excludes f = true) (pending _)) in *.
  pose proof (take_drop_middle ws j (f, s) Hl) as Hdec.
  assert (Hins : <[j := (f, s')]> ws = take j ws ++ (f, s') :: drop (S j) ws)
    by (apply insert_take_drop; eapply lookup_lt_Some; exact Hl).
  set (l1 := take j ws) in *. set (l2 := drop (S j) ws) in *.
  rewrite Hins. rewrite <- Hdec in Htmp, Hall, Hsp. clear Hdec Hins.
  rewrite temps_app, temps_cons in Htmp. simpl in Htmp.
  apply Forall_app in Hall as [Hall1 Hall2].
  apply Forall_cons in Hall2 as [Hown Hall2].
  rewrite <- Hsp in Hdup, Hnsc. clear Hsp.
  rewrite !map_app in Hdup. rewrite map_app in Hnsc. simpl in Hdup, Hnsc.
  rewrite <- !app_assoc in Hdup. rewrite <- !app_assoc in Hnsc.
  simpl in Hdup, Hnsc.
  apply (NoDup_app_mid _ [path_of dest f]) in Hdup as [_ Hpf].
  specialize (Hpf _ (list_elem_of_here _ _)). destruct Hpf as [Hpf1 Hpf2].
  apply Forall_app in Hnsc as [Hnsc1 Hnsc2].
  apply Forall_cons in Hnsc2 as [Hnf Hnsc2].
  apply Forall_app in Hnsc2 as [Hnsc2 Hnscp].
  pose proof Htmp as Htmp0.
  apply NoDup_app_mid in Htmp as [Htmp12 Hmid].
  assert (Hothers : ∀ l, (∀ g si, (g, si) ∈ l -> path_of dest g ≠ path_of dest f) ->
            Forall (fun g => ¬ is_scratch (path_of dest g)) (map fst l) ->
            (∀ t, t ∈ option_list (temp_of s) -> t ∉ temps l) ->
            Forall (winv dest fs0 (files w)) l -> Forall (winv dest fs0 (files w')) l).
  { intros l Hpl Hnl Htl Hwl. apply Forall_forall. intros [g si] Hin.
    rewrite Forall_forall in Hwl. rewrite Forall_forall in Hnl.
    apply (winv_other dest fs0 (files w) (files w') f s s' g si Ht Hown (Hwl _ Hin)).
    - eapply Hpl. exact Hin.
    - apply (Hnl g). apply list_elem_of_fmap. exists (g, si). auto.
    - exact Hnf.
    - intros t Hti Hts. apply (Htl t).
      + rewrite Hts. left.
      + eapply temps_elem_2; eauto. }
  assert (Hpath : ∀ (l : list (zip.File * wstate)) g (si : wstate),
            path_of dest f ∉ map (path_of dest) (map fst l) ->
            (g, si) ∈ l -> path_of dest g ≠ path_of dest f).
  { intros l g si Hnot Hin Heq. apply Hnot. rewrite <- Heq.
    apply list_elem_of_fmap. exists g. split; [reflexivity|].
    apply list_elem_of_fmap. exists (g, si). auto. }
  split; [|split].
  - rewrite temps_app, temps_cons. simpl.
    destruct (temp_of s') as [t'|] eqn:Hs'; simpl; [|exact Htmp12].
    destruct (wtrans_fresh dest f s _ s' _ t' Ht Hs') as [Hsame|[Hnone _]].
    + rewrite Hsame in Htmp0. exact Htmp0.
    + apply NoDup_app in Htmp12 as (Hn1 & Hn12 & Hn2).
      assert (Hfresh : ∀ l, Forall (winv dest fs0 (files w)) l -> t' ∉ temps l).
      { intros l Hwl Hin. apply temps_elem in Hin as (g & si & Hin & Hti).
        rewrite Forall_forall in Hwl.
        destruct (winv_temp dest fs0 (files w) g si t' (Hwl _ Hin) Hti) as [[x Hx] _].
        congruence. }
      apply NoDup_app. split; [exact Hn1|]. split.
      * intros x Hx1 Hx2. apply elem_of_cons in Hx2 as [->|Hx2].
        { exact (Hfresh l1 Hall1 Hx1). }
        exact (Hn12 x Hx1 Hx2).
      * apply NoDup_cons. split; [exact (Hfresh l2 Hall2)|exact Hn2].
  - apply Forall_app. split; [|apply Forall_cons; split].
    + apply Hothers; try assumption.
      * intros g si. apply Hpath. exact Hpf1.
      * intros t Hin. apply Hmid. exact Hin.
    + exact (wtrans_own dest fs0 f s _ s' _ Ht Hnf Hown).
    + apply Hothers; try assumption.
      * intros g si. apply Hpath. intros Hin. apply Hpf2. apply elem_of_app. auto.
      * intros t Hin. apply Hmid. exact Hin.
  - rewrite Forall_forall in Hpend. rewrite Forall_forall in Hnscp.
    apply Forall_forall. intros g Hin.
    rewrite <- (Hpend g Hin).
    apply (wtrans_elsewhere dest fs0 f s _ s' _ _ Ht Hown); [|exact (Hnscp g Hin)].
    intros Heq. apply Hpf2. apply elem_of_app. right. rewrite <- Heq.
    apply list_elem_of_fmap. exists g. auto.
Qed.

Lemma files_inv_init entries dest excludes w :
  files_inv H dest excludes (files w) (mkConfig (MLoop entries) 0 []) w.
Proof.
  unfold files_inv. simpl. split; [constructor|]. split; [constructor|].
  apply Forall_forall. reflexivity.
Qed.


Lemma files_inv_main dest excludes fs0 c w :
  files_inv H dest excludes fs0 c w -> main_runnable c = true ->
  files_inv H dest excludes fs0 (main_step H dest excludes c) w.
Proof.
  destruct c as [m wg ws]. unfold files_inv, main_runnable, main_step, pending. simpl.
  intros (Htmp & Hall & Hpend) Hm.
  destruct m as [[|f rest]| |]; simpl in *; try discriminate.
  - auto.
  - rewrite filter_cons in Hpend.
    destruct (zip.IsDir f) eqn:Hd; [|destruct (pathMatches H (zip.Name f) excludes) eqn:Hp];
      simpl.
    + rewrite decide_False in Hpend by (unfold kept; rewrite Hd; discriminate). auto.
    + rewrite decide_False in Hpend by (unfold kept; rewrite Hd, Hp; discriminate). auto.
    + rewrite decide_True in Hpend by (unfold kept; rewrite Hd, Hp; reflexivity).
      apply Forall_cons in Hpend as [Hf Hpend]. split; [|split].
      * rewrite temps_app. simpl. rewrite app_nil_r. exact Htmp.
      * apply Forall_app. split; [exact Hall|]. constructor; [exact Hf|constructor].
      * exact Hpend.
  - rewrite Hm. simpl. auto.
Qed.

(** Both invariants hold at every moment of every schedule. *)
Lemma sync_inv n entries dest excludes w :
  distinct_targets H dest excludes entries ->
  ∃ c w', after H n entries dest excludes w = (Returned c, w')
          ∧ fan_inv H entries excludes c
          ∧ files_inv H dest excludes (files w) c w'.
Proof.
  intros Hdt. unfold after.
  apply (run_sched_ind H (fun c w' =>
    fan_inv H entries excludes c ∧ files_inv H dest excludes (files w) c w')).
  - intros c w0 [Hf Hi]. split; [exact Hf|exact Hi].
  - intros c w0 [Hf Hi] Hm. split.
    + apply fan_inv_main; assumption.
    + apply files_inv_main; assumption.
  - intros c w0 i f s s' w' [Hf Hi] Hl Hg Hs. split.
    + eapply fan_inv_worker; eauto.
    + eapply files_inv_worker; eauto.
  - split; [apply fan_inv_init|apply files_inv_init].
Qed.



End Sync.

(** ** Atomic replacement *)

(** Run alone, the state machine of a goroutine computes [extractDiff]
    followed by the report of its error. *)
Lemma solo_goroutine (H : Host) (f : zip.File) (dest : string) (w : World) :
  ∃ r w', goroutine H f dest w = (Returned r, w')
          ∧ solo H f dest 11 WStart w = (Returned (WGone r), w').
Proof.
  destruct w as [fs ds ls t sm js lu].
  unfold goroutine, extractDiff, hasDiff, solo, wstep, zip_File_read.
  unfold_prims. unfold_setters. wsimpl.
  run_all; eexists; eexists; split; reflexivity.
Qed.

Lemma rooted_not_scratch (p : string) : filepath.rooted p = true -> ¬ is_scratch p.
Proof.
  intros Hr [k ->]. unfold temp_name, tempDir in Hr. simpl in Hr. discriminate.
Qed.




(** Stopped after any number of actions, the goroutine of a changed entry
    has left the old file or installed the new one. *)
Example stale_file_solo :
  let f := entry "a.txt" "X" in
  let at_ n := snd (solo calm_host f "/srv/www" n WStart stale_world) in
  map (fun n => files (at_ n) !! "/srv/www/a.txt") [0; 3; 5; 7; 8; 9]
  = [Some (bytes_of "old"); Some (bytes_of "old"); Some (bytes_of "old");
     Some (bytes_of "old"); Some (bytes_of "old"); Some (bytes_of "X")]
  ∧ fst (solo calm_host f "/srv/www" 8 WStart stale_world)
    = Returned (WRename (bytes_of "X") "tmp/extract-4").
Proof. split; vm_compute; reflexivity. Qed.

(** Why the destination must not be a scratch name: deployed into
    [tempDir], an absent destination [tmp/extract-3] is the very name
    [os.CreateTemp] may draw, and it then exists, empty, before the entry is
    written. *)
Example scratch_name_as_destination :
  let f := entry "extract-3" "new" in
  let at_ n := snd (solo calm_host f "tmp" n WStart empty_world) in
  path_of "tmp" f = "tmp/extract-3"
  ∧ inside "tmp" f = true
  ∧ files empty_world !! "tmp/extract-3" = None
  ∧ files (at_ 5) !! "tmp/extract-3" = Some []
  ∧ files (at_ 8) !! "tmp/extract-3" = Some (bytes_of "new").
Proof. repeat split; vm_compute; reflexivity. Qed.


(** ** Idempotence of the synchroniser *)

Section Idle.

Variable H : Host.

Lemma wstep_dirs f dest s w s' w' :
  wstep H f dest s w = (Returned s', w') -> (∀ b, s ≠ WMkdir b) -> dirs w' = dirs w.
Proof.
  destruct w as [fs ds ls t sm js lu].
  destruct s; unfold wstep, zip_File_read; unfold_prims; unfold_setters; wsimpl;
    intros Hs Hn; try (exfalso; eapply Hn; reflexivity); revert Hs;
    run_all; intros [= <- <-]; reflexivity.
Qed.

(** With its entry in place, a goroutine reads and compares; it writes
    nothing. *)
Lemma qstate_step dest fs1 f s w s' w' :
  settled dest fs1 f -> files w = fs1 -> qstate dest fs1 (f, s) ->
  wgone s = false -> wstep H f dest s w = (Returned s', w') ->
  qstate dest fs1 (f, s') ∧ files w' = fs1 ∧ dirs w' = dirs w.
Proof.
  intros [Hex (c1 & Hc1 & Hsum)] Hfs Hq Hg Hs.
  pose proof (wstep_wtrans H f dest s w s' w' Hs Hg) as Ht.
  assert (Hd : dirs w' = dirs w).
  { apply (wstep_dirs f dest s w s' w' Hs). intros b ->. exact Hq. }
  rewrite Hfs in Ht. unfold qstate in *. simpl in *.
  inversion Ht; subst; simpl in *; try contradiction;
    try (split; [|split]; [exact I|reflexivity|exact Hd]).
  all: try (exfalso; congruence).
  - repeat split; assumption.
  - split; [|split; [reflexivity|exact Hd]]. split; [exact Hq|]. eauto.
  - exfalso. destruct Hq as (-> & c0 & [= _ <-] & Hc0). congruence.
Qed.

(** ... and when no call fails it returns nil without a line in the log. *)
Lemma cstate_step dest fs1 f s w s' w' :
  settled dest fs1 f -> files w = fs1 -> qstate dest fs1 (f, s) -> cstate (f, s) ->
  fault (answer H (tick w)) = None ->
  wgone s = false -> wstep H f dest s w = (Returned s', w') ->
  cstate (f, s') ∧ logs w' = logs w ∧ tick w <= tick w'.
Proof.
  intros [(Ho & Hc & Hcl & Hin) (c1 & Hc1 & Hsum)] Hfs Hq Hcs Hf Hg.
  destruct w as [fs ds ls t sm js lu]. unfold qstate, cstate in *. simpl in *. subst fs1.
  destruct s as [|b|b h|b|b|b|b t0|b t0|b t0|err|[u|err]|[u|err]];
    try contradiction; try discriminate;
    unfold wstep, zip_File_read; unfold_prims; unfold_setters; wsimpl;
    fold (path_of dest f); fold (inside dest f); rewrite ?Hf, ?Ho, ?Hc, ?Hcl, ?Hin; wsimpl.
  - intros [= <- <-]. simpl. repeat split; lia.
  - rewrite Hc1. intros [= <- <-]. simpl. repeat split; lia.
  - destruct Hq as (-> & c0 & -> & Hc0).
    assert (c0 = c1) by congruence. subst c0.
    unfold bytes_Equal. rewrite bool_decide_eq_true_2 by congruence.
    intros [= <- <-]. simpl. repeat split; lia.
  - intros [= <- <-]. simpl. repeat split; lia.
Qed.


Lemma worker_kept entries excludes c f s :
  fan_inv H entries excludes c -> (f, s) ∈ c_workers c ->
  f ∈ filter (fun f => kept H excludes f = true) entries.
Proof.
  intros (_ & Hsp & _) Hin. rewrite <- Hsp. apply elem_of_app. left.
  apply list_elem_of_fmap. exists (f, s). auto.
Qed.

(** Over entries that are all in place, no schedule writes. *)
Lemma idle_run n entries dest excludes w :
  Forall (settled dest (files w)) (filter (fun f => kept H excludes f = true) entries) ->
  ∃ c w', after H n entries dest excludes w = (Returned c, w')
          ∧ fan_inv H entries excludes c
          ∧ files w' = files w ∧ dirs w' = dirs w
          ∧ Forall (qstate dest (files w)) (c_workers c).
Proof.
  intros Hset. rewrite Forall_forall in Hset. unfold after.
  apply (run_sched_ind H (fun c w' =>
    fan_inv H entries excludes c ∧ files w' = files w ∧ dirs w' = dirs w
    ∧ Forall (qstate dest (files w)) (c_workers c))).
  - intros c w0 HP. exact HP.
  - intros c w0 (Hf & Hfs & Hds & Hq) Hm.
    split; [apply fan_inv_main; assumption|]. split; [exact Hfs|]. split; [exact Hds|].
    destruct c as [m wg ws]. unfold main_step. simpl in *.
    destruct m as [[|f rest]| |]; simpl; try exact Hq.
    + destruct (zip.IsDir f); [exact Hq|].
      destruct (pathMatches H (zip.Name f) excludes); [exact Hq|]. simpl.
      apply Forall_app. split; [exact Hq|]. repeat constructor.
    + destruct (wg =? 0); exact Hq.
  - intros c w0 i f s s' w' (Hf & Hfs & Hds & Hq) Hl Hg Hs.
    assert (Hin : (f, s) ∈ c_workers c) by (eapply list_elem_of_lookup_2; exact Hl).
    pose proof (Hset f (worker_kept entries excludes c f s Hf Hin)) as Hsf.
    rewrite Forall_forall in Hq.
    destruct (qstate_step dest (files w) f s w0 s' w' Hsf Hfs (Hq _ Hin) Hg Hs)
      as (Hq' & Hfs' & Hds').
    split; [eapply fan_inv_worker; eauto|]. split; [exact Hfs'|].
    split; [congruence|]. simpl.
    apply Forall_insert; [apply Forall_forall; exact Hq|exact Hq'].
  - split; [apply fan_inv_init|]. repeat split. constructor.
Qed.

(** ... and when no call fails, every goroutine returns nil and the log
    stays as it is. *)
Lemma calm_run n entries dest excludes w :
  Forall (settled dest (files w)) (filter (fun f => kept H excludes f = true) entries) ->
  (∀ t, tick w <= t -> fault (answer H t) = None) ->
  ∃ c w', after H n entries dest excludes w = (Returned c, w')
          ∧ Forall cstate (c_workers c) ∧ logs w' = logs w.
Proof.
  intros Hset Hcalm. rewrite Forall_forall in Hset. unfold after.
  destruct (run_sched_ind H (fun c w' =>
    (fan_inv H entries excludes c ∧ files w' = files w
     ∧ Forall (qstate dest (files w)) (c_workers c))
    ∧ Forall cstate (c_workers c) ∧ logs w' = logs w ∧ tick w <= tick w')
    dest excludes) with (n := n) (c := mkConfig (MLoop entries) 0 []) (w := w)
    as (c & w' & Hrun & _ & Hcs & Hlogs & _).
  - intros c w0 (HP & Hc & Hl & Ht). repeat split; try assumption; try apply HP.
    simpl. lia.
  - intros c w0 ((Hf & Hfs & Hq) & Hc & Hl & Ht) Hm.
    split; [split; [apply fan_inv_main; assumption|split; [exact Hfs|]]|].
    + destruct c as [m wg ws]. unfold main_step. simpl in *.
      destruct m as [[|f rest]| |]; simpl; try exact Hq.
      * destruct (zip.IsDir f); [exact Hq|].
        destruct (pathMatches H (zip.Name f) excludes); [exact Hq|]. simpl.
        apply Forall_app. split; [exact Hq|]. repeat constructor.
      * destruct (wg =? 0); exact Hq.
    + split; [|split; assumption].
      destruct c as [m wg ws]. unfold main_step. simpl in *.
      destruct m as [[|f rest]| |]; simpl; try exact Hc.
      * destruct (zip.IsDir f); [exact Hc|].
        destruct (pathMatches H (zip.Name f) excludes); [exact Hc|]. simpl.
        apply Forall_app. split; [exact Hc|]. repeat constructor.
      * destruct (wg =? 0); exact Hc.
  - intros c w0 i f s s' w' ((Hf & Hfs & Hq) & Hc & Hl & Ht) Hlk Hg Hs.
    assert (Hin : (f, s) ∈ c_workers c) by (eapply list_elem_of_lookup_2; exact Hlk).
    pose proof (Hset f (worker_kept entries excludes c f s Hf Hin)) as Hsf.
    rewrite Forall_forall in Hq. rewrite Forall_forall in Hc.
    destruct (qstate_step dest (files w) f s w0 s' w' Hsf Hfs (Hq _ Hin) Hg Hs)
      as (Hq' & Hfs' & _).
    destruct (cstate_step dest (files w) f s w0 s' w' Hsf Hfs (Hq _ Hin) (Hc _ Hin)
                (Hcalm _ Ht) Hg Hs) as (Hc' & Hl' & Ht').
    split; [split; [eapply fan_inv_worker; eauto|split; [exact Hfs'|]]|].
    + simpl. apply Forall_insert; [apply Forall_forall; exact Hq|exact Hq'].
    + split; [|split; [congruence|lia]].
      simpl. apply Forall_insert; [apply Forall_forall; exact Hc|exact Hc'].
  - split; [split; [apply fan_inv_init|split; [reflexivity|constructor]]|].
    split; [constructor|]. split; [reflexivity|lia].
  - exists c, w'. auto.
Qed.

(** A first run in which no entry failed leaves every kept entry in place. *)
Lemma first_run_settles entries dest excludes w c1 w1 :
  distinct_targets H dest excludes entries ->
  fan_out H entries dest excludes w = (Returned c1, w1) ->
  Forall (fun p => p.2 = WGone (Ok tt)) (c_workers c1) ->
  Forall (settled dest (files w1)) (filter (fun f => kept H excludes f = true) entries).
Proof.
  intros Hdt Hrun Hok.
  destruct (sync_inv H (fan_out_fuel entries) entries dest excludes w Hdt)
    as (c & w' & Hrun' & Hfan & (_ & Hall & _)).
  unfold after in Hrun'. unfold fan_out in Hrun. rewrite Hrun in Hrun'.
  injection Hrun' as <- <-.
  assert (Hnil : runnable c1 = []).
  { eapply run_sched_done; [|exact Hrun]. unfold cweight, fan_out_fuel. simpl. lia. }
  destruct (fan_inv_final H entries excludes c1 Hfan Hnil) as (_ & Hsp & _).
  rewrite <- Hsp. apply Forall_forall. intros f Hin.
  apply list_elem_of_fmap in Hin as ([f' s] & -> & Hin).
  rewrite Forall_forall in Hok, Hall. specialize (Hok _ Hin). specialize (Hall _ Hin).
  simpl in Hok. subst s. unfold winv in Hall. simpl in Hall.
  destruct Hall as (Hex & Hsy & _). split; assumption.
Qed.

End Idle.

Lemma zip_OpenReader_unchanged (H : Host) filename w r w' :
  zip_OpenReader H filename w = (r, w') -> unchanged w w'.
Proof.
  destruct w as [fs ds ls t sm js lu]. unfold_prims. unfold_setters. wsimpl.
  intros [= _ <-]. repeat split.
Qed.

(** C6, as the code has it: when the kept entries of the archive go to
    pairwise distinct paths, none of them a scratch name, and no entry
    failed in the first run, then a second run over the same entries
    writes nothing, whatever the schedule and whatever fails: the files
    and the directories are those the first run left; and when no call
    fails in the second run, every goroutine returns nil and nothing is
    logged: every entry is skipped. *)
Theorem C6_second_run_is_idle (H : Host) (filename dest : string)
  (excludes : list string) (entries : list zip.File)
  (w wa w1 wb : World) (c1 : config) :
  distinct_targets H dest excludes entries ->
  zip_OpenReader H filename w = (Returned (Ok entries), wa) ->
  fan_out H entries dest excludes wa = (Returned c1, w1) ->
  Forall (fun p => p.2 = WGone (Ok tt)) (c_workers c1) ->
  zip_OpenReader H filename w1 = (Returned (Ok entries), wb) ->
  unzipDiff H filename dest excludes w = (Returned (Ok tt), w1)
  ∧ ∃ c2 w2,
      fan_out H entries dest excludes wb = (Returned c2, w2)
      ∧ unzipDiff H filename dest excludes w1 = (Returned (Ok tt), w2)
      ∧ files w2 = files w1 ∧ dirs w2 = dirs w1
      ∧ map fst (c_workers c2) = map fst (c_workers c1)
      ∧ Forall (fun p => ∃ r, p.2 = WGone r) (c_workers c2)
      ∧ ((∀ t, tick wb <= t -> fault (answer H t) = None) ->
         Forall (fun p => p.2 = WGone (Ok tt)) (c_workers c2) ∧ logs w2 = logs w1).
Proof.
  intros Hdt Hopen1 Hrun1 Hok Hopen2.
  split.
  { rewrite (unzipDiff_opened H filename dest excludes w entries wa Hopen1).
    rewrite Hrun1. reflexivity. }
  pose proof (first_run_settles H entries dest excludes wa c1 w1 Hdt Hrun1 Hok) as Hset.
  destruct (zip_OpenReader_unchanged H filename w1 _ wb Hopen2)
    as (Hfs & Hds & Hls & _).
  rewrite <- Hfs in Hset.
  destruct (fan_out_final H entries dest excludes wb) as (c2 & w2 & Hrun2 & Hm & Hsp & Hgone).
  destruct (idle_run H (fan_out_fuel entries) entries dest excludes wb Hset)
    as (c & w' & Hrun & _ & Hfs2 & Hds2 & _).
  unfold after in Hrun. unfold fan_out in Hrun2. rewrite Hrun2 in Hrun.
  injection Hrun as <- <-.
  exists c2, w2. split; [exact Hrun2|]. split.
  { rewrite (unzipDiff_opened H filename dest excludes w1 entries wb Hopen2).
    unfold fan_out. rewrite Hrun2. reflexivity. }
  split; [congruence|]. split; [congruence|]. split.
  { destruct (fan_out_final H entries dest excludes wa) as (c1' & w1' & Hr & _ & Hsp1 & _).
    rewrite Hrun1 in Hr. injection Hr as <- <-. congruence. }
  split.
  { eapply Forall_impl; [exact Hgone|]. intros [f s] Hg. simpl in *.
    destruct s; try discriminate. eauto. }
  intros Hcalm.
  destruct (calm_run H (fan_out_fuel entries) entries dest excludes wb Hset Hcalm)
    as (c & w' & Hrun & Hcs & Hlogs).
  unfold after in Hrun. rewrite Hrun2 in Hrun. injection Hrun as <- <-.
  split; [|congruence].
  apply Forall_forall. intros [f s] Hin.
  rewrite Forall_forall in Hgone, Hcs. specialize (Hgone _ Hin). specialize (Hcs _ Hin).
  unfold cstate in Hcs. simpl in *.
  destruct s as [|b|b h|b|b|b|b t|b t|b t|err|[[]|err]|[[]|err]];
    try discriminate; try contradiction. reflexivity.
Qed.

Lemma two_entries_distinct_any (H : Host) : distinct_targets H "/srv/www" [] two_entries.
Proof.
  split.
  - apply (bool_decide_unpack _). vm_compute. reflexivity.
  - repeat constructor; apply rooted_not_scratch; reflexivity.
Defined.

Lemma C6_second_run_is_idle_witness :
  let H := archive_host two_entries in
  let w := set_files {[ "pkg.zip" := [] ]} empty_world in
  let wa := set_tick 1 w in
  let run1 := fan_out H two_entries "/srv/www" [] wa in
  let c1 := final_config run1 in
  let w1 := snd run1 in
  let wb := set_tick (S (tick w1)) w1 in
  (distinct_targets H "/srv/www" [] two_entries
   ∧ zip_OpenReader H "pkg.zip" w = (Returned (Ok two_entries), wa)
   ∧ run1 = (Returned c1, w1)
   ∧ Forall (fun p => p.2 = WGone (Ok tt)) (c_workers c1)
   ∧ zip_OpenReader H "pkg.zip" w1 = (Returned (Ok two_entries), wb))
  ∧ unzipDiff H "pkg.zip" "/srv/www" [] w = (Returned (Ok tt), w1)
  ∧ ∃ c2 w2,
      fan_out H two_entries "/srv/www" [] wb = (Returned c2, w2)
      ∧ unzipDiff H "pkg.zip" "/srv/www" [] w1 = (Returned (Ok tt), w2)
      ∧ files w2 = files w1 ∧ dirs w2 = dirs w1
      ∧ map fst (c_workers c2) = map fst (c_workers c1)
      ∧ Forall (fun p => ∃ r, p.2 = WGone r) (c_workers c2)
      ∧ ((∀ t, tick wb <= t -> fault (answer H t) = None) ->
         Forall (fun p => p.2 = WGone (Ok tt)) (c_workers c2) ∧ logs w2 = logs w1).
Proof.
  intros H w wa run1 c1 w1 wb.
  assert (Hd : distinct_targets H "/srv/www" [] two_entries)
    by exact (two_entries_distinct_any H).
  assert (Ho1 : zip_OpenReader H "pkg.zip" w = (Returned (Ok two_entries), wa))
    by reflexivity.
  assert (Hr1 : run1 = (Returned c1, w1)) by (vm_compute; reflexivity).
  assert (Hok : Forall (fun p => p.2 = WGone (Ok tt)) (c_workers c1))
    by (vm_compute; repeat constructor).
  assert (Ho2 : zip_OpenReader H "pkg.zip" w1 = (Returned (Ok two_entries), wb))
    by (vm_compute; reflexivity).
  split; [exact (conj Hd (conj Ho1 (conj Hr1 (conj Hok Ho2))))|].
  exact (C6_second_run_is_idle H "pkg.zip" "/srv/www" [] two_entries w wa w1 wb c1
           Hd Ho1 Hr1 Hok Ho2).
Defined.

(** The scenario of the specification: an empty destination receives both
    files; the same archive again writes and logs nothing. *)
Example two_entries_twice :
  let H := archive_host two_entries in
  let w := set_files {[ "pkg.zip" := [] ]} empty_world in
  let w1 := snd (unzipDiff H "pkg.zip" "/srv/www" [] w) in
  let w2 := snd (unzipDiff H "pkg.zip" "/srv/www" [] w1) in
  files w1 = {[ "pkg.zip" := []; "/srv/www/a.txt" := bytes_of "X";
                "/srv/www/b/c.txt" := bytes_of "Y" ]}
  ∧ logs w1 = ["[Info] Extracting: a.txt"; "[Info] Extracting: b/c.txt"]
  ∧ files w2 = files w1 ∧ dirs w2 = dirs w1 ∧ logs w2 = logs w1.
Proof. repeat split; vm_compute; reflexivity. Qed.

(** ... and with [a.txt] changed and [b/.*] excluded, only [a.txt] is
    replaced. *)
Example changed_and_excluded :
  let H0 := archive_host two_entries in
  let H1 := archive_host [entry "a.txt" "Z"; entry "b/c.txt" "Q"] in
  let w := set_files {[ "pkg.zip" := [] ]} empty_world in
  let w1 := snd (unzipDiff H0 "pkg.zip" "/srv/www" [] w) in
  let w2 := snd (unzipDiff H1 "pkg.zip" "/srv/www" ["b/.*"] w1) in
  files w2 = {[ "pkg.zip" := []; "/srv/www/a.txt" := bytes_of "Z";
                "/srv/www/b/c.txt" := bytes_of "Y" ]}.
Proof. vm_compute. reflexivity. Qed.

(** C6, as stated, fails: an archive may hold the same name twice. After a
    first run the destination holds one of the two contents, so in the
    second run the goroutine of the other entry finds a different
    fingerprint and writes: at the fourteenth scheduling decision of the
    second run the file holds [X] again, and two extractions are logged. *)
Lemma C6_same_name_twice :
  let H := archive_host twice_archive in
  let w := set_files {[ "pkg.zip" := [] ]} empty_world in
  let w1 := snd (unzipDiff H "pkg.zip" "/srv/www" [] w) in
  let wb := set_tick (S (tick w1)) w1 in
  let w2 := snd (unzipDiff H "pkg.zip" "/srv/www" [] w1) in
  fst (unzipDiff H "pkg.zip" "/srv/www" [] w) = Returned (Ok tt)
  ∧ files w1 !! "/srv/www/a.txt" = Some (bytes_of "Y")
  ∧ zip_OpenReader H "pkg.zip" w1 = (Returned (Ok twice_archive), wb)
  ∧ files (snd (after H 14 twice_archive "/srv/www" [] wb)) !! "/srv/www/a.txt"
    = Some (bytes_of "X")
  ∧ logs w2 = logs w1 ++ ["[Info] Extracting: a.txt"; "[Info] Extracting: a.txt"].
Proof. repeat split; vm_compute; reflexivity. Qed.
(** ** The listing: which artifact is the latest *)

Section Listing.

Variable H : Host.

Lemma insert_newest_perm a l : insert_newest a l ≡ₚ a :: l.
Proof.
  induction l as [|x l IH]; cbn; [reflexivity|].
  destruct (Artifact.CreatedAt x <? Artifact.CreatedAt a)%Z; [reflexivity|].
  rewrite IH. apply Permutation_swap.
Qed.

Lemma sort_newest_perm l : sort_newest l ≡ₚ l.
Proof.
  induction l as [|x l IH]; cbn; [reflexivity|].
  unfold sort_newest in *. rewrite insert_newest_perm. now rewrite IH.
Qed.

(** Newest first: every element is at least as new as those after it. *)
Lemma insert_newest_sorted a l :
  StronglySorted (fun x y => (Artifact.CreatedAt y <= Artifact.CreatedAt x)%Z) l ->
  StronglySorted (fun x y => (Artifact.CreatedAt y <= Artifact.CreatedAt x)%Z)
    (insert_newest a l).
Proof.
  induction 1 as [|x l Hs IH Hx]; cbn.
  - repeat constructor.
  - destruct (Z.ltb_spec (Artifact.CreatedAt x) (Artifact.CreatedAt a)) as [Hlt|Hge].
    + constructor; [constructor; assumption|].
      constructor; [lia|]. eapply Forall_impl; [exact Hx|]. cbn. intros. lia.
    + constructor; [exact IH|].
      rewrite insert_newest_perm. constructor; [lia|exact Hx].
Qed.

Lemma sort_newest_sorted l :
  StronglySorted (fun x y => (Artifact.CreatedAt y <= Artifact.CreatedAt x)%Z)
    (sort_newest l).
Proof.
  induction l as [|x l IH]; cbn; [constructor|].
  apply insert_newest_sorted, IH.
Qed.

(** The first element of a list sorted newest first that satisfies a test
    is at least as new as every element that satisfies it. *)
Lemma find_sorted_newest (test : Artifact.t -> bool) l a :
  StronglySorted (fun x y => (Artifact.CreatedAt y <= Artifact.CreatedAt x)%Z) l ->
  find test l = Some a ->
  a ∈ l ∧ test a = true
  ∧ ∀ x, x ∈ l -> test x = true -> (Artifact.CreatedAt x <= Artifact.CreatedAt a)%Z.
Proof.
  induction 1 as [|y l Hs IH Hy]; cbn; [discriminate|].
  destruct (test y) eqn:Hty.
  - intros [= <-]. split; [left|]. split; [exact Hty|].
    intros x Hx _. apply elem_of_cons in Hx as [->|Hx]; [lia|].
    rewrite Forall_forall in Hy. now apply Hy.
  - intros Hf. destruct (IH Hf) as (Hin & Hta & Hmax).
    split; [now right|]. split; [exact Hta|].
    intros x Hx Htx. apply elem_of_cons in Hx as [->|Hx]; [congruence|]. now apply Hmax.
Qed.

Lemma find_none_iff {A} (test : A -> bool) (l : list A) :
  find test l = None <-> ∀ x, x ∈ l -> test x = false.
Proof.
  induction l as [|y l IH]; cbn.
  - split; [intros _ x Hx; inversion Hx|reflexivity].
  - destruct (test y) eqn:Hty.
    + split; [discriminate|]. intros Hall. specialize (Hall y (list_elem_of_here _ _)).
      congruence.
    + rewrite IH. split.
      * intros Hall x Hx. apply elem_of_cons in Hx as [->|Hx]; auto.
      * intros Hall x Hx. apply Hall. now right.
Qed.

(** What [getLatestArtifact] returns, by cases on the host's answers. *)
Lemma getLatestArtifact_cases j w :
  fst (getLatestArtifact H j w) =
  Returned
    match fault (answer H (tick w)) with
    | Some r => Err (ErrFault r)
    | None =>
        match fault (answer H (S (tick w))) with
        | Some r => Err (ErrFault r)
        | None =>
            match decode_artifacts H (response_body H w) with
            | Err err => Err err
            | Ok artifacts =>
                match find (fun a => String.eqb (Artifact.Name a) (Job.ArtifactName j))
                           (sort_newest artifacts) with
                | Some a => Ok a
                | None => Err ErrNoArtifact
                end
            end
        end
    end.
Proof.
  unfold getLatestArtifact, response_body. unfold_prims. unfold_setters. wsimpl.
  destruct (fault (answer H (tick w))); wsimpl; [reflexivity|].
  destruct (fault (answer H (S (tick w)))); wsimpl; [reflexivity|].
  destruct (decode_artifacts H _); wsimpl; [|reflexivity].
  destruct (find _ _); reflexivity.
Qed.

(** X1: An artifact that [getLatestArtifact] returns is one of the listing the
    server sent, carries the job's artifact name, and no artifact of that
    name in the listing is newer; whether it has expired plays no part. *)
Theorem X1_getLatestArtifact_newest_named (j : Job.t) (w : World) (a : Artifact.t) :
  fst (getLatestArtifact H j w) = Returned (Ok a) ->
  ∃ artifacts,
    decode_artifacts H (response_body H w) = Ok artifacts
    ∧ a ∈ artifacts ∧ named j a
    ∧ ∀ x, x ∈ artifacts -> named j x ->
           (Artifact.CreatedAt x <= Artifact.CreatedAt a)%Z.
Proof.
  rewrite getLatestArtifact_cases.
  destruct (fault (answer H (tick w))); [discriminate|].
  destruct (fault (answer H (S (tick w)))); [discriminate|].
  destruct (decode_artifacts H _) as [artifacts|]; [|discriminate].
  destruct (find _ _) as [a'|] eqn:Hfind; [|discriminate].
  intros [= <-]. exists artifacts. split; [reflexivity|].
  apply find_sorted_newest in Hfind as (Hin & Hname & Hmax); [|apply sort_newest_sorted].
  apply String.eqb_eq in Hname.
  split; [now rewrite <- (sort_newest_perm artifacts)|]. split; [exact Hname|].
  intros x Hx Hn. apply Hmax; [now rewrite (sort_newest_perm artifacts)|]. now apply String.eqb_eq.
Qed.

(** X2: When the request succeeds and the listing decodes, [getLatestArtifact]
    fails with "no artifact found" exactly when no artifact of the listing
    carries the job's artifact name; an empty listing is one such. *)
Theorem X2_getLatestArtifact_no_artifact (j : Job.t) (w : World)
  (artifacts : list Artifact.t) :
  request_succeeds H w ->
  decode_artifacts H (response_body H w) = Ok artifacts ->
  fst (getLatestArtifact H j w) = Returned (Err ErrNoArtifact)
  <-> ∀ x, x ∈ artifacts -> ¬ named j x.
Proof.
  intros [H0 H1] Hdec. rewrite getLatestArtifact_cases, H0, H1, Hdec.
  destruct (find _ _) as [a|] eqn:Hfind.
  - split; [discriminate|]. intros Hnone. exfalso.
    apply find_sorted_newest in Hfind as (Hin & Hname & _); [|apply sort_newest_sorted].
    rewrite (sort_newest_perm artifacts) in Hin. apply String.eqb_eq in Hname.
    exact (Hnone a Hin Hname).
  - split; [intros _|reflexivity].
    intros x Hx. rewrite find_none_iff in Hfind.
    rewrite <- (sort_newest_perm artifacts) in Hx.
    specialize (Hfind x Hx). now apply String.eqb_neq in Hfind.
Qed.

End Listing.

Lemma X1_getLatestArtifact_newest_named_witness :
  let H := listing_host demo_listing in
  let newest := Artifact.mk 3 "dist" 2 "https://example.invalid/3.zip" true 9 in
  fst (getLatestArtifact H demo_job empty_world) = Returned (Ok newest)
  ∧ ∃ artifacts,
      decode_artifacts H (response_body H empty_world) = Ok artifacts
      ∧ newest ∈ artifacts ∧ named demo_job newest
      ∧ ∀ x, x ∈ artifacts -> named demo_job x ->
             (Artifact.CreatedAt x <= Artifact.CreatedAt newest)%Z.
Proof.
  intros H newest.
  assert (Hr : fst (getLatestArtifact H demo_job empty_world) = Returned (Ok newest))
    by (vm_compute; reflexivity).
  split; [exact Hr|].
  exact (X1_getLatestArtifact_newest_named H demo_job empty_world newest Hr).
Defined.

Lemma X2_getLatestArtifact_no_artifact_witness :
  let H := listing_host [Artifact.mk 2 "docs" 2 "https://example.invalid/2.zip" false 12] in
  let artifacts := [Artifact.mk 2 "docs" 2 "https://example.invalid/2.zip" false 12] in
  (request_succeeds H empty_world
   ∧ decode_artifacts H (response_body H empty_world) = Ok artifacts)
  ∧ (fst (getLatestArtifact H demo_job empty_world) = Returned (Err ErrNoArtifact)
     <-> ∀ x, x ∈ artifacts -> ¬ named demo_job x).
Proof.
  intros H artifacts.
  assert (Hreq : request_succeeds H empty_world) by (split; reflexivity).
  assert (Hdec : decode_artifacts H (response_body H empty_world) = Ok artifacts)
    by reflexivity.
  split; [exact (conj Hreq Hdec)|].
  exact (X2_getLatestArtifact_no_artifact H demo_job empty_world artifacts Hreq Hdec).
Defined.

(** ** Files written through a scratch file: archive and ledger *)

Section Replace.

Variable H : Host.

(** A scratch file that was created, written and renamed leaves the old
    files with the target replaced. *)
Lemma replaced_through_temp (fs : gmap string bytes) t target (g : bytes -> bytes) data :
  fs !! t = None ->
  alter g t (<[t := []]> fs) !! t = Some data ->
  <[target := data]> (delete t (alter g t (<[t := []]> fs))) = <[target := data]> fs.
Proof.
  intros Hfresh _. apply map_eq. intros p.
  destruct (decide (p = target)) as [->|Hpt]; [now rewrite !lookup_insert_eq|].
  rewrite !lookup_insert_ne by congruence.
  destruct (decide (p = t)) as [->|Hp]; [now rewrite lookup_delete_eq|].
  rewrite lookup_delete_ne, lookup_alter_ne, lookup_insert_ne by congruence. reflexivity.
Qed.

Lemma altered_temp_elsewhere (fs : gmap string bytes) pattern k (g : bytes -> bytes) p :
  ¬ is_temp pattern p ->
  alter g (temp_name tempDir pattern k) (<[temp_name tempDir pattern k := []]> fs) !! p
  = fs !! p.
Proof.
  intros Hp. assert (temp_name tempDir pattern k ≠ p) by (intros <-; apply Hp; now exists k).
  rewrite lookup_alter_ne, lookup_insert_ne by assumption. reflexivity.
Qed.

Lemma through_temp_outcome pattern data target w :
  all_or_nothing pattern target data w (through_temp H pattern data target w).
Proof.
  destruct w as [fs ds ls t sm js lu]. unfold through_temp, all_or_nothing, same_but_temp.
  unfold_prims. unfold_setters. wsimpl.
  destruct (fault (answer H t)); wsimpl; [auto|].
  destruct (bool_decide (is_Some (fs !! _)) || bool_decide (_ ∈ ds)) eqn:Htaken; wsimpl; [auto|].
  apply orb_false_iff in Htaken as [Hfresh _].
  apply bool_decide_eq_false in Hfresh. rewrite <- eq_None_not_Some in Hfresh.
  destruct (fault (answer H (S t))); wsimpl.
  { split; [|auto]. intros p Hp. now apply altered_temp_elsewhere. }
  destruct (fault (answer H (S (S (S t))))); wsimpl.
  { split; [|auto]. intros p Hp. now apply altered_temp_elsewhere. }
  rewrite lookup_alter_eq, lookup_insert_eq. cbn [fmap option_fmap option_map].
  destruct (bool_decide (target ∈ ds)); wsimpl.
  { split; [|auto]. intros p Hp. now apply altered_temp_elsewhere. }
  destruct (bool_decide (volume H _ = volume H target)); wsimpl.
  - split; [|auto]. apply replaced_through_temp; [exact Hfresh|].
    now rewrite lookup_alter_eq, lookup_insert_eq.
  - split; [|auto]. intros p Hp. now apply altered_temp_elsewhere.
Qed.

Lemma saveJSON_through_temp filename v :
  saveJSON H filename v = through_temp H "tmp-*" (encode_ledger H v) filename.
Proof. reflexivity. Qed.

(** X3: [saveJSON] replaces the file as a whole or not at all: when it returns
    nil, the files are the old ones with [filename] holding the encoded
    value, and no scratch file is left; when it returns an error, every
    file that is not a scratch file [tmp/tmp-N] is as it was. It creates no
    directory, logs nothing and never ends the process. *)
Theorem X3_saveJSON_all_or_nothing (filename : string) (v : gmap string Time) (w : World) :
  let out := saveJSON H filename v w in
  match fst out with
  | Returned (Ok _) => files (snd out) = <[filename := encode_ledger H v]> (files w)
  | Returned (Err _) => same_but_temp "tmp-*" w (snd out)
  | Exited => False
  end
  ∧ dirs (snd out) = dirs w ∧ logs (snd out) = logs w.
Proof.
  cbn zeta. rewrite saveJSON_through_temp.
  exact (through_temp_outcome "tmp-*" (encode_ledger H v) filename w).
Qed.

Lemma downloadArtifact_outcome owner a filename w :
  all_or_nothing "artifact-tmp-*" (filepath.Join [artifactsDir; filename +:+ ".zip"])
    (response_body H w) w (downloadArtifact H owner a filename w).
Proof.
  pose proof (through_temp_outcome "artifact-tmp-*" (response_body H w)
                (filepath.Join [artifactsDir; filename +:+ ".zip"])
                (set_tick (S (S (tick w))) w)) as Hin.
  destruct w as [fs ds ls t sm js lu]. unfold response_body in *.
  unfold downloadArtifact. unfold all_or_nothing, through_temp in *. revert Hin.
  unfold_prims. unfold_setters. wsimpl.
  destruct (fault (answer H t)); wsimpl; [intros _; unfold same_but_temp; auto|].
  destruct (fault (answer H (S t))); wsimpl; [intros _; unfold same_but_temp; auto|].
  intros Hin. exact Hin.
Qed.

(** X4: [downloadArtifact] installs the archive as a whole or not at all: when
    it returns nil, the files are the old ones with the archive holding
    the body of the response, and no scratch file is left; when it returns
    an error, every file that is not a scratch file [tmp/artifact-tmp-N]
    is as it was. It creates no directory, logs nothing and never ends the
    process. *)
Theorem X4_downloadArtifact_all_or_nothing (owner : string) (a : Artifact.t)
  (filename : string) (w : World) :
  let out := downloadArtifact H owner a filename w in
  let archive := filepath.Join [artifactsDir; filename +:+ ".zip"] in
  match fst out with
  | Returned (Ok _) => files (snd out) = <[archive := response_body H w]> (files w)
  | Returned (Err _) => same_but_temp "artifact-tmp-*" w (snd out)
  | Exited => False
  end
  ∧ dirs (snd out) = dirs w ∧ logs (snd out) = logs w.
Proof.
  cbn zeta. pose proof (downloadArtifact_outcome owner a filename w) as Ho.
  unfold all_or_nothing in Ho. exact Ho.
Qed.

Lemma logFile_not_temp : ¬ is_temp "tmp-*" logFile.
Proof. intros [k Hk]. unfold temp_name, tempDir, logFile in Hk. simpl in Hk. discriminate. Qed.

Lemma markUpdate_outcome key t w :
  let out := markUpdate H key t w in
  lastUpdate (snd out) = <[key := t]> (lastUpdate w)
  ∧ match fst out with
    | Returned _ =>
        files (snd out) = <[logFile := encode_ledger H (lastUpdate (snd out))]> (files w)
        ∧ logs (snd out) = logs w
    | Exited => same_but_temp "tmp-*" w (snd out)
    end.
Proof.
  cbn zeta.
  pose proof (markUpdate_cases H key t w) as Hc. cbn zeta in Hc.
  pose proof (through_temp_outcome "tmp-*" (encode_ledger H (<[key := t]> (lastUpdate w)))
                logFile (set_lastUpdate (<[key := t]> (lastUpdate w)) w)) as Hs.
  rewrite <- saveJSON_through_temp in Hs. unfold all_or_nothing in Hs.
  pose proof (saveJSON_vars H logFile (<[key := t]> (lastUpdate w))
                (set_lastUpdate (<[key := t]> (lastUpdate w)) w)) as (_ & _ & Hlu).
  destruct (saveJSON H logFile _ _) as [[[u|err]|] w1]; wsimpl.
  - rewrite Hc. wsimpl. destruct Hs as (Hf & _ & Hl).
    split; [exact Hlu|]. rewrite Hlu. split; [exact Hf|exact Hl].
  - rewrite Hc. wsimpl. destruct Hs as (Hf & _).
    split; [exact Hlu|]. exact Hf.
  - destruct Hs as [[] _].
Qed.

(** X5: [markUpdate] sets the entry in memory first. When it returns, the
    ledger file holds the encoding of the whole ledger in memory, the
    other files are as they were and nothing was logged; when it ends the
    process, the ledger file is as it was before the call. *)
Theorem X5_markUpdate_memory_and_disk (key : string) (t : Time) (w : World) :
  let out := markUpdate H key t w in
  lastUpdate (snd out) = <[key := t]> (lastUpdate w)
  ∧ match fst out with
    | Returned _ =>
        files (snd out) = <[logFile := encode_ledger H (lastUpdate (snd out))]> (files w)
        ∧ logs (snd out) = logs w
    | Exited => files (snd out) !! logFile = files w !! logFile
    end.
Proof.
  cbn zeta. destruct (markUpdate_outcome key t w) as [Hlu Hout].
  split; [exact Hlu|].
  destruct (fst (markUpdate H key t w)); [exact Hout|].
  apply Hout, logFile_not_temp.
Qed.

(** X6: What [saveJSON] wrote, [loadJSON] reads back: after a save that
    returned nil, a load of the same file whose two calls do not fail
    returns the saved ledger and changes nothing, provided the codec reads
    back what it wrote. *)
Theorem X6_saveJSON_loadJSON_round_trip (filename : string) (v : gmap string Time)
  (w w1 : World) :
  saveJSON H filename v w = (Returned (Ok tt), w1) ->
  fault (answer H (tick w1)) = None -> fault (answer H (S (tick w1))) = None ->
  decode_ledger H (encode_ledger H v) = Ok v ->
  loadJSON H (decode_ledger H) filename w1 = (Returned (Ok v), set_tick (2 + tick w1) w1).
Proof.
  intros Hsave H0 H1 Hcodec.
  pose proof (through_temp_outcome "tmp-*" (encode_ledger H v) filename w) as Ho.
  rewrite <- saveJSON_through_temp, Hsave in Ho. destruct Ho as (Hf & _). cbn [fst snd] in Hf.
  destruct w1 as [fs ds ls t sm js lu]. cbn [files tick] in *.
  unfold loadJSON. unfold_prims. unfold_setters. wsimpl.
  rewrite H0. wsimpl. rewrite Hf, lookup_insert_eq. wsimpl. rewrite H1. wsimpl.
  rewrite Hcodec. reflexivity.
Qed.

(** X7: [saveJSON] does not clean up after a failure: when the scratch file
    could be created and the save then returns an error, the scratch file
    is still there afterwards, and it is a file that did not exist
    before. *)
Theorem X7_saveJSON_leaves_scratch (filename : string) (v : gmap string Time)
  (w w1 w' : World) (t : string) (err : error) :
  os_CreateTemp H tempDir "tmp-*" w = (Returned (Ok t), w1) ->
  saveJSON H filename v w = (Returned (Err err), w') ->
  is_temp "tmp-*" t ∧ files w !! t = None ∧ is_Some (files w' !! t).
Proof.
  destruct w as [fs ds ls n sm js lu]. unfold saveJSON.
  unfold_prims. unfold_setters. wsimpl.
  destruct (fault (answer H n)); wsimpl; [discriminate|].
  destruct (bool_decide (is_Some (fs !! _)) || bool_decide (_ ∈ ds)) eqn:Htaken; wsimpl;
    [discriminate|].
  apply orb_false_iff in Htaken as [Hfresh _].
  apply bool_decide_eq_false in Hfresh. rewrite <- eq_None_not_Some in Hfresh.
  intros [= <- <-]. intros Hsave.
  split; [eexists; reflexivity|]. split; [exact Hfresh|].
  revert Hsave. run_all; intros [= <- <-]; wsimpl;
    rewrite lookup_alter_eq, lookup_insert_eq; eauto.
Qed.

End Replace.

Lemma X6_saveJSON_loadJSON_round_trip_witness :
  let H := startup_host in
  let w1 := snd (saveJSON H logFile demo_ledger empty_world) in
  (saveJSON H logFile demo_ledger empty_world = (Returned (Ok tt), w1)
   ∧ fault (answer H (tick w1)) = None ∧ fault (answer H (S (tick w1))) = None
   ∧ decode_ledger H (encode_ledger H demo_ledger) = Ok demo_ledger)
  ∧ loadJSON H (decode_ledger H) logFile w1
    = (Returned (Ok demo_ledger), set_tick (2 + tick w1) w1).
Proof.
  intros H w1.
  assert (Hs : saveJSON H logFile demo_ledger empty_world = (Returned (Ok tt), w1))
    by (vm_compute; reflexivity).
  assert (Hc : decode_ledger H (encode_ledger H demo_ledger) = Ok demo_ledger)
    by (vm_compute; reflexivity).
  split; [exact (conj Hs (conj eq_refl (conj eq_refl Hc)))|].
  exact (X6_saveJSON_loadJSON_round_trip H logFile demo_ledger empty_world w1
           Hs eq_refl eq_refl Hc).
Defined.

Lemma X7_saveJSON_leaves_scratch_witness :
  let H := split_volume_host in
  let t := "tmp/tmp-0" in
  let err := ErrCrossDevice "tmp/tmp-0" "log.json" in
  let w' := snd (saveJSON H logFile ∅ empty_world) in
  (os_CreateTemp H tempDir "tmp-*" empty_world
   = (Returned (Ok t), snd (os_CreateTemp H tempDir "tmp-*" empty_world))
   ∧ saveJSON H logFile ∅ empty_world = (Returned (Err err), w'))
  ∧ is_temp "tmp-*" t ∧ files empty_world !! t = None ∧ is_Some (files w' !! t).
Proof.
  intros H t err w'.
  assert (Hc : os_CreateTemp H tempDir "tmp-*" empty_world
               = (Returned (Ok t), snd (os_CreateTemp H tempDir "tmp-*" empty_world)))
    by (vm_compute; reflexivity).
  assert (Hs : saveJSON H logFile ∅ empty_world = (Returned (Err err), w'))
    by (vm_compute; reflexivity).
  split; [exact (conj Hc Hs)|].
  exact (X7_saveJSON_leaves_scratch H logFile ∅ empty_world _ w' t err Hc Hs).
Defined.

(** ** Start-up: what [init] establishes *)

Section Startup.

Variable H : Host.

Lemma secretMap_last_wins (secrets : list Secret.t) (m : gmap string string) owner :
  foldl (fun m s => <[Secret.Owner s := Secret.Token s]> m) m secrets !! owner
  = match token_of secrets owner with
    | Some token => Some token
    | None => m !! owner
    end.
Proof.
  unfold token_of. revert m. induction secrets as [|s l IH]; intros m; [reflexivity|].
  cbn [foldl]. rewrite IH. rewrite filter_cons.
  destruct (decide (Secret.Owner s = owner)) as [<-|Hne].
  - rewrite last_cons. destruct (last (filter _ l)); cbn; [reflexivity|].
    now rewrite lookup_insert_eq.
  - destruct (last (filter _ l)); cbn; [reflexivity|].
    now rewrite lookup_insert_ne.
Qed.

(** [loadJSON] reads and decodes; it changes nothing. *)
Lemma loadJSON_cases {A} (decode : bytes -> result A) file w :
  ∃ r k, loadJSON H decode file w = (Returned r, set_tick (k + tick w) w)
         ∧ ∀ a, r = Ok a -> holds decode (files w) file a ∧ k = 2.
Proof.
  destruct w as [fs ds ls t sm js lu]. unfold loadJSON, holds.
  unfold_prims. unfold_setters. wsimpl.
  destruct (fault (answer H t)); wsimpl.
  { eexists _, 1. split; [reflexivity|]. discriminate. }
  destruct (fs !! file) as [data|] eqn:Hdata; wsimpl.
  - destruct (fault (answer H (S t))); wsimpl.
    { eexists _, 2. split; [reflexivity|]. discriminate. }
    eexists _, 2. split; [reflexivity|]. intros a Ha. split; [|reflexivity]. eauto.
  - destruct (bool_decide (file ∈ ds)); wsimpl.
    + destruct (fault (answer H (S t))); wsimpl;
        (eexists _, 2; split; [reflexivity|]; discriminate).
    + eexists _, 1. split; [reflexivity|]. discriminate.
Qed.

(** Everything [init] has done when it returns. *)
Lemma init_returned (w w' : World) :
  init H w = (Returned tt, w') ->
  (∃ secrets, holds (decode_secrets H) (files w) secretFile secrets
              ∧ ∀ owner, secretMap w' !! owner = token_of secrets owner)
  ∧ holds (decode_jobs H) (files w) jobFile (jobs w')
  ∧ holds (decode_ledger H) (files w') logFile (lastUpdate w')
  ∧ tempDir ∈ dirs w' ∧ artifactsDir ∈ dirs w'
  ∧ (∀ p, is_Some (files w !! p) -> files w' !! p = files w !! p).
Proof.
  destruct w as [fs ds ls t sm js lu]. unfold init, loadJSON, holds, os_MkdirAll.
  change (ancestors tempDir) with [tempDir].
  change (ancestors artifactsDir) with [artifactsDir].
  unfold_prims. unfold_setters. wsimpl.
  repeat (case_head; wsimpl; simplify_eq; try discriminate).
  all: intros Hi; try discriminate; injection Hi as <-; wsimpl.
  all: simplify_map_eq.
  all: repeat split; eauto; try set_solver.
  all: try (eexists; split; [eauto|]; intros owner; rewrite secretMap_last_wins;
            rewrite lookup_empty; now destruct (token_of _ owner)).
  all: intros p [d Hp]; destruct (decide (p = logFile)) as [->|Hne];
       [|now simplify_map_eq].
  all: try match goal with
       | Hb : bool_decide (is_Some (_ !! logFile)) || _ = false |- _ =>
           apply orb_false_iff in Hb as [Hb _]; apply bool_decide_eq_false in Hb;
           rewrite <- eq_None_not_Some in Hb; congruence
       end.
  all: now simplify_map_eq.
Qed.

(** X8: When [init] returns, the package variables mirror the files: the
    secret file decodes to a list whose last entry for each owner is that
    owner's token in [secretMap]; the job file decodes to [jobs]; the
    ledger file exists and decodes to [lastUpdate]; and the scratch and
    archive directories exist. *)
Theorem X8_init_mirrors_files (w w' : World) :
  init H w = (Returned tt, w') ->
  (∃ secrets, holds (decode_secrets H) (files w) secretFile secrets
              ∧ ∀ owner, secretMap w' !! owner = token_of secrets owner)
  ∧ holds (decode_jobs H) (files w) jobFile (jobs w')
  ∧ holds (decode_ledger H) (files w') logFile (lastUpdate w')
  ∧ tempDir ∈ dirs w' ∧ artifactsDir ∈ dirs w'.
Proof.
  intros Hi. destruct (init_returned w w' Hi) as (Hs & Hj & Hl & Ht & Ha & _).
  repeat split; assumption.
Qed.


(** X10: The ledger survives a restart: once [markUpdate] has returned, a
    process that starts again on the same files and gets through [init]
    has the same ledger in memory, the new entry included, provided the
    codec reads back what it wrote. *)
Theorem X10_ledger_survives_restart (key : string) (t : Time) (w w1 w2 : World) :
  markUpdate H key t w = (Returned tt, w1) ->
  decode_ledger H (encode_ledger H (lastUpdate w1)) = Ok (lastUpdate w1) ->
  init H (restarted w1) = (Returned tt, w2) ->
  lastUpdate w2 = lastUpdate w1 ∧ lastUpdate w2 !! key = Some t.
Proof.
  intros Hm Hcodec Hi.
  pose proof (markUpdate_outcome H key t w) as Ho. cbn zeta in Ho. rewrite Hm in Ho.
  wsimpl. destruct Ho as (Hlu & Hf & _).
  destruct (init_returned _ _ Hi) as (_ & _ & (data & Hd & Hdec) & _ & _ & Hkeep).
  assert (files w1 !! logFile = Some (encode_ledger H (lastUpdate w1))) as Hdisk
    by (rewrite Hf; apply lookup_insert_eq).
  rewrite (Hkeep logFile) in Hd by (cbn; rewrite Hdisk; eauto).
  cbn in Hd. rewrite Hdisk in Hd. injection Hd as <-.
  assert (lastUpdate w2 = lastUpdate w1) as -> by congruence.
  split; [reflexivity|]. rewrite Hlu. apply lookup_insert_eq.
Qed.

End Startup.

Lemma X8_init_mirrors_files_witness :
  let H := startup_host in
  let w' := snd (init H startup_world) in
  init H startup_world = (Returned tt, w')
  ∧ (∃ secrets, holds (decode_secrets H) (files startup_world) secretFile secrets
                ∧ ∀ owner, secretMap w' !! owner = token_of secrets owner)
  ∧ holds (decode_jobs H) (files startup_world) jobFile (jobs w')
  ∧ holds (decode_ledger H) (files w') logFile (lastUpdate w')
  ∧ tempDir ∈ dirs w' ∧ artifactsDir ∈ dirs w'.
Proof.
  intros H w'.
  assert (Hi : init H startup_world = (Returned tt, w')) by (vm_compute; reflexivity).
  split; [exact Hi|]. exact (X8_init_mirrors_files H startup_world w' Hi).
Defined.

(** The later of two secrets of one owner is the one in force. *)
Example init_last_secret_wins :
  secretMap (snd (init startup_host startup_world)) !! "o" = Some "second"
  ∧ files (snd (init startup_host startup_world)) !! "log.json" = Some (bytes_of "{}").
Proof. split; vm_compute; reflexivity. Qed.

Lemma X10_ledger_survives_restart_witness :
  let H := startup_host in
  let w1 := snd (markUpdate H "o.r.dist" 5%Z startup_world) in
  let w2 := snd (init H (restarted w1)) in
  (markUpdate H "o.r.dist" 5%Z startup_world = (Returned tt, w1)
   ∧ decode_ledger H (encode_ledger H (lastUpdate w1)) = Ok (lastUpdate w1)
   ∧ init H (restarted w1) = (Returned tt, w2))
  ∧ lastUpdate w2 = lastUpdate w1 ∧ lastUpdate w2 !! "o.r.dist" = Some 5%Z.
Proof.
  intros H w1 w2.
  assert (Hm : markUpdate H "o.r.dist" 5%Z startup_world = (Returned tt, w1))
    by (vm_compute; reflexivity).
  assert (Hc : decode_ledger H (encode_ledger H (lastUpdate w1)) = Ok (lastUpdate w1))
    by (vm_compute; reflexivity).
  assert (Hi : init H (restarted w1) = (Returned tt, w2)) by (vm_compute; reflexivity).
  split; [exact (conj Hm (conj Hc Hi))|].
  exact (X10_ledger_survives_restart H "o.r.dist" 5%Z startup_world w1 w2 Hm Hc Hi).
Defined.

(** ** Archive synchroniser: what no schedule touches *)

Section Containment.

Variable H : Host.

Lemma contained_refl dest w : contained dest w w.
Proof. repeat split; auto. Qed.

Lemma contained_trans dest w1 w2 w3 :
  contained dest w1 w2 -> contained dest w2 w3 -> contained dest w1 w3.
Proof.
  intros (Ha & Hb & Hc) (Ha' & Hb' & Hc'). repeat split.
  - auto.
  - set_solver.
  - intros p Hp. rewrite Hc', Hc; auto.
Qed.

Lemma wstep_dirs_grow f dest s w s' w' :
  wstep H f dest s w = (Returned s', w') -> dirs w ⊆ dirs w'.
Proof.
  destruct w as [fs ds ls t sm js lu].
  destruct s; unfold wstep, zip_File_read; unfold_prims; unfold_setters; wsimpl;
    run_all; intros [= <- <-]; wsimpl; set_solver.
Qed.

(** One transition of a goroutine that is safe keeps the files contained
    and the goroutine safe. *)
Lemma wtrans_contained dest fs0 f s fs s' fs' :
  wtrans dest f s fs s' fs' ->
  wsafe dest fs0 (f, s) ->
  (∀ p, is_Some (fs0 !! p) -> is_Some (fs !! p)) ->
  wsafe dest fs0 (f, s')
  ∧ (∀ p, is_Some (fs0 !! p) -> is_Some (fs' !! p))
  ∧ (∀ p, outside dest p -> fs' !! p = fs !! p).
Proof.
  unfold wsafe, outside. cbn [fst snd].
  intros Ht [Hin Htmp] Hdom.
  inversion Ht; subst; cbn [temp_of] in *.
  all: try (split; [split; [first [exact I|exact Hin|idtac]|first [exact Htmp|idtac]]|
                    split; [exact Hdom|reflexivity]]).
  all: try match goal with Hx : extractable _ _ |- _ = true => apply Hx end.
  all: try (intros ? [=]; fail).
  - (* a scratch file is created *)
    split; [split; [exact Hin|]|split].
    + intros t' [= <-]. split; [assumption|].
      destruct (fs0 !! t) eqn:Ht0; [|reflexivity].
      destruct (Hdom t) as [x Hx]; [eauto|congruence].
    + intros p Hp. destruct (decide (p = t)) as [->|Hne];
        [rewrite lookup_insert_eq; eauto|rewrite lookup_insert_ne by congruence; auto].
    + intros p [_ Hp]. apply lookup_insert_ne. intros <-. contradiction.
  - (* the scratch file is written *)
    destruct (Htmp t eq_refl) as [Hsc Hnew].
    split; [split; [exact Hin|exact Htmp]|split].
    + intros p Hp. destruct (decide (p = t)) as [->|Hne];
        [rewrite Hnew in Hp; destruct Hp; discriminate|].
      rewrite lookup_alter_ne by congruence. auto.
    + intros p [_ Hp]. apply lookup_alter_ne. intros <-. contradiction.
  - (* the write fails *)
    destruct (Htmp t eq_refl) as [Hsc Hnew].
    split; [split; [exact I|intros ? [=]]|split].
    + intros p Hp. destruct (decide (p = t)) as [->|Hne];
        [rewrite Hnew in Hp; destruct Hp; discriminate|].
      rewrite lookup_alter_ne by congruence. auto.
    + intros p [_ Hp]. apply lookup_alter_ne. intros <-. contradiction.
  - (* the scratch file is renamed onto the destination *)
    destruct (Htmp t eq_refl) as [Hsc Hnew].
    split; [split; [exact I|intros ? [=]]|split].
    + intros p Hp. destruct (decide (p = path_of dest f)) as [->|Hne];
        [rewrite lookup_insert_eq; eauto|].
      rewrite lookup_insert_ne by congruence.
      rewrite lookup_delete_ne; [auto|]. intros <-. rewrite Hnew in Hp.
      destruct Hp; discriminate.
    + intros p [Hpre Hp]. rewrite lookup_insert_ne, lookup_delete_ne; [reflexivity| |].
      * intros <-. contradiction.
      * intros <-. unfold inside in Hin. congruence.
Qed.

(** Every schedule keeps the files contained. *)
Lemma fan_out_contained entries dest excludes :
  keeps (contained dest) (fan_out H entries dest excludes).
Proof.
  intros w. unfold fan_out.
  destruct (run_sched_ind H (fun c w' =>
              contained dest w w' ∧ Forall (wsafe dest (files w)) (c_workers c))
              dest excludes) with
    (n := fan_out_fuel entries) (c := mkConfig (MLoop entries) 0 []) (w := w)
    as (c' & w' & Hrun & Hc & _).
  - intros c w0 [Hc Hall]. split; [exact Hc|exact Hall].
  - intros c w0 [Hc Hall] _. split; [exact Hc|].
    destruct c as [m wg ws]. unfold main_step. cbn [c_main c_wg c_workers] in *.
    destruct m as [[|f rest]| |]; cbn [c_workers]; try exact Hall.
    + destruct (zip.IsDir f); [exact Hall|].
      destruct (pathMatches H (zip.Name f) excludes); [exact Hall|].
      cbn [c_workers]. apply Forall_app. split; [exact Hall|].
      constructor; [|constructor]. split; [exact I|]. intros t [=].
    + destruct (wg =? 0); exact Hall.
  - intros c w0 i f s s' w1 [Hc Hall] Hl Hg Hs.
    pose proof (wstep_wtrans H _ _ _ _ _ _ Hs Hg) as Ht.
    pose proof (wstep_dirs_grow _ _ _ _ _ _ Hs) as Hd.
    destruct Hc as (Hdom & Hdirs & Hout).
    assert (wsafe dest (files w) (f, s)) as Hsafe.
    { rewrite Forall_lookup in Hall. exact (Hall i _ Hl). }
    destruct (wtrans_contained _ _ _ _ _ _ _ Ht Hsafe Hdom) as (Hsafe' & Hdom' & Hout').
    split; [repeat split|].
    + exact Hdom'.
    + set_solver.
    + intros p Hp. rewrite Hout', Hout; auto.
    + unfold moved. cbn [c_workers]. apply Forall_insert; assumption.
  - split; [apply contained_refl|constructor].
  - rewrite Hrun. exact Hc.
Qed.

Lemma unzipDiff_contained filename dest excludes :
  keeps (contained dest) (unzipDiff H filename dest excludes).
Proof.
  unfold unzipDiff. apply keeps_bind; [apply contained_trans| |].
  - intros w. destruct w as [fs ds ls t sm js lu]. unfold contained.
    unfold_prims. unfold_setters. wsimpl. repeat split; auto.
  - intros [entries|err]; [|intros w; apply contained_refl].
    apply keeps_bind; [apply contained_trans|apply fan_out_contained|].
    intros _ w. apply contained_refl.
Qed.

(** X11: [unzipDiff] removes nothing: every file that existed before the call
    exists after it, and so does every directory, whatever the archive
    holds, whatever fails and however the goroutines are scheduled. A file
    that an older archive deployed and the newer one no longer holds stays
    in the destination. *)
Theorem X11_unzipDiff_never_deletes (filename dest : string) (excludes : list string)
  (w : World) (p : string) :
  let w' := snd (unzipDiff H filename dest excludes w) in
  (is_Some (files w !! p) -> is_Some (files w' !! p))
  ∧ (p ∈ dirs w -> p ∈ dirs w').
Proof.
  cbn zeta. destruct (unzipDiff_contained filename dest excludes w) as (Hdom & Hdirs & _).
  split; [apply Hdom|]. intros Hp. apply Hdirs, Hp.
Qed.

(** X12: [unzipDiff] writes only under the destination root and in the scratch
    directory: a path that does not begin with the cleaned destination
    followed by a separator, and that is not a scratch name
    [tmp/extract-N], holds after the call what it held before, whatever the
    names of the entries are and however the goroutines are scheduled. *)
Theorem X12_unzipDiff_stays_inside (filename dest : string) (excludes : list string)
  (w : World) (p : string) :
  strings_HasPrefix p (filepath.Clean dest +:+ "/") = false ->
  ¬ is_scratch p ->
  files (snd (unzipDiff H filename dest excludes w)) !! p = files w !! p.
Proof.
  intros Hpre Hsc.
  destruct (unzipDiff_contained filename dest excludes w) as (_ & _ & Hout).
  apply Hout. split; assumption.
Qed.


(** X14: An archive with nothing to extract changes nothing: when every entry
    is a directory or is excluded (an archive without entries is one),
    [unzipDiff] returns nil and leaves the files, the directories, the log
    and the variables as they were. *)
Theorem X14_unzipDiff_nothing_kept (filename dest : string) (excludes : list string)
  (entries : list zip.File) (w w1 : World) :
  zip_OpenReader H filename w = (Returned (Ok entries), w1) ->
  (∀ f, f ∈ entries -> zip.IsDir f = true ∨ pathMatches H (zip.Name f) excludes = true) ->
  fst (unzipDiff H filename dest excludes w) = Returned (Ok tt)
  ∧ unchanged w (snd (unzipDiff H filename dest excludes w)).
Proof.
  intros Hopen Hnone. rewrite (unzipDiff_opened H _ dest excludes _ _ _ Hopen).
  split; [reflexivity|]. cbn [snd].
  pose proof (zip_OpenReader_unchanged H _ _ _ _ Hopen) as Hu1.
  assert (unchanged w1 (snd (fan_out H entries dest excludes w1))) as Hu2.
  { unfold fan_out.
    destruct (run_sched_ind H (fun c w' =>
                unchanged w1 w' ∧ c_workers c = []
                ∧ ∀ f, f ∈ pending c -> f ∈ entries) dest excludes) with
      (n := fan_out_fuel entries) (c := mkConfig (MLoop entries) 0 []) (w := w1)
      as (c' & w' & Hrun & Hu & _).
    - intros c w0 (Hu & Hws & Hp). auto.
    - intros c w0 (Hu & Hws & Hp) _. split; [exact Hu|].
      destruct c as [m wg ws]. unfold main_step, pending in *.
      cbn [c_main c_wg c_workers] in *. subst ws.
      destruct m as [[|f rest]| |].
      + split; [reflexivity|]. intros f Hf. inversion Hf.
      + assert (∀ g, g ∈ rest -> g ∈ entries) as Hrest by (intros g Hg; apply Hp; now right).
        destruct (Hnone f (Hp f (list_elem_of_here _ _))) as [Hd | Hx].
        * rewrite Hd. split; [reflexivity|exact Hrest].
        * rewrite Hx. destruct (zip.IsDir f); (split; [reflexivity|exact Hrest]).
      + destruct (wg =? 0); (split; [reflexivity|]); intros f Hf; inversion Hf.
      + split; [reflexivity|exact Hp].
    - intros c w0 i f s s' w2 (Hu & Hws & Hp) Hl. rewrite Hws in Hl. discriminate.
    - split; [repeat split|]. split; [reflexivity|]. auto.
    - rewrite Hrun. exact Hu. }
  destruct Hu1 as (a1 & a2 & a3 & a4 & a5 & a6), Hu2 as (b1 & b2 & b3 & b4 & b5 & b6).
  repeat split; congruence.
Qed.

End Containment.

Lemma X12_unzipDiff_stays_inside_witness :
  let H := archive_host mixed_archive in
  (strings_HasPrefix "/etc/passwd" (filepath.Clean "/srv/www" +:+ "/") = false
   ∧ ¬ is_scratch "/etc/passwd")
  ∧ files (snd (unzipDiff H "pkg.zip" "/srv/www" [] guarded_world)) !! "/etc/passwd"
    = files guarded_world !! "/etc/passwd".
Proof.
  intros H.
  assert (Hpre : strings_HasPrefix "/etc/passwd" (filepath.Clean "/srv/www" +:+ "/") = false)
    by reflexivity.
  assert (Hsc : ¬ is_scratch "/etc/passwd") by (apply rooted_not_scratch; reflexivity).
  split; [exact (conj Hpre Hsc)|].
  exact (X12_unzipDiff_stays_inside H "pkg.zip" "/srv/www" [] guarded_world "/etc/passwd"
           Hpre Hsc).
Defined.


(** Without the exclusion the archive's content replaces the file. *)
Example unexcluded_is_replaced :
  files (snd (unzipDiff (archive_host two_entries) "pkg.zip" "/srv/www" [] guarded_world))
    !! "/srv/www/b/c.txt" = Some (bytes_of "Y").
Proof. vm_compute. reflexivity. Qed.

Lemma X14_unzipDiff_nothing_kept_witness :
  let H := archive_host two_entries in
  (zip_OpenReader H "pkg.zip" guarded_world
   = (Returned (Ok two_entries), set_tick 1 guarded_world)
   ∧ ∀ f, f ∈ two_entries ->
          zip.IsDir f = true ∨ pathMatches H (zip.Name f) [".*"] = true)
  ∧ fst (unzipDiff H "pkg.zip" "/srv/www" [".*"] guarded_world) = Returned (Ok tt)
  ∧ unchanged guarded_world (snd (unzipDiff H "pkg.zip" "/srv/www" [".*"] guarded_world)).
Proof.
  intros H.
  assert (Ho : zip_OpenReader H "pkg.zip" guarded_world
               = (Returned (Ok two_entries), set_tick 1 guarded_world)) by reflexivity.
  assert (Hall : ∀ f, f ∈ two_entries ->
                      zip.IsDir f = true ∨ pathMatches H (zip.Name f) [".*"] = true).
  { intros f Hf. unfold two_entries in Hf. right.
    apply elem_of_cons in Hf as [->|Hf]; [reflexivity|].
    apply elem_of_cons in Hf as [->|Hf]; [reflexivity|inversion Hf]. }
  split; [exact (conj Ho Hall)|].
  exact (X14_unzipDiff_nothing_kept H "pkg.zip" "/srv/www" [".*"] two_entries
           guarded_world (set_tick 1 guarded_world) Ho Hall).
Defined.

(** ** Job keys and degenerate deploy paths *)

Section Keys.

(** A text cut at its first separator [c] is cut in one way only. *)
Lemma cut_at_first (c : ascii) (a a' b b' : string) :
  has_char c a = false -> has_char c a' = false ->
  a +:+ String c b = a' +:+ String c b' -> a = a' ∧ b = b'.
Proof.
  revert a'. induction a as [|x a IH]; intros [|x' a'] Ha Ha' Heq; cbn in *.
  - injection Heq as ->. auto.
  - injection Heq as <- _. rewrite Ascii.eqb_refl in Ha'. discriminate.
  - injection Heq as -> _. rewrite Ascii.eqb_refl in Ha. discriminate.
  - injection Heq as <- Heq. apply orb_false_iff in Ha as [_ Ha], Ha' as [_ Ha'].
    destruct (IH a' Ha Ha' Heq) as [-> ->]. auto.
Qed.

(** X15: The ledger key and the archive name of a job determine its owner, its
    repository and its artifact name, as long as neither the owner nor the
    repository has a dot in its name. *)
Theorem X15_job_key_injective (j1 j2 : Job.t) :
  has_char "." (Job.Owner j1) = false -> has_char "." (Job.Repo j1) = false ->
  has_char "." (Job.Owner j2) = false -> has_char "." (Job.Repo j2) = false ->
  job_key j1 = job_key j2 ->
  Job.Owner j1 = Job.Owner j2 ∧ Job.Repo j1 = Job.Repo j2
  ∧ Job.ArtifactName j1 = Job.ArtifactName j2.
Proof.
  unfold job_key. intros Ho1 Hr1 Ho2 Hr2 Hk.
  apply cut_at_first in Hk as [Ho Hk]; [|assumption..].
  apply cut_at_first in Hk as [Hr Ha]; [|assumption..].
  auto.
Qed.

End Keys.

Lemma X15_job_key_injective_witness :
  let j1 := demo_job in
  let j2 := Job.mk "o" "r" "dist" ["b/.*"] "/srv/other" in
  (has_char "." (Job.Owner j1) = false ∧ has_char "." (Job.Repo j1) = false
   ∧ has_char "." (Job.Owner j2) = false ∧ has_char "." (Job.Repo j2) = false
   ∧ job_key j1 = job_key j2)
  ∧ Job.Owner j1 = Job.Owner j2 ∧ Job.Repo j1 = Job.Repo j2
  ∧ Job.ArtifactName j1 = Job.ArtifactName j2.
Proof.
  intros j1 j2. split; [repeat split|].
  exact (X15_job_key_injective j1 j2 eq_refl eq_refl eq_refl eq_refl eq_refl).
Defined.

(** With a dot in the repository name, two different jobs have one key:
    they share their ledger entry and their archive file. *)
Example job_key_collision :
  job_key dotted_job_1 = job_key dotted_job_2
  ∧ Job.Repo dotted_job_1 ≠ Job.Repo dotted_job_2
  ∧ Job.ArtifactName dotted_job_1 ≠ Job.ArtifactName dotted_job_2.
Proof. split; [reflexivity|]. split; discriminate. Qed.

Section RootAndCwd.

Variable H : Host.

Lemma split_slash_no_slash s : Forall (fun e => has_char "/" e = false) (split_slash s).
Proof.
  induction s as [|c s IH]; cbn; [repeat constructor|].
  destruct (Ascii.eqb_spec c "/") as [->|Hc]; [constructor; [reflexivity|exact IH]|].
  apply Ascii.eqb_neq in Hc.
  destruct (split_slash s) as [|h t]; [repeat constructor; cbn; now rewrite Hc|].
  apply Forall_cons in IH as [Hh Ht]. constructor; [cbn; now rewrite Hc, Hh|exact Ht].
Qed.

Lemma clean_elems_kept root out elems :
  Forall kept_elem out -> Forall (fun e => has_char "/" e = false) elems ->
  Forall kept_elem (filepath.clean_elems root out elems).
Proof.
  revert out. induction elems as [|e rest IH]; intros out Hout Hel; simpl.
  - apply Forall_rev. exact Hout.
  - apply Forall_cons in Hel as [He Hel].
    destruct (String.eqb_spec e ""); [now apply IH|].
    destruct (String.eqb_spec e "."); [now apply IH|].
    destruct (String.eqb_spec e "..") as [->|].
    + destruct out as [|top out'].
      * destruct root; apply IH; auto. repeat constructor; discriminate.
      * destruct (String.eqb_spec top "..").
        -- apply IH; auto. constructor; [repeat split; discriminate|exact Hout].
        -- apply IH; auto. now apply Forall_cons in Hout as [_ Hout].
    + apply IH; auto. constructor; [repeat split; assumption|exact Hout].
Qed.

Lemma append_empty_r (s : string) : s +:+ "" = s.
Proof.
  induction s as [|c s IH]; [reflexivity|].
  change (String c (s +:+ "") = String c s). now rewrite IH.
Qed.

Lemma prefix_cons a s1 b s2 :
  String.prefix (String a s1) (String b s2)
  = if ascii_dec a b then String.prefix s1 s2 else false.
Proof. reflexivity. Qed.

(** Joined elements begin neither with a separator nor with [./]. *)
Lemma strings_Join_head l :
  Forall kept_elem l ->
  String.prefix "/" (strings_Join l) = false ∧ String.prefix "./" (strings_Join l) = false.
Proof.
  destruct l as [|e rest]; [split; reflexivity|].
  intros Hl. apply Forall_cons in Hl as [(Hne & Hnd & Hns) _].
  assert (∃ tail, strings_Join (e :: rest) = e +:+ tail) as [tail ->].
  { destruct rest; [exists ""; symmetry; apply append_empty_r|eexists; reflexivity]. }
  destruct e as [|c e]; [contradiction|]. cbn [has_char] in Hns.
  apply orb_false_iff in Hns as [Hc Hns]. apply Ascii.eqb_neq in Hc.
  change (String c e +:+ tail) with (String c (e +:+ tail)).
  rewrite !prefix_cons. split.
  - destruct (ascii_dec "/" c); [congruence|reflexivity].
  - destruct (ascii_dec "." c) as [<-|]; [|reflexivity].
    destruct e as [|d e]; [contradiction|]. cbn [has_char] in Hns.
    apply orb_false_iff in Hns as [Hd _]. apply Ascii.eqb_neq in Hd.
    change (String d e +:+ tail) with (String d (e +:+ tail)).
    rewrite prefix_cons. destruct (ascii_dec "/" d); [congruence|reflexivity].
Qed.

(** A cleaned path begins neither with [./] nor with two separators. *)
Lemma Clean_head path :
  String.prefix "./" (filepath.Clean path) = false
  ∧ String.prefix "//" (filepath.Clean path) = false.
Proof.
  unfold filepath.Clean. destruct (String.eqb path ""); [split; reflexivity|].
  pose proof (strings_Join_head
                (filepath.clean_elems (filepath.rooted path) [] (split_slash path))
                (clean_elems_kept _ [] _ (Forall_nil_2 _) (split_slash_no_slash path)))
    as [Hs Hd].
  destruct (filepath.rooted path).
  - change ("/" +:+ ?b) with (String "/" b). rewrite !prefix_cons.
    destruct (ascii_dec "." "/"); [discriminate|].
    destruct (ascii_dec "/" "/"); [|contradiction]. split; [reflexivity|exact Hs].
  - destruct (String.eqb _ ""); [split; reflexivity|]. split; [exact Hd|].
    destruct (strings_Join _) as [|c b]; [reflexivity|]. rewrite prefix_cons in *.
    destruct (ascii_dec "/" c); [destruct b; discriminate Hs|reflexivity].
Qed.

Lemma Join_head (dest name : string) :
  String.prefix "./" (filepath.Join [dest; name]) = false
  ∧ String.prefix "//" (filepath.Join [dest; name]) = false.
Proof.
  cbn [filepath.Join].
  destruct (String.eqb dest ""); [|apply Clean_head].
  destruct (String.eqb name ""); [split; reflexivity|apply Clean_head].
Qed.

(** X16: A destination that cleans to the root [/] or to the working directory
    [.] (the empty path is one) takes no entry at all: the prefix that the
    check asks for, [//] or [./], is one that no joined path begins with,
    so every entry that can be read is refused as an illegal path and
    nothing is written. *)
Theorem X16_root_and_cwd_take_nothing (f : zip.File) (dest : string) (w : World) :
  filepath.Clean dest = "/" ∨ filepath.Clean dest = "." ->
  readable H f w ->
  extractDiff H f dest w
  = (Returned (Err (ErrIllegalPath (filepath.Join [dest; zip.Name f]))),
     set_tick (S (tick w)) w).
Proof.
  intros Hdest (Hf & Ho & Hc & Hcl).
  destruct (Join_head dest (zip.Name f)) as [Hdot Hroot].
  assert (strings_HasPrefix (filepath.Join [dest; zip.Name f])
            (filepath.Clean dest +:+ filepath.Separator) = false) as Hesc.
  { unfold strings_HasPrefix. destruct Hdest as [-> | ->]; assumption. }
  unfold extractDiff, zip_File_read. unfold_prims. wsimpl.
  rewrite Hf, Ho, Hc, Hcl, Hesc. reflexivity.
Qed.

End RootAndCwd.

Lemma X16_root_and_cwd_take_nothing_witness :
  let f := entry "a.txt" "X" in
  (filepath.Clean "." = "." ∧ readable calm_host f empty_world)
  ∧ extractDiff calm_host f "." empty_world
    = (Returned (Err (ErrIllegalPath (filepath.Join ["."; zip.Name f]))),
       set_tick (S (tick empty_world)) empty_world).
Proof.
  intros f.
  assert (Hr : readable calm_host f empty_world) by (repeat split).
  split; [exact (conj eq_refl Hr)|].
  exact (X16_root_and_cwd_take_nothing calm_host f "." empty_world (or_intror eq_refl) Hr).
Defined.

(** Deployed to the root, to the working directory or to the empty path,
    an ordinary entry is refused. *)
Example root_and_cwd_examples :
  let refused dest :=
    fst (extractDiff calm_host (entry "a.txt" "X") dest empty_world) in
  refused "/" = Returned (Err (ErrIllegalPath "/a.txt"))
  ∧ refused "." = Returned (Err (ErrIllegalPath "a.txt"))
  ∧ refused "" = Returned (Err (ErrIllegalPath "a.txt"))
  ∧ refused "./www" = Returned (Ok tt).
Proof. repeat split; vm_compute; reflexivity. Qed.

(** ** Exclusion patterns: lists of patterns and plain patterns *)

Section Patterns.

Variable H : Host.

(** X17: Whatever a list of patterns excludes, a list that holds all of its
    patterns excludes too: the order of the patterns and their repetition
    play no part, and a pattern added never brings a path back. *)
Theorem X17_pathMatches_monotone (p : string) (l1 l2 : list string) :
  l1 ⊆ l2 -> pathMatches H p l1 = true -> pathMatches H p l2 = true.
Proof.
  rewrite !pathMatches_existsb. intros Hsub Hm.
  apply existsb_exists in Hm as (e & He & Hm). apply existsb_exists.
  exists e. split; [|exact Hm].
  apply list_elem_of_In, Hsub, list_elem_of_In, He.
Qed.

End Patterns.

Lemma X17_pathMatches_monotone_witness :
  (["b/.*"] ⊆ ["a\.txt"; "b/.*"] ∧ pathMatches calm_host "b/c.txt" ["b/.*"] = true)
  ∧ pathMatches calm_host "b/c.txt" ["a\.txt"; "b/.*"] = true.
Proof.
  assert (Hsub : ["b/.*"] ⊆ ["a\.txt"; "b/.*"]).
  { intros e He. apply elem_of_cons in He as [->|He]; [right; left|inversion He]. }
  assert (Hm : pathMatches calm_host "b/c.txt" ["b/.*"] = true) by reflexivity.
  split; [exact (conj Hsub Hm)|].
  exact (X17_pathMatches_monotone calm_host "b/c.txt" _ _ Hsub Hm).
Defined.

Section PlainPatterns.

Import regexp.

Lemma is_plain_spec c :
  is_plain c = true ->
  is_ascii7 c = true
  ∧ Ascii.eqb c "(" = false ∧ Ascii.eqb c "|" = false ∧ Ascii.eqb c ")" = false
  ∧ Ascii.eqb c "^" = false ∧ Ascii.eqb c "$" = false ∧ Ascii.eqb c "." = false
  ∧ Ascii.eqb c "[" = false ∧ Ascii.eqb c "{" = false ∧ Ascii.eqb c "\" = false
  ∧ repeat_op c = None.
Proof.
  unfold is_plain, repeat_op. cbn [String.list_ascii_of_string existsb].
  intros Hp. apply andb_true_iff in Hp as [H7 Hn]. apply negb_true_iff in Hn.
  repeat (apply orb_false_iff in Hn as [? Hn]).
  repeat match goal with Hx : Ascii.eqb c _ = false |- _ => rewrite Hx; clear Hx end.
  repeat split; try reflexivity; assumption.
Qed.

(** Plain characters are pushed as literals, one node each. *)
Lemma parse_loop_plain cs rest stk lr :
  forallb is_plain cs = true -> cs ≠ [] ∨ lr = false ->
  parse_loop (cs ++ rest) stk lr
  = parse_loop rest (rev (map (fun c => INode (OpLiteral c)) cs) ++ stk) false.
Proof.
  revert stk lr. induction cs as [|c cs IH]; intros stk lr Hp Hlr.
  - destruct Hlr as [[]| ->]; reflexivity.
  - cbn [forallb] in Hp. apply andb_true_iff in Hp as [Hc Hp].
    destruct (is_plain_spec c Hc) as (H7 & ? & ? & ? & ? & ? & ? & ? & ? & ? & Hrep).
    cbn [app parse_loop].
    repeat match goal with Hx : Ascii.eqb c _ = false |- _ => rewrite Hx; clear Hx end.
    rewrite Hrep, H7. rewrite IH by auto.
    cbn [map rev]. now rewrite <- app_assoc.
Qed.

Lemma list_ascii_app a b :
  String.list_ascii_of_string (a +:+ b)
  = String.list_ascii_of_string a ++ String.list_ascii_of_string b.
Proof.
  induction a as [|c a IH]; [reflexivity|].
  change (String c a +:+ b) with (String c (a +:+ b)).
  cbn [String.list_ascii_of_string]. now rewrite IH.
Qed.

Lemma take_nodes_all rs acc :
  take_nodes (map INode rs) acc = (rev rs ++ acc, []).
Proof.
  revert acc. induction rs as [|r rs IH]; intros acc; [reflexivity|].
  cbn [map take_nodes rev]. rewrite IH. now rewrite <- app_assoc.
Qed.

Lemma mk_concat_cons r rs :
  rs ≠ [] -> mk_concat (r :: rs) = OpConcat r (mk_concat rs).
Proof. destruct rs; [contradiction|reflexivity]. Qed.

(** The anchored form of a plain pattern parses to the begin-of-text
    mark, the literals of the pattern and the end-of-text mark. *)
Lemma Parse_plain e :
  plain_pattern e ->
  Parse ("^" +:+ e +:+ "$")
  = inr (OpConcat OpBeginText
           (mk_concat (map OpLiteral (String.list_ascii_of_string e) ++ [OpEndText]))).
Proof.
  unfold plain_pattern, Parse. intros Hp.
  change ("^" +:+ e +:+ "$") with (String "^" (e +:+ "$")).
  cbn [String.list_ascii_of_string]. rewrite list_ascii_app.
  set (cs := String.list_ascii_of_string e) in *.
  change (parse_loop ("^"%char :: cs ++ String.list_ascii_of_string "$") [] false)
    with (parse_loop (cs ++ ["$"%char]) [INode OpBeginText] false).
  rewrite parse_loop_plain by auto.
  change (parse_loop ["$"%char] ?stk false) with (@inr ErrorCode _ (INode OpEndText :: stk)).
  cbv beta iota.
  unfold alternate, concat.
  replace (INode OpEndText :: rev (map (fun c => INode (OpLiteral c)) cs) ++ [INode OpBeginText])
    with (map INode (OpEndText :: rev (map OpLiteral cs) ++ [OpBeginText])).
  2:{ cbn [map]. rewrite map_app, map_rev, map_map. reflexivity. }
  rewrite take_nodes_all. cbn [rev]. rewrite rev_app_distr, rev_involutive, app_nil_r.
  cbn [rev app take_alts mk_alternate].
  rewrite mk_concat_cons by (destruct (map OpLiteral cs); discriminate).
  reflexivity.
Qed.

(** Where a run of literals followed by the end-of-text mark can end. *)
Lemma ends_literals cs s i :
  i <= length s ->
  ends (mk_concat (map OpLiteral cs ++ [OpEndText])) s i
  = if decide (drop i s = cs) then [length s] else [].
Proof.
  revert i. induction cs as [|c cs IH]; intros i Hi.
  - cbn [map app mk_concat ends].
    destruct (Nat.eqb_spec i (length s)) as [->|Hne].
    + rewrite decide_True by apply drop_all. reflexivity.
    + rewrite decide_False; [reflexivity|]. intros Hd.
      apply (f_equal length) in Hd. rewrite length_drop in Hd. cbn in Hd. lia.
  - cbn [map app]. rewrite mk_concat_cons by (destruct (map OpLiteral cs); discriminate).
    cbn [ends]. destruct (s !! i) as [d|] eqn:Hsi.
    + rewrite (drop_S _ _ _ Hsi).
      apply lookup_lt_Some in Hsi.
      destruct (Ascii.eqb_spec c d) as [->|Hcd].
      * cbn. rewrite app_nil_r, IH by lia.
        destruct (decide (drop (S i) s = cs)) as [->|Hne].
        -- now rewrite decide_True.
        -- rewrite decide_False; [reflexivity|congruence].
      * rewrite decide_False; [reflexivity|congruence].
    + apply lookup_ge_None in Hsi. rewrite drop_ge by lia.
      rewrite decide_False; [reflexivity|discriminate].
Qed.

(** The anchored form of a plain pattern matches the path it spells and
    no other. *)
Lemma MatchRe_plain e p :
  MatchRe (OpConcat OpBeginText
             (mk_concat (map OpLiteral (String.list_ascii_of_string e) ++ [OpEndText]))) p
  = bool_decide (p = e).
Proof.
  unfold MatchRe. set (s := String.list_ascii_of_string p).
  set (cs := String.list_ascii_of_string e).
  assert (∀ i, ends (OpConcat OpBeginText (mk_concat (map OpLiteral cs ++ [OpEndText]))) s i
               = if decide (i = 0 ∧ s = cs) then [length s] else []) as Hends.
  { intros i. cbn [ends]. destruct i as [|i]; cbn.
    - rewrite app_nil_r, ends_literals by lia. rewrite drop_0.
      destruct (decide (s = cs)); [rewrite decide_True|rewrite decide_False]; tauto.
    - rewrite decide_False; [reflexivity|]. intros [? _]. discriminate. }
  assert (s = cs <-> p = e) as Hpe.
  { split; [|now intros ->]. intros Hs.
    rewrite <- (String.string_of_list_ascii_of_string p),
            <- (String.string_of_list_ascii_of_string e). fold s cs. now rewrite Hs. }
  destruct (decide (p = e)) as [Heq|Hne].
  - rewrite bool_decide_eq_true_2 by exact Heq. apply existsb_exists.
    exists 0. split; [apply in_seq; lia|]. rewrite Hends.
    rewrite decide_True by (split; [reflexivity|now apply Hpe]). reflexivity.
  - rewrite bool_decide_eq_false_2 by exact Hne.
    apply not_true_is_false. intros Hex. apply existsb_exists in Hex as (i & _ & Hex).
    rewrite Hends, decide_False in Hex by (intros [_ Hs]; now apply Hne, Hpe).
    discriminate.
Qed.

End PlainPatterns.

(** X18: On a host that compiles the RE2 fragment, a list of plain patterns
    excludes the paths that are in the list and no other: a plain pattern
    is not searched for inside a longer path. *)
Theorem X18_plain_patterns_exclude_themselves (ans : nat -> choice) (vol : string -> nat)
  (unzip : bytes -> result (list zip.File)) (listing : bytes -> result (list Artifact.t))
  (p : string) (excludes : list string) :
  Forall plain_pattern excludes ->
  pathMatches (re2_host ans vol unzip listing) p excludes = true <-> p ∈ excludes.
Proof.
  intros Hall. rewrite pathMatches_existsb.
  assert (∀ e, plain_pattern e ->
               fst (regexp_MatchString (re2_host ans vol unzip listing)
                      ("^" +:+ e +:+ "$") p) = bool_decide (p = e)) as Hone.
  { intros e He. unfold regexp_MatchString, re2_host.
    cbn [regexp_Compile regexp_Match]. rewrite (Parse_plain e He). cbn [fst].
    apply MatchRe_plain. }
  rewrite Forall_forall in Hall. split.
  - intros Hex. apply existsb_exists in Hex as (e & He & Hm).
    apply list_elem_of_In in He. rewrite (Hone e (Hall e He)) in Hm.
    apply bool_decide_eq_true in Hm as ->. exact He.
  - intros Hin. apply existsb_exists. exists p. split; [now apply list_elem_of_In|].
    rewrite (Hone p (Hall p Hin)). now apply bool_decide_eq_true_2.
Qed.

Lemma X18_plain_patterns_exclude_themselves_witness :
  Forall plain_pattern ["Makefile"; "LICENSE"]
  ∧ (pathMatches calm_host "Makefile" ["Makefile"; "LICENSE"] = true
     <-> "Makefile" ∈ ["Makefile"; "LICENSE"]).
Proof.
  assert (Hp : Forall plain_pattern ["Makefile"; "LICENSE"])
    by (repeat constructor).
  split; [exact Hp|].
  exact (X18_plain_patterns_exclude_themselves calm_answer (fun _ => 0) (fun _ => Ok [])
           (fun _ => Ok []) "Makefile" ["Makefile"; "LICENSE"] Hp).
Defined.

(** A plain pattern does not reach into directories or longer names. *)
Example plain_pattern_examples :
  pathMatches calm_host "Makefile" ["Makefile"] = true
  ∧ pathMatches calm_host "sub/Makefile" ["Makefile"] = false
  ∧ pathMatches calm_host "Makefile.am" ["Makefile"] = false.
Proof. repeat split; reflexivity. Qed.

(** ** Differential extractor: comparison and replacement *)

Section Extraction.

Variable H : Host.

(** X19: [hasDiff] answers "no difference" in one case only: the destination
    is a file, opening and reading it both succeeded, and its fingerprint
    is the fingerprint of the entry. A missing file, a directory or a
    failed read never counts as up to date. Whatever it answers, it changes
    nothing. *)
Theorem X19_hasDiff_no_difference (b : bytes) (destFile : string) (w : World) :
  (fst (hasDiff H b destFile w) = Returned (Ok false)
   <-> fault (answer H (tick w)) = None ∧ fault (answer H (S (tick w))) = None
       ∧ ∃ c, files w !! destFile = Some c ∧ murmur3.Sum c = murmur3.Sum b)
  ∧ unchanged w (snd (hasDiff H b destFile w)).
Proof.
  destruct w as [fs ds ls t sm js lu]. unfold hasDiff, unchanged, bytes_Equal.
  unfold_prims. unfold_setters. wsimpl.
  destruct (fault (answer H t)) eqn:H0; wsimpl.
  { split; [|repeat split]. split; [discriminate|]. intros (? & _). discriminate. }
  destruct (fs !! destFile) as [c|] eqn:Hc; wsimpl.
  - destruct (fault (answer H (S t))) eqn:H1; wsimpl.
    { split; [|repeat split]. split; [discriminate|]. intros (_ & ? & _). discriminate. }
    split; [|repeat split].
    destruct (bool_decide_reflect (murmur3.Sum b = murmur3.Sum c)) as [Heq|Hne]; wsimpl.
    + split; [|reflexivity]. intros _. repeat split. exists c. auto.
    + split; [discriminate|]. intros (_ & _ & c' & [= <-] & Hs). congruence.
  - destruct (bool_decide (destFile ∈ ds)); wsimpl.
    + destruct (fault (answer H (S t))); wsimpl;
        (split; [|repeat split]; split; [discriminate|];
         intros (_ & _ & c & Hx & _); discriminate).
    + split; [|repeat split]. split; [discriminate|].
      intros (_ & _ & c & Hx & _). discriminate.
Qed.

(** X20: An entry whose destination is a directory is not extracted: when the
    entry can be read and passes the check, [extractDiff] returns an error
    and changes nothing, and when opening and reading the destination do
    not fail otherwise, the error is "is a directory". *)
Theorem X20_extractDiff_directory_in_the_way (f : zip.File) (dest : string) (w : World) :
  let path := filepath.Join [dest; zip.Name f] in
  readable H f w ->
  strings_HasPrefix path (filepath.Clean dest +:+ "/") = true ->
  files w !! path = None -> path ∈ dirs w ->
  ∃ err, fst (extractDiff H f dest w) = Returned (Err err)
       ∧ unchanged w (snd (extractDiff H f dest w))
       ∧ (fault (answer H (S (tick w))) = None ->
          fault (answer H (S (S (tick w)))) = None -> err = ErrIsDir path).
Proof.
  intros path (Hf & Ho & Hc & Hcl) Hin Hnone Hdir.
  destruct w as [fs ds ls t sm js lu].
  unfold extractDiff, hasDiff, zip_File_read, unchanged. unfold_prims. unfold_setters.
  wsimpl. wsimpl. fold path. unfold filepath.Separator.
  cbn [tick files dirs] in Hf, Hnone, Hdir.
  rewrite Hf, Ho, Hc, Hcl, Hin. wsimpl. rewrite Hnone.
  rewrite (bool_decide_eq_true_2 _ Hdir).
  destruct (fault (answer H (S t))); wsimpl.
  { eexists. split; [reflexivity|]. split; [repeat split|]. discriminate. }
  destruct (fault (answer H (S (S t)))); wsimpl.
  { eexists. split; [reflexivity|]. split; [repeat split|]. discriminate. }
  eexists. split; [reflexivity|]. split; [repeat split|]. reflexivity.
Qed.

(** X21: [extractDiff] replaces the destination as a whole or not at all. When
    it returns nil, the files are as they were (the entry was up to date)
    or they are the old ones with the destination holding the entry, and
    no scratch file is left; when it returns an error, every file that is
    not a scratch file [tmp/extract-N] is as it was. It never ends the
    process. *)
Theorem X21_extractDiff_all_or_nothing (f : zip.File) (dest : string) (w : World) :
  let out := extractDiff H f dest w in
  let path := filepath.Join [dest; zip.Name f] in
  match fst out with
  | Returned (Ok _) =>
      files (snd out) = files w ∨ files (snd out) = <[path := zip.content f]> (files w)
  | Returned (Err _) => same_but_temp "extract-*" w (snd out)
  | Exited => False
  end.
Proof.
  destruct w as [fs ds ls n sm js lu].
  unfold extractDiff, hasDiff, zip_File_read, same_but_temp.
  unfold_prims. unfold_setters. wsimpl.
  run_all; wsimpl; auto.
  all: try (intros p Hp; now apply altered_temp_elsewhere).
  all: try (intros p Hp; apply lookup_insert_ne; intros <-; apply Hp; eexists; reflexivity).
  all: right.
  all: match goal with
       | Hb : bool_decide (is_Some (?m !! ?t)) || _ = false |- _ =>
           apply orb_false_iff in Hb as [Hb _]; apply bool_decide_eq_false in Hb;
           rewrite <- eq_None_not_Some in Hb
       end.
  all: rewrite lookup_alter_eq, lookup_insert_eq in *;
       cbn [fmap option_fmap option_map] in *; simplify_eq.
  all: apply replaced_through_temp; [assumption|];
       now rewrite lookup_alter_eq, lookup_insert_eq.
Qed.

(** X22: [extractDiff] writes nothing before it has said so: either the log is
    as it was, and then so are the files and the directories, or the log
    has one more line, which announces the extraction of the entry. *)
Theorem X22_extractDiff_announces_writes (f : zip.File) (dest : string) (w : World) :
  let w' := snd (extractDiff H f dest w) in
  (logs w' = logs w ∧ files w' = files w ∧ dirs w' = dirs w)
  ∨ logs w' = logs w ++ ["[Info] Extracting: " +:+ zip.Name f].
Proof.
  destruct w as [fs ds ls n sm js lu]. unfold extractDiff, hasDiff, zip_File_read.
  unfold_prims. unfold_setters. wsimpl.
  run_all; wsimpl; auto.
Qed.


End Extraction.

Lemma X20_extractDiff_directory_in_the_way_witness :
  let f := entry "b" "X" in
  let w := set_dirs {[ "/srv/www/b" ]} empty_world in
  let path := filepath.Join ["/srv/www"; zip.Name f] in
  (readable calm_host f w
   ∧ strings_HasPrefix path (filepath.Clean "/srv/www" +:+ "/") = true
   ∧ files w !! path = None ∧ path ∈ dirs w)
  ∧ ∃ err, fst (extractDiff calm_host f "/srv/www" w) = Returned (Err err)
         ∧ unchanged w (snd (extractDiff calm_host f "/srv/www" w))
         ∧ (fault (answer calm_host (S (tick w))) = None ->
            fault (answer calm_host (S (S (tick w)))) = None -> err = ErrIsDir path).
Proof.
  intros f w path.
  assert (Hr : readable calm_host f w) by (repeat split).
  assert (Hin : strings_HasPrefix path (filepath.Clean "/srv/www" +:+ "/") = true)
    by reflexivity.
  assert (Hnone : files w !! path = None) by reflexivity.
  assert (Hdir : path ∈ dirs w) by (vm_compute; reflexivity).
  split; [exact (conj Hr (conj Hin (conj Hnone Hdir)))|].
  exact (X20_extractDiff_directory_in_the_way calm_host f "/srv/www" w Hr Hin Hnone Hdir).
Defined.


(** ** Polling rounds: what every round keeps *)

Section Rounds.

Variable H : Host.

(** *** The announcements in the log *)

Lemma running_lines_app l1 l2 :
  running_lines (l1 ++ l2) = running_lines l1 ++ running_lines l2.
Proof. apply filter_app. Qed.

Lemma running_lines_other ls line :
  is_running line = false -> running_lines (ls ++ [line]) = running_lines ls.
Proof.
  intros Hl. rewrite running_lines_app. unfold running_lines at 2.
  rewrite filter_cons, decide_False by congruence. cbn. apply app_nil_r.
Qed.

Lemma running_lines_running ls j :
  running_lines (ls ++ [running_line j]) = running_lines ls ++ [running_line j].
Proof.
  rewrite running_lines_app. f_equal. unfold running_lines.
  rewrite filter_cons, decide_True; [reflexivity|].
  unfold is_running, running_line. cbn. now destruct (job_key j).
Qed.

Lemma same_running_refl w : same_running w w.
Proof. reflexivity. Qed.

Lemma same_running_trans w1 w2 w3 :
  same_running w1 w2 -> same_running w2 w3 -> same_running w1 w3.
Proof. unfold same_running. congruence. Qed.

Lemma wstep_running f dest s w s' w' :
  wstep H f dest s w = (Returned s', w') -> same_running w w'.
Proof.
  destruct w as [fs ds ls t sm js lu]. unfold same_running.
  destruct s; unfold wstep, zip_File_read; unfold_prims; unfold_setters; wsimpl;
    run_all; intros [= <- <-]; wsimpl; try reflexivity.
  all: apply running_lines_other; reflexivity.
Qed.

Lemma fan_out_running entries dest excludes :
  keeps same_running (fan_out H entries dest excludes).
Proof.
  intros w. unfold fan_out.
  destruct (run_sched_ind H (fun _ w' => same_running w w') dest excludes) with
    (n := fan_out_fuel entries) (c := mkConfig (MLoop entries) 0 []) (w := w)
    as (c' & w' & Hrun & Hv).
  - intros c w0 Hv. exact Hv.
  - intros c w0 Hv _. exact Hv.
  - intros c w0 i f s s' w' Hv _ _ Hs.
    eapply same_running_trans; [exact Hv|]. eapply wstep_running. exact Hs.
  - apply same_running_refl.
  - rewrite Hrun. exact Hv.
Qed.

Lemma unzipDiff_running filename dest excludes :
  keeps same_running (unzipDiff H filename dest excludes).
Proof.
  unfold unzipDiff. apply keeps_bind; [apply same_running_trans| |].
  - intros w. destruct w as [fs ds ls t sm js lu]. reflexivity.
  - intros [entries|err]; [|intros w; apply same_running_refl].
    apply keeps_bind; [apply same_running_trans|apply fan_out_running|].
    intros _ w. apply same_running_refl.
Qed.

Lemma error_line_running key err w :
  same_running w (snd (log_Printf ("[Error] Job " +:+ key +:+ ": " +:+ Error err) w)).
Proof. apply running_lines_other. reflexivity. Qed.

Lemma after_mark_running j artifact : keeps same_running (after_mark H j artifact).
Proof.
  unfold after_mark. apply keeps_bind; [apply same_running_trans| |].
  - intros w. unfold same_running.
    destruct (downloadArtifact_outcome H (Job.Owner j) artifact (job_key j) w)
      as (_ & _ & ->). reflexivity.
  - intros [u|err]; [|intros w; apply error_line_running].
    apply keeps_bind; [apply same_running_trans|apply unzipDiff_running|].
    intros [u'|err] w; [apply same_running_refl|apply error_line_running].
Qed.

(** A job that returns has been announced once. *)
Lemma runJob_running j w w' :
  runJob H j w = (Returned tt, w') ->
  running_lines (logs w') = running_lines (logs w) ++ [running_line j].
Proof.
  rewrite runJob_unfold. cbn zeta.
  set (w0 := set_logs (logs w ++ ["[Info] Running job: " +:+ job_key j]) w).
  assert (running_lines (logs w0) = running_lines (logs w) ++ [running_line j]) as H0
    by apply running_lines_running.
  destruct (getLatestArtifact_unchanged H j w0) as [(_ & _ & Hl & _) _].
  destruct (getLatestArtifact H j w0) as [[[artifact|err]|] w1]; cbn [snd] in Hl;
    [| |discriminate].
  - destruct (Artifact.CreatedAt artifact =? _)%Z.
    + intros [= <-]. now rewrite Hl.
    + unfold bind.
      pose proof (markUpdate_outcome H (job_key j) (Artifact.CreatedAt artifact) w1) as Hm.
      cbn zeta in Hm.
      destruct (markUpdate H _ _ w1) as [[[]|] w2]; [|discriminate].
      cbn [fst snd] in Hm. destruct Hm as (_ & _ & Hl2).
      intros Hrun. pose proof (after_mark_running j artifact w2) as Ha.
      rewrite Hrun in Ha. unfold same_running in Ha. cbn [snd] in Ha.
      now rewrite Ha, Hl2, Hl.
  - intros [= <-]. cbn [logs set_logs].
    rewrite running_lines_other by reflexivity. now rewrite Hl.
Qed.

(** X24: A polling cycle that comes back has attempted every job of the list,
    once each and in order: the announcements it has added to the log are
    those of the jobs, whatever listing, download or extraction failed on
    the way. *)
Theorem X24_runJobs_attempts_every_job (w w' : World) :
  runJobs H w = (Returned tt, w') ->
  running_lines (logs w') = running_lines (logs w) ++ map running_line (jobs w).
Proof.
  unfold runJobs, bind, gets. cbn [fst snd]. generalize (jobs w) as js. intros js.
  revert w. induction js as [|j js IH]; intros w.
  - intros [= <-]. cbn. now rewrite app_nil_r.
  - cbn [runJobs_over]. unfold bind at 1.
    destruct (runJob H j w) as [[[]|] w1] eqn:Hj; [|discriminate].
    intros Hrest. rewrite (IH _ Hrest), (runJob_running _ _ _ Hj).
    cbn [map]. now rewrite <- app_assoc.
Qed.

(** *** What a polling round keeps *)

Lemma persists_refl w : persists w w.
Proof. repeat split; auto. Qed.

Lemma persists_trans w1 w2 w3 : persists w1 w2 -> persists w2 w3 -> persists w1 w3.
Proof.
  intros (Ha & Hb & Hc & Hd & He) (Ha' & Hb' & Hc' & Hd' & He').
  repeat split; [auto|set_solver|congruence|congruence|auto].
Qed.

Lemma unchanged_persists w w' : unchanged w w' -> persists w w'.
Proof.
  intros (Hf & Hd & _ & Hs & Hj & Hl). unfold persists.
  rewrite Hf, Hd, Hs, Hj, Hl. repeat split; auto.
Qed.

Lemma persists_fields w w' :
  files w' = files w -> dirs w' = dirs w -> secretMap w' = secretMap w ->
  jobs w' = jobs w -> lastUpdate w' = lastUpdate w -> persists w w'.
Proof.
  intros Hf Hd Hs Hj Hl. unfold persists. rewrite Hf, Hd, Hs, Hj, Hl. repeat split; auto.
Qed.

Lemma logged_persists w ls : persists w (set_logs ls w).
Proof. apply persists_fields; reflexivity. Qed.

Lemma log_Printf_persists line : keeps persists (log_Printf line).
Proof. intros w. apply logged_persists. Qed.

Lemma through_temp_persists pattern data target :
  keeps persists (through_temp H pattern data target).
Proof.
  intros w. destruct w as [fs ds ls t sm js lu]. unfold through_temp, persists.
  unfold_prims. unfold_setters. wsimpl.
  destruct (fault (answer H t)); wsimpl; [repeat split; auto|].
  destruct (bool_decide (is_Some (fs !! _)) || bool_decide (_ ∈ ds)) eqn:Htaken; wsimpl;
    [repeat split; auto|].
  apply orb_false_iff in Htaken as [Hfresh _].
  apply bool_decide_eq_false in Hfresh. rewrite <- eq_None_not_Some in Hfresh.
  assert (∀ (g : bytes -> bytes) p, is_Some (fs !! p) ->
            is_Some (alter g (temp_name tempDir pattern (random (answer H t)))
                       (<[temp_name tempDir pattern (random (answer H t)) := []]> fs) !! p))
    as Hgrow.
  { intros g p Hp. destruct (decide (p = temp_name tempDir pattern (random (answer H t))))
      as [->|Hne]; [rewrite Hfresh in Hp; destruct Hp; discriminate|].
    rewrite lookup_alter_ne, lookup_insert_ne by congruence. exact Hp. }
  destruct (fault (answer H (S t))); wsimpl; [repeat split; auto|].
  destruct (fault (answer H (S (S (S t))))); wsimpl; [repeat split; auto|].
  rewrite lookup_alter_eq, lookup_insert_eq. cbn [fmap option_fmap option_map].
  destruct (bool_decide (target ∈ ds)); wsimpl; [repeat split; auto|].
  destruct (bool_decide (volume H _ = volume H target)); wsimpl; [|repeat split; auto].
  repeat split; auto. intros p Hp.
  rewrite replaced_through_temp;
    [|exact Hfresh|now rewrite lookup_alter_eq, lookup_insert_eq].
  destruct (decide (p = target)) as [->|Hne];
    [rewrite lookup_insert_eq; eauto|now rewrite lookup_insert_ne].
Qed.

Lemma markUpdate_persists key t : keeps persists (markUpdate H key t).
Proof.
  unfold markUpdate. apply keeps_bind; [apply persists_trans| |].
  - intros w. unfold persists, modify. cbn. repeat split; auto.
    intros k Hk. destruct (decide (k = key)) as [->|Hne];
      [rewrite lookup_insert_eq; eauto|now rewrite lookup_insert_ne].
  - intros _. apply keeps_bind; [apply persists_trans| |].
    + intros w. apply persists_refl.
    + intros v. apply keeps_bind; [apply persists_trans| |].
      * rewrite saveJSON_through_temp. apply through_temp_persists.
      * intros [u|err] w; [apply persists_refl|apply logged_persists].
Qed.

Lemma downloadArtifact_persists owner a filename :
  keeps persists (downloadArtifact H owner a filename).
Proof.
  intros w.
  pose proof (through_temp_persists "artifact-tmp-*" (response_body H w)
                (filepath.Join [artifactsDir; filename +:+ ".zip"])
                (set_tick (S (S (tick w))) w)) as Hin.
  destruct w as [fs ds ls t sm js lu]. unfold response_body in *.
  unfold downloadArtifact. unfold through_temp in Hin. revert Hin.
  unfold_prims. unfold_setters. wsimpl.
  destruct (fault (answer H t)); wsimpl; [intros _; apply persists_fields; reflexivity|].
  destruct (fault (answer H (S t))); wsimpl; [intros _; apply persists_fields; reflexivity|].
  intros Hin. exact Hin.
Qed.

Lemma unzipDiff_persists filename dest excludes :
  keeps persists (unzipDiff H filename dest excludes).
Proof.
  intros w. destruct (unzipDiff_contained H filename dest excludes w) as (Hf & Hd & _).
  destruct (unzipDiff_vars H filename dest excludes w) as (Hs & Hj & Hl).
  unfold persists. rewrite Hs, Hj, Hl. repeat split; auto.
Qed.

Lemma runJob_persists j : keeps persists (runJob H j).
Proof.
  unfold runJob. apply keeps_bind; [apply persists_trans|apply log_Printf_persists|].
  intros _. apply keeps_bind; [apply persists_trans| |].
  { intros w. apply unchanged_persists, getLatestArtifact_unchanged. }
  intros [artifact|err]; [|apply log_Printf_persists].
  apply keeps_bind; [apply persists_trans|intros w; apply persists_refl|].
  intros lu. destruct (_ =? _)%Z; [intros w; apply persists_refl|].
  apply keeps_bind; [apply persists_trans|apply markUpdate_persists|].
  intros _. apply keeps_bind; [apply persists_trans|apply downloadArtifact_persists|].
  intros [u|err]; [|apply log_Printf_persists].
  apply keeps_bind; [apply persists_trans|apply unzipDiff_persists|].
  intros [u'|err]; [intros w; apply persists_refl|apply log_Printf_persists].
Qed.

Lemma main_rounds_persists n : keeps persists (main_rounds H n).
Proof.
  assert (∀ js, keeps persists (runJobs_over H js)) as Hover.
  { induction js as [|j js IH]; [intros w; apply persists_refl|].
    cbn [runJobs_over]. apply keeps_bind; [apply persists_trans|apply runJob_persists|].
    intros _. exact IH. }
  induction n as [|n IH]; [intros w; apply persists_refl|].
  cbn [main_rounds]. apply keeps_bind; [apply persists_trans| |intros _; exact IH].
  unfold runJobs. apply keeps_bind; [apply persists_trans|intros w; apply persists_refl|].
  exact Hover.
Qed.

(** X25: The program deletes nothing: after any number of polling rounds,
    whatever the server answers, whatever the archives hold and whatever
    fails, every file and every directory that was there is still there.
    Scratch files of failed writes and files that newer artifacts no
    longer hold are among them. *)
Theorem X25_main_never_deletes (n : nat) (w : World) (p : string) :
  let w' := snd (main_rounds H n w) in
  (is_Some (files w !! p) -> is_Some (files w' !! p))
  ∧ (p ∈ dirs w -> p ∈ dirs w').
Proof.
  cbn zeta. destruct (main_rounds_persists n w) as (Hf & Hd & _).
  split; [apply Hf|]. intros Hp. apply Hd, Hp.
Qed.

(** X26: The configuration is read at start-up only: no polling round changes
    the list of jobs or the secrets, and none drops an entry of the
    ledger; entries are only added or overwritten. *)
Theorem X26_main_keeps_configuration (n : nat) (w : World) (key : string) :
  let w' := snd (main_rounds H n w) in
  jobs w' = jobs w ∧ secretMap w' = secretMap w
  ∧ (is_Some (lastUpdate w !! key) -> is_Some (lastUpdate w' !! key)).
Proof.
  cbn zeta. destruct (main_rounds_persists n w) as (_ & _ & Hs & Hj & Hl).
  split; [exact Hj|]. split; [exact Hs|apply Hl].
Qed.

(** X27: A job writes in its own places only: a file that is not the ledger,
    not the archive of the job, not under the job's deploy path and not a
    scratch file of [tempDir] holds after [runJob] what it held before,
    whatever the server sends and whatever the archive holds. *)
Theorem X27_runJob_writes_in_its_places (j : Job.t) (w : World) (p : string) :
  ¬ job_may_write j p -> files (snd (runJob H j w)) !! p = files w !! p.
Proof.
  intros Hp. revert w.
  change (keeps (fun w w' => files w' !! p = files w !! p) (runJob H j)).
  assert (∀ w1 w2 w3 : World, files w2 !! p = files w1 !! p ->
            files w3 !! p = files w2 !! p -> files w3 !! p = files w1 !! p) as Htrans
    by (intros; congruence).
  assert (∀ line, keeps (fun w w' => files w' !! p = files w !! p) (log_Printf line))
    as Hlog by (intros line w; reflexivity).
  unfold job_may_write in Hp.
  unfold runJob. apply keeps_bind; [exact Htrans|apply Hlog|].
  intros _. apply keeps_bind; [exact Htrans| |].
  { intros w. destruct (getLatestArtifact_unchanged H j w) as [(-> & _) _]. reflexivity. }
  intros [artifact|err]; [|apply Hlog].
  apply keeps_bind; [exact Htrans|intros w; reflexivity|].
  intros lu. destruct (_ =? _)%Z; [intros w; reflexivity|].
  apply keeps_bind; [exact Htrans| |].
  { intros w.
    pose proof (markUpdate_outcome H (job_key j) (Artifact.CreatedAt artifact) w) as [_ Hm].
    destruct (fst (markUpdate H _ _ w)).
    - destruct Hm as [-> _]. apply lookup_insert_ne. intros <-. tauto.
    - apply Hm. tauto. }
  intros _. apply keeps_bind; [exact Htrans| |].
  { intros w.
    destruct (downloadArtifact_outcome H (Job.Owner j) artifact (job_key j) w) as [Hd _].
    destruct (fst (downloadArtifact H _ _ _ w)) as [[u|err]|]; [| |destruct Hd].
    - rewrite Hd. apply lookup_insert_ne. intros <-. tauto.
    - apply Hd. tauto. }
  intros [u|err]; [|apply Hlog].
  apply keeps_bind; [exact Htrans| |].
  { intros w. destruct (unzipDiff_contained H (filepath.Join [artifactsDir; job_key j +:+ ".zip"])
                          (Job.DeployPath j) (Job.Excludes j) w) as (_ & _ & Hout).
    apply Hout. split; [|tauto].
    destruct (strings_HasPrefix p _) eqn:Hpre; [tauto|reflexivity]. }
  intros [u'|err]; [intros w; reflexivity|apply Hlog].
Qed.

(** X28: Only the ledger can end the process: whatever the listing, the
    download and the extraction do, [runJob] comes back, unless the
    listing named a new version and saving the ledger for it failed. *)
Theorem X28_runJob_exits_only_on_ledger (j : Job.t) (w : World) :
  fst (runJob H j w) = Exited ->
  ∃ artifact w1 err,
    getLatestArtifact H j (set_logs (logs w ++ ["[Info] Running job: " +:+ job_key j]) w)
    = (Returned (Ok artifact), w1)
    ∧ fst (saveJSON H logFile (<[job_key j := Artifact.CreatedAt artifact]> (lastUpdate w1))
             (set_lastUpdate (<[job_key j := Artifact.CreatedAt artifact]> (lastUpdate w1)) w1))
      = Returned (Err err).
Proof.
  rewrite runJob_unfold. cbn zeta.
  destruct (getLatestArtifact_unchanged H j
              (set_logs (logs w ++ ["[Info] Running job: " +:+ job_key j]) w)) as [_ [r Hr]].
  destruct (getLatestArtifact H j _) as [[[artifact|err]|] w1]; cbn [fst] in *;
    [|discriminate|discriminate].
  destruct (_ =? _)%Z; [discriminate|].
  pose proof (markUpdate_cases H (job_key j) (Artifact.CreatedAt artifact) w1) as Hc.
  cbn zeta in Hc. destruct (saveJSON_returns H logFile
    (<[job_key j := Artifact.CreatedAt artifact]> (lastUpdate w1))
    (set_lastUpdate (<[job_key j := Artifact.CreatedAt artifact]> (lastUpdate w1)) w1))
    as [rs Hrs].
  rewrite Hrs in Hc. destruct rs as [u|err].
  - unfold bind. rewrite Hc. intros Hex. exfalso. revert Hex.
    unfold after_mark, bind.
    destruct (downloadArtifact_outcome H (Job.Owner j) artifact (job_key j)
                (snd (saveJSON H logFile
                   (<[job_key j := Artifact.CreatedAt artifact]> (lastUpdate w1))
                   (set_lastUpdate (<[job_key j := Artifact.CreatedAt artifact]>
                                      (lastUpdate w1)) w1)))) as [Hd _].
    destruct (downloadArtifact H _ _ _ _) as [[[u'|err]|] w2]; cbn [fst] in Hd;
      [|discriminate|destruct Hd].
    unfold unzipDiff, bind.
    destruct (zip_OpenReader H _ w2) as [[[entries|err]|] w3] eqn:Hopen.
    + destruct (fan_out_final H entries (Job.DeployPath j) (Job.Excludes j) w3)
        as (c & w4 & -> & _). discriminate.
    + discriminate.
    + revert Hopen. unfold_prims. discriminate.
  - intros _. exists artifact, w1, err. split; [reflexivity|exact Hrs].
Qed.

End Rounds.

Lemma X24_runJobs_attempts_every_job_witness :
  let H := flaky_download_host in
  let w := set_jobs [demo_job; docs_job] empty_world in
  let w' := snd (runJobs H w) in
  runJobs H w = (Returned tt, w')
  ∧ running_lines (logs w') = running_lines (logs w) ++ map running_line (jobs w).
Proof.
  intros H w w'.
  assert (Hr : runJobs H w = (Returned tt, w')) by (vm_compute; reflexivity).
  split; [exact Hr|]. exact (X24_runJobs_attempts_every_job H w w' Hr).
Defined.

(** The download of the first job fails and the second job has no
    artifact: both are attempted, both are reported. *)
Example failing_jobs_round :
  logs (snd (runJobs flaky_download_host (set_jobs [demo_job; docs_job] empty_world)))
  = ["[Info] Running job: o.r.dist"; "[Error] Job o.r.dist: connection reset";
     "[Info] Running job: o.r.manual"; "[Error] Job o.r.manual: no artifact found"].
Proof. vm_compute. reflexivity. Qed.

Lemma X27_runJob_writes_in_its_places_witness :
  let H := archive_host mixed_archive in
  ¬ job_may_write demo_job "/etc/passwd"
  ∧ files (snd (runJob H demo_job guarded_world)) !! "/etc/passwd"
    = files guarded_world !! "/etc/passwd".
Proof.
  intros H.
  assert (Hp : ¬ job_may_write demo_job "/etc/passwd").
  { intros [Hx|[Hx|[Hx|[Hx|[[k Hx]|[k Hx]]]]]]; try discriminate Hx.
    - revert Hx. apply rooted_not_scratch. reflexivity. }
  split; [exact Hp|].
  exact (X27_runJob_writes_in_its_places H demo_job guarded_world "/etc/passwd" Hp).
Defined.

Lemma X28_runJob_exits_only_on_ledger_witness :
  let H := split_volume_host in
  let w0 := set_logs (logs empty_world ++ ["[Info] Running job: " +:+ job_key demo_job])
              empty_world in
  fst (runJob H demo_job empty_world) = Exited
  ∧ ∃ artifact w1 err,
      getLatestArtifact H demo_job w0 = (Returned (Ok artifact), w1)
      ∧ fst (saveJSON H logFile
               (<[job_key demo_job := Artifact.CreatedAt artifact]> (lastUpdate w1))
               (set_lastUpdate
                  (<[job_key demo_job := Artifact.CreatedAt artifact]> (lastUpdate w1)) w1))
        = Returned (Err err).
Proof.
  intros H w0.
  assert (He : fst (runJob H demo_job empty_world) = Exited) by (vm_compute; reflexivity).
  split; [exact He|]. exact (X28_runJob_exits_only_on_ledger H demo_job empty_world He).
Defined.

(** ** Archive synchroniser: deployment when nothing fails *)

Section Deployment.
Variable H : Host.





End Deployment.



(** ** Polling rounds with nothing new *)

Section IdlePolling.
Variable H : Host.

Lemma runJob_idle j w :
  up_to_date H (lastUpdate w) j ->
  fst (runJob H j w) = Returned tt ∧ same_state w (snd (runJob H j w)).
Proof.
  intros Hup. rewrite runJob_unfold. cbn zeta.
  set (w0 := set_logs (logs w ++ ["[Info] Running job: " +:+ job_key j]) w).
  specialize (Hup w0).
  destruct (getLatestArtifact_unchanged H j w0) as [(Hf & Hd & _ & Hs & Hj & Hl) [r Hr]].
  destruct (getLatestArtifact H j w0) as [[[a|err]|] w1]; cbn [fst snd] in *;
    [| |discriminate].
  - rewrite Hl. cbn [lastUpdate set_logs w0]. rewrite Hup, Z.eqb_refl.
    split; [reflexivity|]. repeat split; assumption.
  - split; [reflexivity|]. repeat split; assumption.
Qed.

Lemma runJobs_over_idle js w :
  Forall (up_to_date H (lastUpdate w)) js ->
  fst (runJobs_over H js w) = Returned tt ∧ same_state w (snd (runJobs_over H js w)).
Proof.
  revert w. induction js as [|j js IH]; intros w Hall.
  - split; [reflexivity|]. repeat split.
  - apply Forall_cons in Hall as [Hj Hall]. cbn [runJobs_over]. unfold bind.
    destruct (runJob_idle j w Hj) as [Hr ((Hf & Hd) & Hs & Hjs & Hl)].
    destruct (runJob H j w) as [[[]|] w1]; cbn [fst snd] in *; [|discriminate].
    rewrite <- Hl in Hall. destruct (IH w1 Hall) as [Hr' ((Hf' & Hd') & Hs' & Hjs' & Hl')].
    split; [exact Hr'|]. repeat split; congruence.
Qed.

(** X30: Polling is idle when there is nothing new: if, whenever it is asked,
    the listing of every job fails or names the version that the ledger
    records, then any number of rounds return and leave the files, the
    directories, the ledger and the other variables as they were; nothing
    is downloaded and nothing is extracted. *)
Theorem X30_main_idle_when_up_to_date (n : nat) (w : World) :
  Forall (up_to_date H (lastUpdate w)) (jobs w) ->
  fst (main_rounds H n w) = Returned tt ∧ same_state w (snd (main_rounds H n w)).
Proof.
  revert w. induction n as [|n IH]; intros w Hall.
  - split; [reflexivity|]. repeat split.
  - cbn [main_rounds]. unfold bind, runJobs, bind, gets. cbn [fst snd].
    destruct (runJobs_over_idle (jobs w) w Hall) as [Hr ((Hf & Hd) & Hs & Hjs & Hl)].
    destruct (runJobs_over H (jobs w) w) as [[[]|] w1]; cbn [fst snd] in *; [|discriminate].
    rewrite <- Hl, <- Hjs in Hall.
    destruct (IH w1 Hall) as [Hr' ((Hf' & Hd') & Hs' & Hjs' & Hl')].
    split; [exact Hr'|]. repeat split; congruence.
Qed.

End IdlePolling.

Lemma X30_main_idle_when_up_to_date_witness :
  let H := listing_host demo_listing in
  let w := set_jobs [demo_job] (set_lastUpdate {[ "o.r.dist" := 9%Z ]} empty_world) in
  Forall (up_to_date H (lastUpdate w)) (jobs w)
  ∧ fst (main_rounds H 3 w) = Returned tt ∧ same_state w (snd (main_rounds H 3 w)).
Proof.
  intros H w.
  assert (Hup : Forall (up_to_date H (lastUpdate w)) (jobs w)).
  { constructor; [|constructor]. intros w0. rewrite getLatestArtifact_cases. reflexivity. }
  split; [exact Hup|]. exact (X30_main_idle_when_up_to_date H 3 w Hup).
Defined.

